(** * Sprite image pipeline of the custom-building panel

    A shallow embedding of the image utilities that follow the panel
    component in [src/components/game/panels/CustomBuildingPanel.tsx]:
    the WebP negotiation ([checkWebPSupport], [getWebPPath]), the loader and
    its cache ([loadImageDirect], [loadImage], [loadSpriteImage],
    [clearImageCache]), the chroma filter ([filterBackgroundColor]) and the
    content-bounds analysis ([analyzeContentBounds], [getContentBounds]).

    Conventions.
    - A JavaScript number that holds a pixel coordinate, a byte or a size is
      a [Z]; a threshold is a rational ([Q], every finite double is one).
      [Math.sqrt] is the correctly rounded root, with the 53 bits of a
      double.  The quotients of the content bounds are exact rationals: the
      double that the code returns is the one nearest to them.
    - A decoded image is its size and its RGBA bytes, in the layout of
      [ImageData.data].
    - The module-level variables ([imageCache], [contentBoundsCache],
      [webpSupported], [imageLoadCallbacks]) form an explicit [World] that
      every operation threads; a promise is the pair of its outcome
      ([None] when rejected) and the world it leaves behind. *)

From Stdlib Require Import ZArith QArith Qreals Reals Lra Lia.
From Stdlib Require Import Qround.
From stdpp Require Import gmap strings list fin_maps.
From stdpp Require Import pretty.

Local Open Scope Z_scope.

(** ** Decoded images and the canvas *)

(** [width] and [height] stand for [img.naturalWidth || img.width] and
    [img.naturalHeight || img.height]; [data] is what drawing the image on a
    canvas of that size and reading it back yields. *)
Record HTMLImageElement := mkImage {
  width : Z;
  height : Z;
  data : list Z
}.

(** The buffer of a [w] x [h] image has four bytes per pixel. *)
Definition wellFormed (img : HTMLImageElement) : Prop :=
  0 <= width img ∧ 0 <= height img ∧
  Z.of_nat (length (data img)) = 4 * (width img * height img).

(** What the page can do with a canvas: [context2d] is false when
    [canvas.getContext('2d')] returns null, [originClean] is false when the
    canvas is CORS-tainted, [encodes] is false when the image built from
    [canvas.toDataURL()] fires [onerror], and [premultiplied] says that the
    bitmap of the canvas stores colours multiplied by alpha, as the canvases
    of browsers do, so that a pixel written with alpha 0 keeps no colour. *)
Record Canvas := mkCanvas {
  context2d : bool;
  originClean : bool;
  encodes : bool;
  premultiplied : bool
}.

(** [ctx.getImageData(0, 0, w, h)] after [ctx.drawImage(img, 0, 0)]: it
    throws a SecurityError on a tainted canvas and an IndexSizeError when
    [w] or [h] is zero; [None] is the exception. *)
Definition getImageData (cv : Canvas) (img : HTMLImageElement) : option (list Z) :=
  if negb (originClean cv) then None
  else if (width img =? 0) || (height img =? 0) then None
  else Some (data img).

(** Pixel number [p] of a buffer, as its four bytes. *)
Definition pixelAt (d : list Z) (p : nat) : option (Z * Z * Z * Z) :=
  match d !! (4 * p)%nat, d !! (4 * p + 1)%nat,
        d !! (4 * p + 2)%nat, d !! (4 * p + 3)%nat with
  | Some r, Some g, Some b, Some a => Some (r, g, b, a)
  | _, _, _, _ => None
  end.

(** ** Chroma filter *)

Record RGB := mkRGB { red : Z; green : Z; blue : Z }.

Definition BACKGROUND_COLOR : RGB := {| red := 255; green := 0; blue := 0 |}.
Definition COLOR_THRESHOLD : Q := 155.

(** The argument of [Math.sqrt] at a pixel: the three [Math.pow (_, 2)]. *)
Definition squaredDistance (r g b : Z) : Z :=
  (r - red BACKGROUND_COLOR) ^ 2 +
  (g - green BACKGROUND_COLOR) ^ 2 +
  (b - blue BACKGROUND_COLOR) ^ 2.

(** [Math.sqrt(n)] for an integer [n]: the double nearest to the real
    root.  With [2 ^ e <= sqrt n < 2 ^ (e + 1)] the doubles around the root
    are the multiples of [2 ^ (e - 52)], so the result is [m / 2 ^ k] for
    [k = 52 - e] and [m] the integer nearest to [sqrt (n * 4 ^ k)]: the
    floor of that root, plus one when the root lies above the midpoint (it
    never lies on it).  This is the value of [Math.sqrt] for every
    [n < 2 ^ 106], far beyond 195075, the greatest sum of three squared
    differences of bytes; the three [Math.pow (_, 2)] and their sum are
    integers below [2 ^ 53] and so exact. *)
Definition Math_sqrt (n : Z) : Q :=
  if n <=? 0 then 0
  else
    let k := Z.max 0 (52 - Z.log2 (Z.sqrt n)) in
    let m := Z.sqrt (n * 4 ^ k) in
    (if m * m + m <? n * 4 ^ k then m + 1 else m) # Z.to_pos (2 ^ k).

(** The variable [distance] of the loop body. *)
Definition computedDistance (r g b : Z) : Q :=
  Math_sqrt (squaredDistance r g b).

(** [distance <= threshold] of the loop body. *)
Definition isBackground (r g b : Z) (threshold : Q) : bool :=
  Qle_bool (computedDistance r g b) threshold.

(** The Euclidean distance itself, as a real number. *)
Definition colorDistance (r g b : Z) : R :=
  sqrt (IZR (squaredDistance r g b)).

(** One iteration of the loop at byte offset [i].  A read past the end of
    the typed array is [undefined] and makes the comparison false; a write
    past the end is ignored. *)
Definition filterStep (threshold : Q) (i : nat) (d : list Z) : list Z :=
  match d !! i, d !! (i + 1)%nat, d !! (i + 2)%nat with
  | Some r, Some g, Some b =>
      if isBackground r g b threshold then <[(i + 3)%nat := 0]> d else d
  | _, _, _ => d
  end.

(** [for (let i = 0; i < data.length; i += 4)], from offset [i], for at
    most [fuel] iterations. *)
Fixpoint filterLoop (fuel : nat) (threshold : Q) (i : nat) (d : list Z) : list Z :=
  match fuel with
  | O => d
  | S fuel' =>
      if (i <? length d)%nat
      then filterLoop fuel' threshold (i + 4)%nat (filterStep threshold i d)
      else d
  end.

(** Whether pixel [p] had a non-zero alpha in [held] and has alpha 0 in
    [written]. *)
Definition alphaCleared (held written : list Z) (p : nat) : bool :=
  match held !! (4 * p + 3)%nat, written !! (4 * p + 3)%nat with
  | Some a, Some a' => negb (a =? 0) && (a' =? 0)
  | _, _ => false
  end.

(** [ctx.putImageData(imageData, 0, 0)] on the canvas that [held] was read
    from, seen through [canvas.toDataURL()] and the decoding of that URL:
    the pixels of the image that the promise resolves with.  A pixel
    written back as it was read is the pixel read; a pixel whose alpha was
    set to 0 is stored without its colour on a premultiplied canvas and
    comes back as four zero bytes. *)
Definition putImageData (cv : Canvas) (held written : list Z) : list Z :=
  imap (λ j byte,
          if premultiplied cv && alphaCleared held written (j / 4)%nat
          then 0 else byte)
       written.

(** The promise of [filterBackgroundColor]: [None] is a rejection.  The
    threshold argument is optional and defaults to [COLOR_THRESHOLD]; it is
    a finite number (against NaN or an infinity the comparison of the loop
    is the same for every pixel). *)
Definition filterBackgroundColor (cv : Canvas) (img : HTMLImageElement)
    (threshold : option Q) : option HTMLImageElement :=
  let threshold := default COLOR_THRESHOLD threshold in
  if negb (context2d cv) then None
  else
    match getImageData cv img with
    | None => None
    | Some d =>
        let d' := filterLoop (length d) threshold 0 d in
        if encodes cv
        then Some {| width := width img; height := height img;
                     data := putImageData cv d d' |}
        else None
    end.

(** What [filterBackgroundColor] makes of one pixel: kept when its colour
    is beyond the threshold, else cleared, and then without its colour when
    the canvas is premultiplied and the alpha was not 0 before. *)
Definition filteredPixel (cv : Canvas) (threshold : Q) (px : Z * Z * Z * Z)
    : Z * Z * Z * Z :=
  let '(r, g, b, a) := px in
  if isBackground r g b threshold then
    if premultiplied cv && negb (a =? 0) then (0, 0, 0, 0) else (r, g, b, 0)
  else (r, g, b, a).

(** The conditions under which the promise is fulfilled: a 2D context, a
    readable canvas with at least one pixel, and a data URL that decodes. *)
Definition canvasWorks (cv : Canvas) (img : HTMLImageElement) : Prop :=
  context2d cv = true ∧ originClean cv = true ∧ encodes cv = true ∧
  0 < width img ∧ 0 < height img.


(** ** Content bounds *)

Record ContentBounds := mkContentBounds {
  minX : Z;
  minY : Z;
  maxX : Z;
  maxY : Z;
  contentWidth : Z;
  contentHeight : Z;
  centerOffsetX : Q;
  centerOffsetY : Q;
  contentRatioX : Q;
  contentRatioY : Q
}.

(** The record that [analyzeContentBounds] returns when it cannot read the
    pixels and when it finds no content: the source writes it out three
    times, with the same fields. *)
Definition wholeImage (w h : Z) : ContentBounds :=
  {| minX := 0; minY := 0; maxX := w; maxY := h;
     contentWidth := w; contentHeight := h;
     centerOffsetX := 0; centerOffsetY := 0;
     contentRatioX := 1; contentRatioY := 1 |}.

Definition alphaThreshold : Z := 10.

(** [data[i]] of a typed array: [None] is [undefined]. *)
Definition readByte (d : list Z) (i : Z) : option Z :=
  if i <? 0 then None else d !! Z.to_nat i.

(** [alpha > alphaThreshold] at column [x] of row [y]; [undefined] compares
    false. *)
Definition isContent (w : Z) (d : list Z) (x y : Z) : bool :=
  let idx := (y * w + x) * 4 in
  match readByte d (idx + 3) with
  | Some alpha => alpha >? alphaThreshold
  | None => false
  end.

(** The four running bounds of the scan. *)
Record Box := mkBox { boxMinX : Z; boxMinY : Z; boxMaxX : Z; boxMaxY : Z }.

(** The four conditional assignments of the inner loop body. *)
Definition grow (x y : Z) (bx : Box) : Box :=
  {| boxMinX := if x <? boxMinX bx then x else boxMinX bx;
     boxMaxX := if x >? boxMaxX bx then x else boxMaxX bx;
     boxMinY := if y <? boxMinY bx then y else boxMinY bx;
     boxMaxY := if y >? boxMaxY bx then y else boxMaxY bx |}.

Definition visit (w : Z) (d : list Z) (y : Z) (bx : Box) (x : Z) : Box :=
  if isContent w d x y then grow x y bx else bx.

(** [for (let x = 0; x < width; x++)] at row [y]. *)
Definition scanRow (w : Z) (d : list Z) (bx : Box) (y : Z) : Box :=
  foldl (visit w d y) bx (seqZ 0 w).

(** [for (let y = 0; y < height; y++)], from [minX = width],
    [minY = height], [maxX = 0], [maxY = 0]. *)
Definition scan (w h : Z) (d : list Z) : Box :=
  foldl (scanRow w d)
    {| boxMinX := w; boxMinY := h; boxMaxX := 0; boxMaxY := 0 |}
    (seqZ 0 h).

(** The record built from the bounds found, from [const contentWidth] to the
    final [return].  The quotients are exact rationals.  In the code the
    halves, the sum and the difference are exact as doubles and each of the
    four final divisions rounds once, so that a number returned is the
    double nearest to the rational here. *)
Definition boundsOfBox (w h : Z) (bx : Box) : ContentBounds :=
  let contentWidth := boxMaxX bx - boxMinX bx + 1 in
  let contentHeight := boxMaxY bx - boxMinY bx + 1 in
  let contentCenterX :=
    (inject_Z (boxMinX bx) + inject_Z contentWidth / 2)%Q in
  let contentCenterY :=
    (inject_Z (boxMinY bx) + inject_Z contentHeight / 2)%Q in
  let imageCenterX := (inject_Z w / 2)%Q in
  let imageCenterY := (inject_Z h / 2)%Q in
  let centerOffsetX := ((contentCenterX - imageCenterX) / inject_Z w)%Q in
  let centerOffsetY := ((contentCenterY - imageCenterY) / inject_Z h)%Q in
  {| minX := boxMinX bx; minY := boxMinY bx;
     maxX := boxMaxX bx; maxY := boxMaxY bx;
     contentWidth := contentWidth; contentHeight := contentHeight;
     centerOffsetX := centerOffsetX; centerOffsetY := centerOffsetY;
     contentRatioX := (inject_Z contentWidth / inject_Z w)%Q;
     contentRatioY := (inject_Z contentHeight / inject_Z h)%Q |}.

Definition analyzeContentBounds (cv : Canvas) (img : HTMLImageElement)
    : ContentBounds :=
  let w := width img in
  let h := height img in
  if negb (context2d cv) then wholeImage w h
  else
    match getImageData cv img with
    | None => wholeImage w h
    | Some d =>
        let bx := scan w h d in
        if (boxMinX bx >? boxMaxX bx) || (boxMinY bx >? boxMaxY bx)
        then wholeImage w h
        else boundsOfBox w h bx
    end.

(** The alpha byte of the pixel at column [x] of row [y]. *)
Definition alphaAt (img : HTMLImageElement) (x y : Z) : option Z :=
  readByte (data img) ((y * width img + x) * 4 + 3).

(** A content pixel of the image: a position inside it whose alpha is
    strictly greater than 10. *)
Definition contentPixel (img : HTMLImageElement) (x y : Z) : Prop :=
  0 <= x < width img ∧ 0 <= y < height img ∧
  ∃ alpha, alphaAt img x y = Some alpha ∧ 10 < alpha.

(** The positions the two loops visit, in the order they visit them. *)
Definition points (w h : Z) : list (Z * Z) :=
  y ← seqZ 0 h; (λ x, (x, y)) <$> seqZ 0 w.

Definition visitPoint (w : Z) (d : list Z) (bx : Box) (p : Z * Z) : Box :=
  visit w d p.2 bx p.1.

(** ** Format negotiation *)

(** [s.endsWith(suffix)]: some tail of [s] is [suffix]. *)
Fixpoint endsWith (s suffix : string) : bool :=
  String.eqb s suffix ||
  match s with
  | EmptyString => false
  | String _ s' => endsWith s' suffix
  end.

(** [s.replace(/\.png$/, '.webp')]: the pattern is anchored at the end of
    the input, so the only tail it can match is a final [".png"]. *)
Fixpoint replacePngAtEnd (s : string) : string :=
  if String.eqb s ".png" then ".webp"
  else
    match s with
    | EmptyString => EmptyString
    | String c s' => String c (replacePngAtEnd s')
    end.

(** [None] is the [null] of the source. *)
Definition getWebPPath (src : string) : option string :=
  if endsWith src ".png" then Some (replacePngAtEnd src) else None.

(** [if (webpPath)]: [null] and the empty string are falsy. *)
Definition truthy (p : option string) : bool :=
  match p with
  | Some s => negb (String.eqb s "")
  | None => false
  end.

(** ** The module state *)

(** A callback is known by a number; [imageLoadCallbacks] is a JavaScript
    [Set], kept as the list of its members in insertion order.  The last
    four fields observe the run and are read by no operation: the sources
    given to [img.src] by [loadImageDirect], the callbacks invoked, the
    number of probe images created and the number of pixel scans made by
    [getContentBounds]. *)
Record World := mkWorld {
  imageCache : gmap string HTMLImageElement;
  contentBoundsCache : gmap string ContentBounds;
  webpSupported : option bool;
  imageLoadCallbacks : list nat;
  requested : list string;
  notified : list nat;
  probes : nat;
  scans : nat
}.

Definition initialWorld : World :=
  {| imageCache := ∅; contentBoundsCache := ∅; webpSupported := None;
     imageLoadCallbacks := []; requested := []; notified := [];
     probes := 0; scans := 0 |}.

Definition setImageCache (m : gmap string HTMLImageElement) (w : World) : World :=
  {| imageCache := m; contentBoundsCache := contentBoundsCache w;
     webpSupported := webpSupported w;
     imageLoadCallbacks := imageLoadCallbacks w;
     requested := requested w; notified := notified w;
     probes := probes w; scans := scans w |}.

Definition setContentBoundsCache (m : gmap string ContentBounds) (w : World) : World :=
  {| imageCache := imageCache w; contentBoundsCache := m;
     webpSupported := webpSupported w;
     imageLoadCallbacks := imageLoadCallbacks w;
     requested := requested w; notified := notified w;
     probes := probes w; scans := scans w |}.

Definition setWebpSupported (b : bool) (w : World) : World :=
  {| imageCache := imageCache w; contentBoundsCache := contentBoundsCache w;
     webpSupported := Some b;
     imageLoadCallbacks := imageLoadCallbacks w;
     requested := requested w; notified := notified w;
     probes := probes w; scans := scans w |}.

(** The observers: a probe image was created, a buffer was scanned. *)
Definition countProbe (w : World) : World :=
  {| imageCache := imageCache w; contentBoundsCache := contentBoundsCache w;
     webpSupported := webpSupported w;
     imageLoadCallbacks := imageLoadCallbacks w;
     requested := requested w; notified := notified w;
     probes := S (probes w); scans := scans w |}.

Definition countScan (w : World) : World :=
  {| imageCache := imageCache w; contentBoundsCache := contentBoundsCache w;
     webpSupported := webpSupported w;
     imageLoadCallbacks := imageLoadCallbacks w;
     requested := requested w; notified := notified w;
     probes := probes w; scans := S (scans w) |}.

Definition setImageLoadCallbacks (l : list nat) (w : World) : World :=
  {| imageCache := imageCache w; contentBoundsCache := contentBoundsCache w;
     webpSupported := webpSupported w;
     imageLoadCallbacks := l;
     requested := requested w; notified := notified w;
     probes := probes w; scans := scans w |}.

Definition request (src : string) (w : World) : World :=
  {| imageCache := imageCache w; contentBoundsCache := contentBoundsCache w;
     webpSupported := webpSupported w;
     imageLoadCallbacks := imageLoadCallbacks w;
     requested := requested w ++ [src]; notified := notified w;
     probes := probes w; scans := scans w |}.

(** What lies outside the module: [fetch src] is the image that [onload]
    delivers after [img.src = src], or [None] when [onerror] fires;
    [probeImage] is the size of the decoded 1 x 1 WebP test image, or [None]
    when the browser cannot decode it. *)
Record Network := mkNetwork {
  fetch : string → option HTMLImageElement;
  probeImage : option (Z * Z)
}.

(** A promise run to its end: the value it resolves with, or [None] when it
    rejects, and the world after it settled. *)
Definition Promise (A : Type) : Type := World → option A * World.

Definition resolve {A} (a : A) : Promise A := λ w, (Some a, w).
Definition reject {A} : Promise A := λ w, (None, w).

(** [await p], then [k]; a rejection of [p] propagates. *)
Definition await {A B} (p : Promise A) (k : A → Promise B) : Promise B :=
  λ w, match p w with
       | (Some a, w') => k a w'
       | (None, w') => (None, w')
       end.

(** [try { k (await p) } catch { handler }], where the [try] block ends by
    returning. *)
Definition tryAwait {A B} (p : Promise A) (k : A → Promise B)
    (handler : Promise B) : Promise B :=
  λ w, match p w with
       | (Some a, w') => k a w'
       | (None, w') => handler w'
       end.

(** A synchronous effect on the module state. *)
Definition effect (f : World → World) : Promise unit := λ w, (Some tt, f w).

Notation "'let*' x ':=' p 'in' k" := (await p (λ x, k))
  (at level 10, x name, p at level 100, k at level 200, only parsing).

(** ** Notification *)

(** [imageLoadCallbacks.add(callback)]. *)
Definition onImageLoaded (callback : nat) (w : World) : World :=
  if decide (callback ∈ imageLoadCallbacks w) then w
  else setImageLoadCallbacks (imageLoadCallbacks w ++ [callback]) w.

(** The cleanup function returned by [onImageLoaded]. *)
Definition unsubscribe (callback : nat) (w : World) : World :=
  setImageLoadCallbacks
    (filter (λ cb, cb ≠ callback) (imageLoadCallbacks w)) w.

(** [imageLoadCallbacks.forEach(cb => cb())]. *)
Definition notifyImageLoaded (w : World) : World :=
  {| imageCache := imageCache w; contentBoundsCache := contentBoundsCache w;
     webpSupported := webpSupported w;
     imageLoadCallbacks := imageLoadCallbacks w;
     requested := requested w;
     notified := notified w ++ imageLoadCallbacks w;
     probes := probes w; scans := scans w |}.

(** ** Loader *)

(** The part of [checkWebPSupport] that runs when it is called: the stored
    answer when there is one, else a probe image is created and the promise
    stays pending ([None]) until that image loads or fails. *)
Definition checkWebPSupportCall (w : World) : option bool * World :=
  match webpSupported w with
  | Some b => (Some b, w)
  | None => (None, countProbe w)
  end.

(** [onload] or [onerror] of a probe image: the answer is stored now, and
    the promise resolves with it.  The probe never rejects: [onerror]
    resolves with [false]. *)
Definition probeSettled (net : Network) (w : World) : bool * World :=
  let b := match probeImage net with
           | Some (pw, ph) => (pw >? 0) && (ph >? 0)
           | None => false
           end in
  (b, setWebpSupported b w).

(** A call of [checkWebPSupport] run to its end, with nothing else running
    between the call and the event of its probe image. *)
Definition checkWebPSupport (net : Network) : Promise bool :=
  λ w, match checkWebPSupportCall w with
       | (Some b, w') => (Some b, w')
       | (None, w') =>
           let '(b, w'') := probeSettled net w' in (Some b, w'')
       end.

Definition loadImageDirect (net : Network) (src : string)
    : Promise HTMLImageElement :=
  λ w, let w := request src w in
       match fetch net src with
       | Some img =>
           (Some img, notifyImageLoaded (setImageCache (<[src := img]> (imageCache w)) w))
       | None => (None, w)
       end.

Definition loadImage (net : Network) (src : string)
    : Promise HTMLImageElement :=
  λ w,
    match imageCache w !! src with
    | Some img => (Some img, w)
    | None =>
        let webpPath := getWebPPath src in
        match webpPath with
        | Some path =>
            if truthy webpPath then
              (let* supportsWebP := checkWebPSupport net in
               if supportsWebP : bool then
                 tryAwait (loadImageDirect net path)
                   (λ img,
                      let* _ := effect (λ w, setImageCache (<[src := img]> (imageCache w)) w) in
                      resolve img)
                   (loadImageDirect net src)
               else loadImageDirect net src) w
            else loadImageDirect net src w
        | None => loadImageDirect net src w
        end
    end.

(** *** Loads that overlap

    [loadImage] above is a call run to its end.  A call really runs in
    pieces: it stops at each [await], and other calls run in between.  A
    call that has not settled is known by the point where it waits. *)
Inductive Pending :=
| AwaitProbe (src path : string)
| AwaitSupport (src path : string) (supportsWebP : bool)
| AwaitWebP (src path : string)
| GotWebP (src : string) (img : HTMLImageElement)
| WebPFailed (src : string)
| AwaitDirect (src : string)
| Settled (result : option HTMLImageElement).

(** The call itself, up to its first [await]: a cache hit settles it; for a
    [.png] source [checkWebPSupport] is called, and the call waits for the
    probe image, or for the promise of the stored answer; any other source
    goes to [loadImageDirect], which sets [img.src]. *)
Definition startLoadImage (src : string) (w : World) : Pending * World :=
  match imageCache w !! src with
  | Some img => (Settled (Some img), w)
  | None =>
      let webpPath := getWebPPath src in
      match webpPath with
      | Some path =>
          if truthy webpPath then
            match checkWebPSupportCall w with
            | (Some b, w') => (AwaitSupport src path b, w')
            | (None, w') => (AwaitProbe src path, w')
            end
          else (AwaitDirect src, request src w)
      | None => (AwaitDirect src, request src w)
      end
  end.

(** What a waiting call does when what it waits for happens, up to its
    next [await]: the probe image loads or fails; the answer is there and
    the WebP sibling or the source is requested; the sibling loads or
    fails; after it loaded the image is cached under the source too; after
    it failed the source is requested; the source loads or fails. *)
Definition resume (net : Network) (t : Pending) (w : World) : Pending * World :=
  match t with
  | AwaitProbe src path =>
      let '(b, w') := probeSettled net w in (AwaitSupport src path b, w')
  | AwaitSupport src path supportsWebP =>
      if supportsWebP then (AwaitWebP src path, request path w)
      else (AwaitDirect src, request src w)
  | AwaitWebP src path =>
      match fetch net path with
      | Some img =>
          (GotWebP src img,
           notifyImageLoaded (setImageCache (<[path := img]> (imageCache w)) w))
      | None => (WebPFailed src, w)
      end
  | GotWebP src img =>
      (Settled (Some img), setImageCache (<[src := img]> (imageCache w)) w)
  | WebPFailed src => (AwaitDirect src, request src w)
  | AwaitDirect src =>
      match fetch net src with
      | Some img =>
          (Settled (Some img),
           notifyImageLoaded (setImageCache (<[src := img]> (imageCache w)) w))
      | None => (Settled None, w)
      end
  | Settled result => (Settled result, w)
  end.

(** One call resumed [fuel] times in a row. *)
Fixpoint settle (net : Network) (fuel : nat) (t : Pending) (w : World)
    : Pending * World :=
  match fuel with
  | O => (t, w)
  | S fuel' => let '(t', w') := resume net t w in settle net fuel' t' w'
  end.

(** Calls that overlap: the pool of the calls made, and the events in
    their order, a call being made or what call number [task] waits for
    happening. *)
Inductive Event :=
| Start (src : string)
| Deliver (task : nat).

Definition step (net : Network) (st : list Pending * World) (e : Event)
    : list Pending * World :=
  match e with
  | Start src =>
      let '(t, w') := startLoadImage src st.2 in (st.1 ++ [t], w')
  | Deliver task =>
      match st.1 !! task with
      | Some t =>
          let '(t', w') := resume net t st.2 in (<[task := t']> st.1, w')
      | None => st
      end
  end.

Definition runEvents (net : Network) (events : list Event)
    (st : list Pending * World) : list Pending * World :=
  foldl (step net) st events.

Definition cacheKeyOf (src : string) (filtered : bool) : string :=
  if filtered then src +:+ "_filtered" else src.

Definition loadSpriteImage (net : Network) (cv : Canvas) (src : string)
    (applyFilter : bool) : Promise HTMLImageElement :=
  λ w,
    let cacheKey := cacheKeyOf src applyFilter in
    match imageCache w !! cacheKey with
    | Some img => (Some img, w)
    | None =>
        (let* img := loadImage net src in
         if applyFilter then
           match filterBackgroundColor cv img None with
           | Some filteredImg =>
               let* _ := effect (λ w, setImageCache (<[cacheKey := filteredImg]> (imageCache w)) w) in
               resolve filteredImg
           | None => reject
           end
         else resolve img) w
    end.

Definition isImageCached (src : string) (filtered : bool) (w : World) : bool :=
  bool_decide (is_Some (imageCache w !! cacheKeyOf src filtered)).

Definition getCachedImage (src : string) (filtered : bool) (w : World)
    : option HTMLImageElement :=
  imageCache w !! cacheKeyOf src filtered.

Definition clearImageCache (w : World) : World :=
  {| imageCache := ∅; contentBoundsCache := ∅;
     webpSupported := webpSupported w;
     imageLoadCallbacks := imageLoadCallbacks w;
     requested := requested w; notified := notified w;
     probes := probes w; scans := scans w |}.

Definition getContentBounds (cv : Canvas) (src : string)
    (img : HTMLImageElement) (w : World) : ContentBounds * World :=
  match contentBoundsCache w !! src with
  | Some bounds => (bounds, w)
  | None =>
      let bounds := analyzeContentBounds cv img in
      (bounds,
       setContentBoundsCache (<[src := bounds]> (contentBoundsCache w))
         (countScan w))
  end.

(** ** The exported operations, as calls on the module *)

Inductive Call :=
| CallOnImageLoaded (callback : nat)
| CallUnsubscribe (callback : nat)
| CallLoadImage (net : Network) (src : string)
| CallLoadSpriteImage (net : Network) (cv : Canvas) (src : string) (applyFilter : bool)
| CallClearImageCache
| CallGetContentBounds (cv : Canvas) (src : string) (img : HTMLImageElement).

Definition run (c : Call) (w : World) : World :=
  match c with
  | CallOnImageLoaded cb => onImageLoaded cb w
  | CallUnsubscribe cb => unsubscribe cb w
  | CallLoadImage net src => snd (loadImage net src w)
  | CallLoadSpriteImage net cv src applyFilter =>
      snd (loadSpriteImage net cv src applyFilter w)
  | CallClearImageCache => clearImageCache w
  | CallGetContentBounds cv src img => snd (getContentBounds cv src img w)
  end.

Definition isClear (c : Call) : bool :=
  match c with CallClearImageCache => true | _ => false end.

(** The sources that one call of [loadImage] hands to [loadImageDirect]:
    what it appends to the log of requests. *)
Definition attempted (net : Network) (src : string) (w : World) : list string :=
  drop (length (requested w)) (requested (loadImage net src w).2).

(** ** Sample inputs *)

Definition workingCanvas : Canvas :=
  {| context2d := true; originClean := true; encodes := true;
     premultiplied := true |}.

(** A 2 x 1 sprite: a pixel of the background colour, then a blue one. *)
Definition redAndBlue : HTMLImageElement :=
  {| width := 2; height := 1; data := [255; 0; 0; 255; 0; 0; 255; 200] |}.

(** An image without pixels, such as one that has not loaded. *)
Definition emptyImage : HTMLImageElement :=
  {| width := 0; height := 0; data := [] |}.

(** One opaque pixel at squared distance 3 from the background colour. *)
Definition nearRed : HTMLImageElement :=
  {| width := 1; height := 1; data := [254; 1; 1; 255] |}.

(** A single transparent pixel. *)
Definition transparentPixel : HTMLImageElement :=
  {| width := 1; height := 1; data := [0; 0; 0; 0] |}.

(** A 3 x 2 sprite whose only content is the last two pixels of row 1. *)
Definition offCentre : HTMLImageElement :=
  {| width := 3; height := 2;
     data := [0; 0; 0; 0;  0; 0; 0; 10;  0; 0; 0; 0;
              0; 0; 0; 0;  9; 9; 9; 11;  7; 7; 7; 255] |}.

(** A server that has [a.png] but no [a.webp], seen from a browser that
    decodes WebP. *)
Definition pngOnly : Network :=
  {| fetch := λ src, if String.eqb src "a.png" then Some redAndBlue else None;
     probeImage := Some (1, 1) |}.

(** A server that has both variants. *)
Definition bothVariants : Network :=
  {| fetch := λ src,
       if String.eqb src "a.webp" then Some offCentre
       else if String.eqb src "a.png" then Some redAndBlue else None;
     probeImage := Some (1, 1) |}.

(** A server that has two sprites as PNG only. *)
Definition twoSprites : Network :=
  {| fetch := λ src,
       if String.eqb src "a.png" then Some redAndBlue
       else if String.eqb src "b.png" then Some offCentre else None;
     probeImage := Some (1, 1) |}.

(** Two loads made one after the other before anything else happens, as
    [preloadCustomBuildingImages] makes them for two buildings, and then
    what they wait for until both have settled: for each call its probe
    image loads and the call goes on to request the WebP sibling; each
    sibling fails and the call goes on to request the source; each source
    loads. *)
Definition twoLoadsAtOnce : list Event :=
  [Start "a.png"; Start "b.png";
   Deliver 0%nat; Deliver 0%nat; Deliver 1%nat; Deliver 1%nat;
   Deliver 0%nat; Deliver 0%nat; Deliver 1%nat; Deliver 1%nat;
   Deliver 0%nat; Deliver 1%nat].

(** No server at all, and a browser without WebP. *)
Definition offline : Network :=
  {| fetch := λ _, None; probeImage := None |}.

(** The alternate that [loadImage] tries before the original, if any: the
    WebP sibling of a [.png] source, in a browser found to decode WebP. *)
Definition alternateTried (net : Network) (src : string) (w : World)
    : option string :=
  match getWebPPath src with
  | Some path =>
      match webpSupported (checkWebPSupport net w).2 with
      | Some true => Some path
      | _ => None
      end
  | None => None
  end.

(** * JavaScript values *)

(** A number: NaN, an infinity, or a finite value. *)
Inductive JSNumber :=
| NaN
| NegInfinity
| Finite (q : Q)
| Infinity.

(** A value produced by [JSON.parse]; an object is the list of its
    properties, each key once.  [JSON.parse] gives no NaN, and gives an
    infinity for a literal beyond every double. *)
#[local] Unset Elimination Schemes.
Inductive JSON :=
| JNull
| JBool (b : bool)
| JNumber (x : JSNumber)
| JString (s : string)
| JArray (items : list JSON)
| JObject (properties : list (string * JSON)).
#[local] Set Elimination Schemes.

(** [obj.key]: [None] is [undefined]. *)
Fixpoint property (key : string) (properties : list (string * JSON))
    : option JSON :=
  match properties with
  | [] => None
  | (k, v) :: rest => if String.eqb k key then Some v else property key rest
  end.

(** The values that count as true in a condition: all but [null], [false],
    zero, NaN and the empty string. *)
Definition truthyValue (v : JSON) : bool :=
  match v with
  | JNull => false
  | JBool b => b
  | JNumber NaN => false
  | JNumber (Finite q) => negb (Qeq_bool q 0)
  | JNumber _ => true
  | JString s => negb (String.eqb s "")
  | JArray _ | JObject _ => true
  end.

(** [v || fallback] on a value that may be [undefined]. *)
Definition orValue (v : option JSON) (fallback : JSON) : JSON :=
  match v with
  | Some v => if truthyValue v then v else fallback
  | None => fallback
  end.

(** A value after [JSON.stringify] and [JSON.parse], which is how it
    reaches the reader of a JSON text: a number that is not finite has
    become [null], also inside arrays and objects. *)
Fixpoint stringified (v : JSON) : JSON :=
  match v with
  | JNumber (Finite q) => JNumber (Finite q)
  | JNumber _ => JNull
  | JArray items => JArray (map stringified items)
  | JObject properties =>
      JObject (map (λ kv, (kv.1, stringified kv.2)) properties)
  | _ => v
  end.

(** A number likewise: [None] is [null]. *)
Definition stringifiedNumber (x : JSNumber) : option Q :=
  match x with
  | Finite q => Some q
  | _ => None
  end.

(** Induction on values, through arrays and objects. *)
Fixpoint JSON_induction (P : JSON → Prop)
    (HNull : P JNull) (HBool : ∀ b, P (JBool b))
    (HNumber : ∀ x, P (JNumber x)) (HString : ∀ s, P (JString s))
    (HArray : ∀ items, Forall P items → P (JArray items))
    (HObject : ∀ properties,
        Forall (λ kv, P kv.2) properties → P (JObject properties))
    (v : JSON) {struct v} : P v :=
  let recur := JSON_induction P HNull HBool HNumber HString HArray HObject in
  match v with
  | JNull => HNull
  | JBool b => HBool b
  | JNumber x => HNumber x
  | JString s => HString s
  | JArray items =>
      HArray items
        ((fix each (l : list JSON) : Forall P l :=
            match l with
            | [] => Forall_nil_2 P
            | x :: l' => Forall_cons_2 P x l' (recur x) (each l')
            end) items)
  | JObject properties =>
      HObject properties
        ((fix each (l : list (string * JSON)) : Forall (λ kv, P kv.2) l :=
            match l with
            | [] => Forall_nil_2 (λ kv, P kv.2)
            | kv :: l' =>
                Forall_cons_2 (λ kv, P kv.2) kv l' (recur kv.2) (each l')
            end) properties)
  end.

(** * The generation endpoint ([POST] of the API route) *)

Module GenerateBuilding.

Definition VALID_ASPECT_RATIOS : list string :=
  ["21:9"; "16:9"; "3:2"; "4:3"; "5:4"; "1:1"; "4:5"; "3:4"; "2:3"; "9:16"].

(** [VALID_ASPECT_RATIOS.includes(raw) ? raw : "4:5"]. *)
Definition validated (raw : string) : string :=
  if bool_decide (raw ∈ VALID_ASPECT_RATIOS) then raw else "4:5".

(** [s || fallback] on a string that may be [undefined]. *)
Definition orString (s : option string) (fallback : string) : string :=
  match s with
  | Some s => if String.eqb s "" then fallback else s
  | None => fallback
  end.

(** *** Numbers *)

(** [Math.round]: the nearest integer, a half rounding up. *)
Definition Math_round (x : JSNumber) : JSNumber :=
  match x with
  | Finite q => Finite (inject_Z (Qfloor (q + (1 # 2))))
  | _ => x
  end.

Definition Math_max (x y : JSNumber) : JSNumber :=
  match x, y with
  | NaN, _ | _, NaN => NaN
  | Infinity, _ | _, Infinity => Infinity
  | NegInfinity, z | z, NegInfinity => z
  | Finite a, Finite b => if Qle_bool a b then Finite b else Finite a
  end.

Definition Math_min (x y : JSNumber) : JSNumber :=
  match x, y with
  | NaN, _ | _, NaN => NaN
  | NegInfinity, _ | _, NegInfinity => NegInfinity
  | Infinity, z | z, Infinity => z
  | Finite a, Finite b => if Qle_bool a b then Finite a else Finite b
  end.

(** [x || fallback] on numbers: NaN and zero are falsy. *)
Definition orNumber (x fallback : JSNumber) : JSNumber :=
  match x with
  | NaN => fallback
  | Finite q => if Qeq_bool q 0 then fallback else x
  | _ => x
  end.

(** *** Attributes *)

(** The answer of the vision model once parsed, as the validation reads it:
    [category] is [None] when it is no string (no string is among the
    categories), a numeric field is the number that [Math.round] converts
    it to (NaN when the field is missing), and [suggestedName] is the value
    itself, [None] when it is missing. *)
Record RawAttributes := mkRawAttributes {
  rawCategory : option string;
  rawSize : JSNumber;
  rawMaxPop : JSNumber;
  rawMaxJobs : JSNumber;
  rawPollution : JSNumber;
  rawLandValue : JSNumber;
  rawSuggestedCost : JSNumber;
  rawSuggestedName : option JSON
}.

Record BuildingAttributes := mkBuildingAttributes {
  category : string;
  size : JSNumber;
  maxPop : JSNumber;
  maxJobs : JSNumber;
  pollution : JSNumber;
  landValue : JSNumber;
  suggestedCost : JSNumber;
  suggestedName : JSON
}.

Definition CATEGORIES : list string :=
  ["residential"; "commercial"; "industrial"; "service"; "recreation"].

(** The object literal [validatedAttributes]. *)
Definition validatedAttributes (attributes : RawAttributes) : BuildingAttributes :=
  {| category :=
       match rawCategory attributes with
       | Some c => if bool_decide (c ∈ CATEGORIES) then c else "commercial"
       | None => "commercial"
       end;
     size :=
       Math_min (Finite 4)
         (Math_max (Finite 1)
            (orNumber (Math_round (rawSize attributes)) (Finite 1)));
     maxPop :=
       Math_max (Finite 0)
         (orNumber (Math_round (rawMaxPop attributes)) (Finite 0));
     maxJobs :=
       Math_max (Finite 0)
         (orNumber (Math_round (rawMaxJobs attributes)) (Finite 0));
     pollution :=
       Math_min (Finite 55)
         (Math_max (Finite (-25))
            (orNumber (Math_round (rawPollution attributes)) (Finite 0)));
     landValue :=
       Math_min (Finite 80)
         (Math_max (Finite (-20))
            (orNumber (Math_round (rawLandValue attributes)) (Finite 10)));
     suggestedCost :=
       Math_max (Finite 100)
         (orNumber (Math_round (rawSuggestedCost attributes)) (Finite 500));
     suggestedName :=
       orValue (rawSuggestedName attributes) (JString "Custom Building") |}.

(** *** The attributes in the answer

    The handler hands the validated object to [NextResponse.json], which
    writes it with [JSON.stringify]: what the client reads is the object
    below, in which a number that was not finite is [null] ([None]). *)
Record AttributesJSON := mkAttributesJSON {
  jsonCategory : string;
  jsonSize : option Q;
  jsonMaxPop : option Q;
  jsonMaxJobs : option Q;
  jsonPollution : option Q;
  jsonLandValue : option Q;
  jsonSuggestedCost : option Q;
  jsonSuggestedName : JSON
}.

Definition stringifiedAttributes (a : BuildingAttributes) : AttributesJSON :=
  {| jsonCategory := category a;
     jsonSize := stringifiedNumber (size a);
     jsonMaxPop := stringifiedNumber (maxPop a);
     jsonMaxJobs := stringifiedNumber (maxJobs a);
     jsonPollution := stringifiedNumber (pollution a);
     jsonLandValue := stringifiedNumber (landValue a);
     jsonSuggestedCost := stringifiedNumber (suggestedCost a);
     jsonSuggestedName := stringified (suggestedName a) |}.

(** The attributes of an answer as the validation reads them when they come
    back as the answer of a model: [Math.round] takes a number as it is and
    [null] as 0. *)
Definition roundable (x : option Q) : JSNumber :=
  match x with
  | Some q => Finite q
  | None => Finite 0
  end.

Definition asRaw (a : AttributesJSON) : RawAttributes :=
  {| rawCategory := Some (jsonCategory a);
     rawSize := roundable (jsonSize a);
     rawMaxPop := roundable (jsonMaxPop a);
     rawMaxJobs := roundable (jsonMaxJobs a);
     rawPollution := roundable (jsonPollution a);
     rawLandValue := roundable (jsonLandValue a);
     rawSuggestedCost := roundable (jsonSuggestedCost a);
     rawSuggestedName := Some (jsonSuggestedName a) |}.

(** The ranges of validated attributes. *)
Definition inRange (a : BuildingAttributes) : Prop :=
  category a ∈ CATEGORIES ∧
  (∃ z, size a = Finite (inject_Z z) ∧ 1 <= z <= 4) ∧
  (maxPop a = Infinity ∨ ∃ z, maxPop a = Finite (inject_Z z) ∧ 0 <= z) ∧
  (maxJobs a = Infinity ∨ ∃ z, maxJobs a = Finite (inject_Z z) ∧ 0 <= z) ∧
  (∃ z, pollution a = Finite (inject_Z z) ∧ -25 <= z <= 55) ∧
  (∃ z, landValue a = Finite (inject_Z z) ∧ -20 <= z <= 80 ∧ z ≠ 0) ∧
  (suggestedCost a = Infinity ∨
   ∃ z, suggestedCost a = Finite (inject_Z z) ∧ 100 <= z) ∧
  truthyValue (suggestedName a) = true.

(** Validated attributes that [JSON.stringify] writes without loss: no
    number is infinite and the name holds none. *)
Definition lossless (a : BuildingAttributes) : Prop :=
  maxPop a ≠ Infinity ∧ maxJobs a ≠ Infinity ∧ suggestedCost a ≠ Infinity ∧
  stringified (suggestedName a) = suggestedName a.

(** A rounded number with its fallback: never NaN, and when finite an
    integer that is the fallback or is not zero. *)
Inductive Rounded (fallback : Z) : JSNumber → Prop :=
| RoundedNeg : Rounded fallback NegInfinity
| RoundedPos : Rounded fallback Infinity
| RoundedInt z : z = fallback ∨ z ≠ 0 → Rounded fallback (Finite (inject_Z z)).

(** *** Markdown fences *)

Definition newline : string := String (Ascii.ascii_of_nat 10) EmptyString.
Definition fence : string := "```".

(** [Some rest] when [s] is [p] followed by [rest]. *)
Fixpoint stripPrefix (p s : string) : option string :=
  match p, s with
  | EmptyString, _ => Some s
  | String a p', String b s' =>
      if Ascii.eqb a b then stripPrefix p' s' else None
  | String _ _, EmptyString => None
  end.

(** [Some base] when [s] is [base] followed by [p]. *)
Fixpoint stripSuffix (p s : string) : option string :=
  if String.eqb s p then Some EmptyString
  else
    match s with
    | EmptyString => None
    | String c s' => String c <$> stripSuffix p s'
    end.

(** An optional group at the start of a pattern. *)
Definition dropOptional (p s : string) : string :=
  default s (stripPrefix p s).

(** The [if (jsonStr.startsWith(fence))] block: the first replacement removes
    the opening fence, then ["json"] if it follows, then a line break if it
    follows; the second removes a closing fence that ends the text, with
    the line break before it if there is one. *)
Definition stripCodeFence (jsonStr : string) : string :=
  match stripPrefix fence jsonStr with
  | None => jsonStr
  | Some rest =>
      let opened := dropOptional newline (dropOptional "json" rest) in
      match stripSuffix (newline +:+ fence) opened with
      | Some body => body
      | None => default opened (stripSuffix fence opened)
      end
  end.

(** *** The handler *)

(** The outcome of an awaited call: its value, or the exception it threw;
    the message is [None] when what was thrown is no [Error]. *)
Inductive Attempt (A : Type) :=
| Returns (a : A)
| Throws (message : option string).
Arguments Returns {A} a.
Arguments Throws {A} message.

(** The fields that the handler reads from a request body that is not
    [null]; a field is [None] when it is missing or is no string, and a
    body that is a number, a string or an array has none of them. *)
Record Body := mkBody {
  bodyStep : option string;
  bodyPrompt : option string;
  bodyAspectRatio : option string;
  bodyImageUrl : option string
}.

(** The models behind [fal.subscribe], by the user's input: [router] gives
    [result.data?.output] for a prompt, [nanoBanana] the URLs of
    [genResult.data?.images] for a prompt and an aspect ratio, [removeBackground]
    the URL of [bgRemoveResult.data?.image] for an image URL, and [vision]
    [result.data?.output] for an image URL. *)
Record Fal := mkFal {
  router : string → Attempt (option string);
  nanoBanana : string → string → Attempt (option (list string));
  removeBackground : string → Attempt (option string);
  vision : string → Attempt (option string)
}.

(** An answer as the client gets it: the status, and the members of the
    JSON body. *)
Record Response := mkResponse {
  status : nat;
  success : bool;
  aspectRatio : option string;
  imageUrl : option string;
  attributes : option AttributesJSON;
  error : option string;
  raw : option string
}.

Definition failure (code : nat) (message : string) : Response :=
  {| status := code; success := false; aspectRatio := None; imageUrl := None;
     attributes := None; error := Some message; raw := None |}.

(** The outer [catch]. *)
Definition caught (message : option string) : Response :=
  failure 500 (default "Unknown error occurred" message).

(** [!prompt || typeof prompt !== 'string'] and the like. *)
Definition nonEmpty (s : option string) : option string :=
  match s with
  | Some s => if String.eqb s "" then None else Some s
  | None => None
  end.

(** [step === name]. *)
Definition isStep (body : Body) (name : string) : bool :=
  match bodyStep body with
  | Some step => String.eqb step name
  | None => false
  end.

Section Handler.
(** [String.prototype.trim], and [JSON.parse] followed by the reading of the
    fields: [None] when parsing throws. *)
Variable trim : string → string.
Variable parseAttributes : string → option RawAttributes.

Definition getAspectRatio (fal : Fal) (body : Body) : Response :=
  match nonEmpty (bodyPrompt body) with
  | None => failure 400 "Prompt is required"
  | Some prompt =>
      match router fal prompt with
      | Throws message => caught message
      | Returns output =>
          let rawRatio := orString (trim <$> output) "4:5" in
          {| status := 200; success := true;
             aspectRatio := Some (validated rawRatio); imageUrl := None;
             attributes := None; error := None; raw := None |}
      end
  end.

Definition generate (fal : Fal) (body : Body) : Response :=
  let rawAspectRatio := default "4:5" (bodyAspectRatio body) in
  match nonEmpty (bodyPrompt body) with
  | None => failure 400 "Prompt is required"
  | Some prompt =>
      let aspectRatio := validated rawAspectRatio in
      match nanoBanana fal prompt aspectRatio with
      | Throws message => caught message
      | Returns images =>
          match images with
          | None | Some [] => failure 500 "No image generated"
          | Some (generatedImageUrl :: _) =>
              match removeBackground fal generatedImageUrl with
              | Throws message => caught message
              | Returns bgRemovedImage =>
                  {| status := 200; success := true; aspectRatio := None;
                     imageUrl :=
                       Some (default generatedImageUrl (nonEmpty bgRemovedImage));
                     attributes := None; error := None; raw := None |}
              end
          end
      end
  end.

Definition analyze (fal : Fal) (body : Body) : Response :=
  match nonEmpty (bodyImageUrl body) with
  | None => failure 400 "Image URL is required"
  | Some imageUrl =>
      match vision fal imageUrl with
      | Throws message => caught message
      | Returns output =>
          match nonEmpty output with
          | None => failure 500 "No analysis output"
          | Some output =>
              let jsonStr := stripCodeFence (trim output) in
              match parseAttributes jsonStr with
              | Some attributes =>
                  {| status := 200; success := true; aspectRatio := None;
                     imageUrl := None;
                     attributes :=
                       Some (stringifiedAttributes
                               (validatedAttributes attributes));
                     error := None; raw := None |}
              | None =>
                  {| status := 500; success := false; aspectRatio := None;
                     imageUrl := None; attributes := None;
                     error := Some "Failed to parse building attributes from AI response";
                     raw := Some output |}
              end
          end
      end
  end.

(** A request whose body is [null]: [const { step } = body] throws a
    TypeError, with a message that is the engine's. *)
Definition nullBody (typeError : string) : Attempt Body :=
  Throws (Some typeError).

(** [request] is the outcome of [await request.json()] and of reading
    [step] from the body: [Throws] when the text is no JSON and when the
    body is [null], [Returns] with the fields of any other body. *)
Definition POST (fal : Fal) (request : Attempt Body) : Response :=
  match request with
  | Throws message => caught message
  | Returns body =>
      if isStep body "get-aspect-ratio" then getAspectRatio fal body
      else if isStep body "generate" then generate fal body
      else if isStep body "analyze" then analyze fal body
      else
        failure 400
          "Invalid step. Use 'get-aspect-ratio', 'generate', or 'analyze'"
  end.
End Handler.

End GenerateBuilding.

(** *** Sample inputs for the endpoint *)

(** An answer of the vision model with an unknown category, a size of 3.5,
    no population, negative jobs, a pollution of -40, a land value of 0.2,
    a cost beyond every double and an empty name. *)
Definition looseAnswer : GenerateBuilding.RawAttributes :=
  {| GenerateBuilding.rawCategory := Some "park";
     GenerateBuilding.rawSize := Finite (7 # 2);
     GenerateBuilding.rawMaxPop := NaN;
     GenerateBuilding.rawMaxJobs := Finite (-3);
     GenerateBuilding.rawPollution := Finite (-40);
     GenerateBuilding.rawLandValue := Finite (1 # 5);
     GenerateBuilding.rawSuggestedCost := Infinity;
     GenerateBuilding.rawSuggestedName := Some (JString "") |}.

(** Models that always answer. *)
Definition answeringFal : GenerateBuilding.Fal :=
  {| GenerateBuilding.router := λ _, GenerateBuilding.Returns (Some "16:9");
     GenerateBuilding.nanoBanana :=
       λ _ _, GenerateBuilding.Returns (Some ["https://cdn/raw.png"]);
     GenerateBuilding.removeBackground :=
       λ _, GenerateBuilding.Returns (Some "https://cdn/cut.png");
     GenerateBuilding.vision := λ _, GenerateBuilding.Returns (Some "{}") |}.

(** The same models, with an image model that throws for every aspect ratio
    that is not valid. *)
Definition strictFal : GenerateBuilding.Fal :=
  {| GenerateBuilding.router := GenerateBuilding.router answeringFal;
     GenerateBuilding.nanoBanana :=
       λ prompt ratio,
         if bool_decide (ratio ∈ GenerateBuilding.VALID_ASPECT_RATIOS)
         then GenerateBuilding.Returns (Some ["https://cdn/raw.png"])
         else GenerateBuilding.Throws (Some "bad aspect_ratio");
     GenerateBuilding.removeBackground :=
       GenerateBuilding.removeBackground answeringFal;
     GenerateBuilding.vision := GenerateBuilding.vision answeringFal |}.

Definition noTrim (s : string) : string := s.

Definition parseLoose (s : string) : option GenerateBuilding.RawAttributes :=
  Some looseAnswer.

Definition requestFor (step : string) (ratio : option string)
    : GenerateBuilding.Attempt GenerateBuilding.Body :=
  GenerateBuilding.Returns
    {| GenerateBuilding.bodyStep := Some step;
       GenerateBuilding.bodyPrompt := Some "a lighthouse";
       GenerateBuilding.bodyAspectRatio := ratio;
       GenerateBuilding.bodyImageUrl := Some "https://cdn/cut.png" |}.

(** * The store of custom buildings ([CustomBuildingsContext]) *)

Module CustomBuildings.

Record Stats := mkStats {
  maxPop : Z;
  maxJobs : Z;
  pollution : Z;
  landValue : Z
}.

Record CustomBuilding := mkCustomBuilding {
  id : string;
  name : string;
  description : string;
  category : string;
  size : Z;
  spriteUrl : string;
  stats : Stats;
  cost : Z;
  createdAt : Z
}.

(** The two pieces of React state of the provider. *)
Record Provider := mkProvider {
  customBuildings : list CustomBuilding;
  selectedCustomBuildingId : option string
}.

(** [l.findIndex(p)]: [None] is the -1 of the source. *)
Fixpoint findIndex (p : CustomBuilding → bool) (l : list CustomBuilding)
    : option nat :=
  match l with
  | [] => None
  | b :: l' => if p b then Some 0%nat else S <$> findIndex p l'
  end.

(** [l.find(p)]: [None] is [undefined]. *)
Fixpoint find (p : CustomBuilding → bool) (l : list CustomBuilding)
    : option CustomBuilding :=
  match l with
  | [] => None
  | b :: l' => if p b then Some b else find p l'
  end.

Definition hasId (target : string) (b : CustomBuilding) : bool :=
  String.eqb (id b) target.

(** The updater that [addCustomBuilding] passes to [setCustomBuildings]. *)
Definition added (building : CustomBuilding) (prev : list CustomBuilding)
    : list CustomBuilding :=
  match findIndex (hasId (id building)) prev with
  | Some existingIndex => <[existingIndex := building]> prev
  | None => prev ++ [building]
  end.

(** The updater of [removeCustomBuilding]. *)
Definition removed (target : string) (prev : list CustomBuilding)
    : list CustomBuilding :=
  List.filter (λ b, negb (hasId target b)) prev.

(** [loadImage(url).catch(...)], when the URL is not empty: the rejection
    is swallowed, the effects on the image module stay. *)
Definition preload (net : Network) (url : string) (w : World) : World :=
  if String.eqb url "" then w else (loadImage net url w).2.

(** The source starts the loads of all buildings together and does not
    wait for them; here each load runs to its end before the next one
    starts, and the world returned is the one after the last. *)
Definition preloadCustomBuildingImages (net : Network)
    (buildings : list CustomBuilding) (w : World) : World :=
  foldl (λ w building, preload net (spriteUrl building) w) w buildings.

(** The new state of the provider, and the image module once the preload
    that the call starts has ended. *)
Definition addCustomBuilding (net : Network) (building : CustomBuilding)
    (p : Provider) (w : World) : Provider * World :=
  ({| customBuildings := added building (customBuildings p);
      selectedCustomBuildingId := selectedCustomBuildingId p |},
   preload net (spriteUrl building) w).

Definition removeCustomBuilding (target : string) (p : Provider) : Provider :=
  {| customBuildings := removed target (customBuildings p);
     selectedCustomBuildingId :=
       match selectedCustomBuildingId p with
       | Some selected => if String.eqb selected target then None else Some selected
       | None => None
       end |}.

Definition selectCustomBuilding (target : option string) (p : Provider)
    : Provider :=
  {| customBuildings := customBuildings p;
     selectedCustomBuildingId := target |}.

Definition getCustomBuilding (target : string) (p : Provider)
    : option CustomBuilding :=
  find (hasId target) (customBuildings p).

Definition clearSelection (p : Provider) : Provider :=
  {| customBuildings := customBuildings p; selectedCustomBuildingId := None |}.

Definition isCustomBuildingMode (p : Provider) : bool :=
  match selectedCustomBuildingId p with Some _ => true | None => false end.

(** The selection names a building of the list, or nothing. *)
Definition selectionExists (p : Provider) : Prop :=
  match selectedCustomBuildingId p with
  | Some selected => is_Some (getCustomBuilding selected p)
  | None => True
  end.

(** *** Stored buildings *)

Definition isString (v : option JSON) : bool :=
  match v with Some (JString _) => true | _ => false end.

Definition isNumber (v : option JSON) : bool :=
  match v with Some (JNumber _) => true | _ => false end.

(** [typeof v === 'object' && v !== null]. *)
Definition isObject (v : option JSON) : bool :=
  match v with Some (JObject _) | Some (JArray _) => true | _ => false end.

(** [typeof v === 'number' && v >= 1 && v <= 4]. *)
Definition isSize (v : option JSON) : bool :=
  match v with
  | Some (JNumber (Finite q)) => Qle_bool 1 q && Qle_bool q 4
  | _ => false
  end.

(** The falsy values, the values that are no object, and arrays, which have
    none of the properties asked for, are not buildings. *)
Definition isValidCustomBuilding (b : JSON) : bool :=
  match b with
  | JObject obj =>
      isString (property "id" obj) &&
      isString (property "name" obj) &&
      isString (property "spriteUrl" obj) &&
      isSize (property "size" obj) &&
      isNumber (property "cost" obj) &&
      isObject (property "stats" obj)
  | _ => false
  end.

(** The browser around the provider: [hasWindow] is false on the server,
    [blocked] makes every access to [localStorage] throw, [item] is what
    [localStorage] holds under the storage key, and [quotaExceeded] makes
    [localStorage.setItem] throw. *)
Record Storage := mkStorage {
  hasWindow : bool;
  blocked : bool;
  item : option string;
  quotaExceeded : bool
}.

Section Persistence.
(** [JSON.parse], [None] when it throws, and [JSON.stringify]. *)
Variable parse : string → option JSON.
Variable stringify : list JSON → string.

Definition loadCustomBuildings (st : Storage) : list JSON :=
  if negb (hasWindow st) then []
  else if blocked st then []
  else
    match item st with
    | Some saved =>
        if String.eqb saved "" then []
        else
          match parse saved with
          | Some (JArray parsed) => List.filter isValidCustomBuilding parsed
          | _ => []
          end
    | None => []
    end.

Definition saveCustomBuildings (buildings : list JSON) (st : Storage) : Storage :=
  if negb (hasWindow st) then st
  else if blocked st || quotaExceeded st then st
  else {| hasWindow := hasWindow st; blocked := blocked st;
          item := Some (stringify buildings);
          quotaExceeded := quotaExceeded st |}.
End Persistence.

End CustomBuildings.

(** *** Sample inputs for the store *)

Definition cafe : CustomBuildings.CustomBuilding :=
  {| CustomBuildings.id := "custom_1"; CustomBuildings.name := "Corner Cafe";
     CustomBuildings.description := "A cozy coffee shop";
     CustomBuildings.category := "commercial"; CustomBuildings.size := 1;
     CustomBuildings.spriteUrl := "a.png";
     CustomBuildings.stats :=
       {| CustomBuildings.maxPop := 0; CustomBuildings.maxJobs := 12;
          CustomBuildings.pollution := 0; CustomBuildings.landValue := 10 |};
     CustomBuildings.cost := 500; CustomBuildings.createdAt := 1 |}.

Definition tower : CustomBuildings.CustomBuilding :=
  {| CustomBuildings.id := "custom_2"; CustomBuildings.name := "Glass Tower";
     CustomBuildings.description := "A sleek office building";
     CustomBuildings.category := "commercial"; CustomBuildings.size := 3;
     CustomBuildings.spriteUrl := "missing.png";
     CustomBuildings.stats :=
       {| CustomBuildings.maxPop := 0; CustomBuildings.maxJobs := 150;
          CustomBuildings.pollution := 5; CustomBuildings.landValue := 30 |};
     CustomBuildings.cost := 9000; CustomBuildings.createdAt := 2 |}.

(** The two buildings, the tower selected. *)
Definition twoBuildings : CustomBuildings.Provider :=
  {| CustomBuildings.customBuildings := [cafe; tower];
     CustomBuildings.selectedCustomBuildingId := Some "custom_2" |}.

(** A stored entry that is a building, and one whose size is 7. *)
Definition storedCafe : JSON :=
  JObject
    [("id", JString "custom_1");
     ("name", JString "Corner Cafe");
     ("spriteUrl", JString "a.png");
     ("size", JNumber (Finite 1));
     ("cost", JNumber (Finite 500));
     ("stats", JObject [])].

Definition storedOversized : JSON :=
  JObject
    [("id", JString "custom_9");
     ("name", JString "Colossus");
     ("spriteUrl", JString "c.png");
     ("size", JNumber (Finite 7));
     ("cost", JNumber (Finite 500));
     ("stats", JObject [])].

Definition browserWith (text : string) : CustomBuildings.Storage :=
  {| CustomBuildings.hasWindow := true; CustomBuildings.blocked := false;
     CustomBuildings.item := Some text;
     CustomBuildings.quotaExceeded := false |}.

(** A parser that knows one text. *)
Definition parseStored (text : string) : option JSON :=
  if String.eqb text "stored"
  then Some (JArray
               [storedCafe; JNull; storedOversized; storedCafe])
  else None.

(** * The generation hook ([useCustomBuildingGenerator]) *)

Module Generator.

Inductive GenerationStep := Idle | Generating | Complete | Failed.

Record CustomBuildingResult := mkResult {
  imageUrl : string;
  prompt : string;
  attributes : GenerateBuilding.AttributesJSON
}.

(** The three pieces of React state of the hook; [Failed] is the step
    ['error'] of the source. *)
Record State := mkState {
  step : GenerationStep;
  result : option CustomBuildingResult;
  error : option string
}.

Definition initial : State :=
  {| step := Idle; result := None; error := None |}.

(** What [fetch] resolves with: [json] is the outcome of
    [response.json()], read at the type of the endpoint's answers. *)
Record Reply := mkReply {
  ok : bool;
  status : nat;
  json : GenerateBuilding.Attempt GenerateBuilding.Response
}.

(** The state after the [catch] block: the result was reset before the
    first request. *)
Definition failed (message : string) : State :=
  {| step := Failed; result := None; error := Some message |}.

(** [err instanceof Error ? err.message : 'An unknown error occurred']. *)
Definition thrown (message : option string) : State :=
  failed (default "An unknown error occurred" message).

(** [errorData.error || fallback], where [errorData] is [{}] when the body
    is no JSON. *)
Definition errorOf (reply : Reply) (fallback : string) : string :=
  match json reply with
  | GenerateBuilding.Returns errorData =>
      GenerateBuilding.orString (GenerateBuilding.error errorData) fallback
  | GenerateBuilding.Throws _ => fallback
  end.

Definition request (name : string) (text ratio url : option string)
    : GenerateBuilding.Body :=
  {| GenerateBuilding.bodyStep := Some name;
     GenerateBuilding.bodyPrompt := text;
     GenerateBuilding.bodyAspectRatio := ratio;
     GenerateBuilding.bodyImageUrl := url |}.

Section Hook.
(** [String.prototype.trim]; [fetch('/api/generate-building', ...)] by the
    body posted, which throws when the request cannot be made; and the
    preloading of the generated image, [true] when [onload] fires. *)
Variable trim : string → string.
Variable api : GenerateBuilding.Body → GenerateBuilding.Attempt Reply.
Variable imageLoads : string → bool.

(** One awaited request and the reading of its JSON body: the data, or the
    state in which the [catch] block leaves the hook. *)
Definition post (body : GenerateBuilding.Body) (what : string)
    : State + GenerateBuilding.Response :=
  match api body with
  | GenerateBuilding.Throws message => inl (thrown message)
  | GenerateBuilding.Returns reply =>
      if negb (ok reply)
      then inl (failed (errorOf reply
                          (what +:+ " failed (" +:+ pretty (status reply) +:+ ")")))
      else
        match json reply with
        | GenerateBuilding.Throws message => inl (thrown message)
        | GenerateBuilding.Returns data => inr data
        end
  end.

(** [generate]: the state it ends in, and the bodies it posted, in order. *)
Definition generate (text : string) (st : State)
    : State * list GenerateBuilding.Body :=
  if String.eqb (trim text) "" then
    ({| step := Failed; result := result st;
        error := Some "Please enter a building description" |}, [])
  else
    let first := request "get-aspect-ratio" (Some (trim text)) None None in
    match post first "Aspect ratio selection" with
    | inl st' => (st', [first])
    | inr aspectData =>
        let aspectRatio :=
          GenerateBuilding.orString (GenerateBuilding.aspectRatio aspectData) "4:5" in
        let second := request "generate" (Some (trim text)) (Some aspectRatio) None in
        match post second "Image generation" with
        | inl st' => (st', [first; second])
        | inr genData =>
            match GenerateBuilding.success genData,
                  GenerateBuilding.nonEmpty (GenerateBuilding.imageUrl genData) with
            | true, Some url =>
                let third := request "analyze" None None (Some url) in
                match post third "Analysis" with
                | inl st' => (st', [first; second; third])
                | inr analyzeData =>
                    match GenerateBuilding.success analyzeData,
                          GenerateBuilding.attributes analyzeData with
                    | true, Some attrs =>
                        if imageLoads url then
                          ({| step := Complete;
                              result := Some {| imageUrl := url;
                                                prompt := trim text;
                                                attributes := attrs |};
                              error := None |},
                           [first; second; third])
                        else
                          (failed "Failed to load generated image",
                           [first; second; third])
                    | _, _ =>
                        (failed (GenerateBuilding.orString
                                   (GenerateBuilding.error analyzeData)
                                   "Analysis failed - no attributes returned"),
                         [first; second; third])
                    end
                end
            | _, _ =>
                (failed (GenerateBuilding.orString
                           (GenerateBuilding.error genData)
                           "Image generation failed - no image URL returned"),
                 [first; second])
            end
        end
    end.

Definition reset (st : State) : State := initial.
End Hook.

(** The endpoint of this repository as the server behind [fetch]: [ok] is
    true for a status from 200 to 299. *)
Definition endpoint (trim : string → string)
    (parseAttributes : string → option GenerateBuilding.RawAttributes)
    (fal : GenerateBuilding.Fal) (body : GenerateBuilding.Body)
    : GenerateBuilding.Attempt Reply :=
  let answer :=
    GenerateBuilding.POST trim parseAttributes fal (GenerateBuilding.Returns body) in
  GenerateBuilding.Returns
    {| ok := ((200 <=? GenerateBuilding.status answer)
              && (GenerateBuilding.status answer <=? 299))%nat;
       status := GenerateBuilding.status answer;
       json := GenerateBuilding.Returns answer |}.

End Generator.

(** A server that is down. *)
Definition unreachable (body : GenerateBuilding.Body)
    : GenerateBuilding.Attempt Generator.Reply :=
  GenerateBuilding.Throws (Some "Failed to fetch").
(** ** Properties of the chroma filter *)

Section FilterLoop.
Variable threshold : Q.

Lemma filterStep_length i d : length (filterStep threshold i d) = length d.
Proof.
  unfold filterStep.
  destruct (d !! i), (d !! (i + 1)%nat), (d !! (i + 2)%nat); try done.
  destruct (isBackground _ _ _ _); [apply length_insert | done].
Qed.

Lemma filterStep_lookup_ne i d j :
  j ≠ (i + 3)%nat → filterStep threshold i d !! j = d !! j.
Proof.
  intros Hne. unfold filterStep.
  destruct (d !! i), (d !! (i + 1)%nat), (d !! (i + 2)%nat); try done.
  destruct (isBackground _ _ _ _); [| done].
  by rewrite list_lookup_insert_ne.
Qed.

Lemma filterLoop_length fuel : ∀ i d,
  length (filterLoop fuel threshold i d) = length d.
Proof.
  induction fuel as [| fuel IH]; intros i d; simpl; [done |].
  destruct (i <? length d)%nat; [| done].
  by rewrite IH, filterStep_length.
Qed.

(** Bytes below the current offset are final. *)
Lemma filterLoop_lookup_lt fuel : ∀ i d j,
  (j < i)%nat → filterLoop fuel threshold i d !! j = d !! j.
Proof.
  induction fuel as [| fuel IH]; intros i d j Hj; simpl; [done |].
  destruct (i <? length d)%nat; [| done].
  rewrite IH by lia. apply filterStep_lookup_ne. lia.
Qed.

(** The pixel that starts [4 * m] bytes after the current offset keeps its
    colour bytes, and its alpha is cleared exactly when the colour is
    within the threshold. *)
Lemma filterLoop_pixel fuel : ∀ i d m r g b a,
  (m < fuel)%nat →
  d !! (i + 4 * m)%nat = Some r →
  d !! (i + 4 * m + 1)%nat = Some g →
  d !! (i + 4 * m + 2)%nat = Some b →
  d !! (i + 4 * m + 3)%nat = Some a →
  let d' := filterLoop fuel threshold i d in
  d' !! (i + 4 * m)%nat = Some r ∧
  d' !! (i + 4 * m + 1)%nat = Some g ∧
  d' !! (i + 4 * m + 2)%nat = Some b ∧
  d' !! (i + 4 * m + 3)%nat =
    Some (if isBackground r g b threshold then 0 else a).
Proof.
  induction fuel as [| fuel IH]; intros i d m r g b a Hm Hr Hg Hb Ha; [lia |].
  cbn [filterLoop].
  assert (Hi : (i < length d)%nat).
  { apply lookup_lt_Some in Hr. lia. }
  apply Nat.ltb_lt in Hi. rewrite Hi.
  destruct m as [| m].
  - replace (i + 4 * 0)%nat with i in * by lia.
    rewrite !filterLoop_lookup_lt by lia.
    rewrite !filterStep_lookup_ne by lia.
    repeat split; try done.
    unfold filterStep. rewrite Hr, Hg, Hb.
    destruct (isBackground r g b threshold); [| done].
    apply list_lookup_insert_eq. apply lookup_lt_Some in Ha. lia.
  - replace (i + 4 * S m)%nat with (i + 4 + 4 * m)%nat in * by lia.
    apply IH; [lia | | | |]; rewrite filterStep_lookup_ne by lia; done.
Qed.
End FilterLoop.

(** *** The rounded square root *)

Lemma Q2R_inject_Z (n : Z) : Q2R (inject_Z n) = IZR n.
Proof. unfold Q2R, inject_Z. simpl. rewrite Rinv_1. apply Rmult_1_r. Qed.

Lemma four_pow (k : Z) : 4 ^ k = 2 ^ k * 2 ^ k.
Proof. change 4 with (2 * 2). apply Z.pow_mul_l. Qed.

Lemma Math_sqrt_nonneg (n : Z) : (0 <= Math_sqrt n)%Q.
Proof.
  unfold Math_sqrt. destruct (n <=? 0); [done |].
  unfold Qle. simpl. rewrite Z.mul_1_r.
  pose proof (Z.sqrt_nonneg (n * 4 ^ Z.max 0 (52 - Z.log2 (Z.sqrt n)))).
  destruct (_ <? _); lia.
Qed.

Lemma Math_sqrt_0 : Math_sqrt 0 = 0%Q.
Proof. reflexivity. Qed.

(** The scaled root is the nearest integer. *)
Lemma nearest_root (N : Z) :
  0 < N →
  let m0 := Z.sqrt N in
  let m := if m0 * m0 + m0 <? N then m0 + 1 else m0 in
  m0 <= m <= m0 + 1 ∧ (2 * m - 1) * (2 * m - 1) <= 4 * N ∧ 4 * N <= (2 * m + 1) * (2 * m + 1).
Proof.
  intros HN m0 m. subst m.
  pose proof (Z.sqrt_spec N ltac:(lia)) as Hs. fold m0 in Hs.
  pose proof (Z.sqrt_nonneg N) as H0. fold m0 in H0.
  unfold Z.succ in Hs. clearbody m0.
  destruct (Z.ltb_spec (m0 * m0 + m0) N); repeat split; nia.
Qed.

Lemma Math_sqrt_le_integer (n t : Z) :
  0 <= t <= 2 ^ 25 →
  (Math_sqrt n <= inject_Z t)%Q ↔ n <= t * t.
Proof.
  intros Ht. unfold Math_sqrt.
  destruct (Z.leb_spec n 0) as [Hn | Hn].
  { split; [nia | intros _; unfold Qle; simpl; lia]. }
  set (k := Z.max 0 (52 - Z.log2 (Z.sqrt n))).
  assert (Hk : 0 <= k) by lia.
  assert (HP : 0 < 2 ^ k) by (apply Z.pow_pos_nonneg; lia).
  rewrite four_pow. set (P := 2 ^ k) in *.
  assert (HN : 0 < n * (P * P)) by nia.
  destruct (nearest_root _ HN) as (Hm & _ & _).
  pose proof (Z.sqrt_spec _ (Z.lt_le_incl _ _ HN)) as Hs.
  set (m0 := Z.sqrt (n * (P * P))) in *.
  set (m := if m0 * m0 + m0 <? n * (P * P) then m0 + 1 else m0) in *.
  unfold Qle. simpl. rewrite Z.mul_1_r, Z2Pos.id by done.
  split.
  - intros Hle. destruct (Z.le_gt_cases n (t * t)) as [| Hgt]; [done | exfalso].
    pose proof (Z.sqrt_spec n ltac:(lia)) as Hsn.
    pose proof (Z.sqrt_nonneg n) as Hs0.
    set (s := Z.sqrt n) in *.
    unfold Z.succ in Hsn, Hs.
    assert (Hst : t <= s) by (apply Z.sqrt_le_square; lia).
    destruct (Z.eq_dec s t) as [Heq | Hne].
    + assert (Ht0 : 0 < t) by nia.
      pose proof (Z.log2_spec s ltac:(lia)) as Hlog.
      assert (Hl25 : Z.log2 s <= 25).
      { transitivity (Z.log2 (2 ^ 25)); [apply Z.log2_le_mono; lia |].
        by rewrite Z.log2_pow2. }
      pose proof (Z.log2_nonneg s) as Hl0.
      assert (HPL : P * 2 ^ Z.log2 s = 2 ^ 52).
      { unfold P, k. rewrite Z.max_r by lia.
        rewrite <- Z.pow_add_r by lia. f_equal. lia. }
      assert (H2t : 2 * t < P).
      { assert (2 * t * t < P * t); [| nia].
        assert (t * t <= 2 ^ 25 * 2 ^ 25) by nia.
        change (2 ^ 25 * 2 ^ 25) with (2 ^ 50) in *.
        assert (2 ^ 52 <= P * t) by nia. lia. }
      assert (t * P + 1 <= m0); [| lia].
      apply Z.sqrt_le_square; [lia | nia |].
      assert (2 * t * P + 1 <= P * P) by nia.
      assert ((t * t + 1) * (P * P) <= n * (P * P))
        by (apply Z.mul_le_mono_nonneg_r; nia).
      nia.
    + assert ((t + 1) * P <= m0); [| nia].
      apply Z.sqrt_le_square; [lia | nia |].
      assert ((t + 1) * (t + 1) <= n) by nia.
      assert ((t + 1) * (t + 1) * (P * P) <= n * (P * P))
        by (apply Z.mul_le_mono_nonneg_r; nia).
      nia.
  - intros Hle.
    assert (Hsq : n * (P * P) <= t * P * (t * P)).
    { replace (t * P * (t * P)) with (t * t * (P * P)) by ring.
      apply Z.mul_le_mono_nonneg_r; nia. }
    assert (Hm0 : m0 <= t * P).
    { apply Z.sqrt_le_mono in Hsq. rewrite Z.sqrt_square in Hsq by nia. done. }
    subst m. destruct (Z.ltb_spec (m0 * m0 + m0) (n * (P * P))); [| done].
    unfold Z.succ in Hs. nia.
Qed.

(** For a root below [2 ^ 53] the result has the 53 bits of a double and is
    within half a unit in the last place of the real root. *)
Lemma Math_sqrt_nearest (n : Z) :
  0 < n < 2 ^ 106 →
  let k := 52 - Z.log2 (Z.sqrt n) in
  ∃ m, Math_sqrt n = m # Z.to_pos (2 ^ k) ∧ 0 <= k ∧
       2 ^ 52 <= m <= 2 ^ 53 ∧
       (2 * m - 1) * (2 * m - 1) <= 4 * (n * 4 ^ k) ∧
       4 * (n * 4 ^ k) <= (2 * m + 1) * (2 * m + 1).
Proof.
  intros [Hn Hlt] k.
  pose proof (Z.sqrt_spec n ltac:(lia)) as Hsn. unfold Z.succ in Hsn.
  pose proof (Z.sqrt_nonneg n) as Hs0.
  assert (Hs1 : 0 < Z.sqrt n) by nia.
  assert (Hs53 : Z.sqrt n < 2 ^ 53).
  { apply Z.sqrt_lt_square; [lia | lia |].
    change (2 ^ 53 * 2 ^ 53) with (2 ^ 106). lia. }
  pose proof (Z.log2_spec _ Hs1) as Hlog.
  pose proof (Z.log2_nonneg (Z.sqrt n)) as Hl0.
  assert (Hl52 : Z.log2 (Z.sqrt n) < 53) by (apply Z.log2_lt_pow2; lia).
  assert (Hk : 0 <= k) by (unfold k; lia).
  unfold Math_sqrt. destruct (Z.leb_spec n 0); [lia |].
  rewrite Z.max_r by lia. fold k.
  assert (HP : 0 < 2 ^ k) by (apply Z.pow_pos_nonneg; lia).
  assert (HPL : 2 ^ k * 2 ^ Z.log2 (Z.sqrt n) = 2 ^ 52).
  { unfold k. rewrite <- Z.pow_add_r by lia. f_equal. lia. }
  assert (HPL' : 2 ^ k * 2 ^ Z.succ (Z.log2 (Z.sqrt n)) = 2 ^ 53).
  { unfold k. rewrite <- Z.pow_add_r by lia. f_equal. lia. }
  rewrite four_pow.
  set (P := 2 ^ k) in *. set (s := Z.sqrt n) in *.
  set (L := 2 ^ Z.log2 s) in *. set (U := 2 ^ Z.succ (Z.log2 s)) in *.
  assert (HN : 0 < n * (P * P)) by nia.
  destruct (nearest_root _ HN) as (Hm & Hlo & Hhi).
  pose proof (Z.sqrt_spec _ (Z.lt_le_incl _ _ HN)) as Hs. unfold Z.succ in Hs.
  set (m0 := Z.sqrt (n * (P * P))) in *.
  set (m := if m0 * m0 + m0 <? n * (P * P) then m0 + 1 else m0) in *.
  exists m. split; [done |]. split; [done |]. split; [| done].
  assert (Hlow : P * L <= m0).
  { apply Z.sqrt_le_square; [lia | nia |].
    replace (P * L * (P * L)) with (L * L * (P * P)) by ring.
    apply Z.mul_le_mono_nonneg_r; nia. }
  assert (Hup : m0 < P * U).
  { apply Z.sqrt_lt_square; [lia | nia |].
    replace (P * U * (P * U)) with (U * U * (P * P)) by ring.
    apply Z.mul_lt_mono_pos_r; nia. }
  lia.
Qed.

Example Math_sqrt_examples :
  (Math_sqrt 65025 == 255)%Q ∧ (Math_sqrt 24025 == 155)%Q ∧
  Math_sqrt 3 = (7800463371553962 # 4503599627370496)%Q ∧
  Math_sqrt 2 = (6369051672525773 # 4503599627370496)%Q.
Proof. repeat split; reflexivity. Qed.

(** *** The comparison *)

Lemma squaredDistance_nonneg r g b : 0 <= squaredDistance r g b.
Proof.
  unfold squaredDistance. rewrite !Z.pow_2_r.
  pose proof (Z.square_nonneg (r - red BACKGROUND_COLOR)).
  pose proof (Z.square_nonneg (g - green BACKGROUND_COLOR)).
  pose proof (Z.square_nonneg (b - blue BACKGROUND_COLOR)).
  lia.
Qed.

Lemma isBackground_true r g b t :
  isBackground r g b t = true ↔ (computedDistance r g b <= t)%Q.
Proof. apply Qle_bool_iff. Qed.

Lemma isBackground_false r g b t :
  isBackground r g b t = false ↔ (t < computedDistance r g b)%Q.
Proof.
  rewrite <- not_true_iff_false, isBackground_true. split.
  - apply Qnot_le_lt.
  - apply Qlt_not_le.
Qed.

(** The comparison is monotone in the threshold. *)
Lemma isBackground_mono r g b (s t : Q) :
  (s <= t)%Q → isBackground r g b s = true → isBackground r g b t = true.
Proof.
  rewrite !isBackground_true. intros Hst Hs. by apply Qle_trans with s.
Qed.

Lemma isBackground_Qeq r g b (s t : Q) :
  (s == t)%Q → isBackground r g b s = isBackground r g b t.
Proof.
  intros Hst. apply eq_true_iff_eq. rewrite !isBackground_true.
  by rewrite Hst.
Qed.

(** Against an integer threshold the rounded root decides as the exact
    one: the squared distance is compared with the square. *)
Lemma isBackground_integer r g b (z : Z) :
  0 <= z <= 2 ^ 25 →
  isBackground r g b (inject_Z z) = true ↔ squaredDistance r g b <= z * z.
Proof.
  intros Hz. rewrite isBackground_true. by apply Math_sqrt_le_integer.
Qed.

(** The Euclidean distance, a real number, against an integer. *)
Lemma colorDistance_integer r g b (z : Z) :
  0 <= z →
  (colorDistance r g b <= IZR z)%R ↔ squaredDistance r g b <= z * z.
Proof.
  intros Hz. unfold colorDistance.
  pose proof (squaredDistance_nonneg r g b) as Hn.
  set (n := squaredDistance r g b) in *.
  assert (Hn' : (0 <= IZR n)%R) by (apply IZR_le; lia).
  assert (Hz' : (0 <= IZR z)%R) by (apply IZR_le; lia).
  split.
  - intros Hle. apply le_IZR. rewrite mult_IZR.
    rewrite <- (sqrt_sqrt (IZR n)) by done.
    apply Rmult_le_compat; try done; apply sqrt_pos.
  - intros Hle. apply IZR_le in Hle. rewrite mult_IZR in Hle.
    rewrite <- (sqrt_square (IZR z)) by done.
    by apply sqrt_le_1_alt.
Qed.

(** *** The canvas round trip *)

Lemma pixelAt_Some d p r g b a :
  pixelAt d p = Some (r, g, b, a) ↔
  d !! (4 * p)%nat = Some r ∧ d !! (4 * p + 1)%nat = Some g ∧
  d !! (4 * p + 2)%nat = Some b ∧ d !! (4 * p + 3)%nat = Some a.
Proof.
  unfold pixelAt. split.
  - destruct (d !! (4 * p)%nat), (d !! (4 * p + 1)%nat),
      (d !! (4 * p + 2)%nat), (d !! (4 * p + 3)%nat); try done.
    by intros [= -> -> -> ->].
  - by intros (-> & -> & -> & ->).
Qed.

Lemma pixel_of_byte (p k : nat) : (k < 4)%nat → ((4 * p + k) / 4)%nat = p.
Proof.
  intros Hk. replace (4 * p + k)%nat with (k + p * 4)%nat by lia.
  rewrite Nat.div_add by lia. rewrite (Nat.div_small k 4) by lia. done.
Qed.

Lemma putImageData_length cv held written :
  length (putImageData cv held written) = length written.
Proof. apply length_imap. Qed.

Lemma putImageData_lookup cv held written j :
  putImageData cv held written !! j =
    (λ byte, if premultiplied cv && alphaCleared held written (j / 4)%nat
             then 0 else byte) <$> written !! j.
Proof. apply list_lookup_imap. Qed.

Lemma putImageData_pixelAt cv held written p r g b a :
  pixelAt written p = Some (r, g, b, a) →
  pixelAt (putImageData cv held written) p =
    Some (if premultiplied cv && alphaCleared held written p
          then (0, 0, 0, 0) else (r, g, b, a)).
Proof.
  rewrite pixelAt_Some. intros (Hr & Hg & Hb & Ha).
  assert (Hbyte : ∀ k x, (k < 4)%nat →
            written !! (4 * p + k)%nat = Some x →
            putImageData cv held written !! (4 * p + k)%nat =
              Some (if premultiplied cv && alphaCleared held written p
                    then 0 else x)).
  { intros k x Hk Hx. rewrite putImageData_lookup, pixel_of_byte by done.
    by rewrite Hx. }
  rewrite <- (Nat.add_0_r (4 * p)) in Hr.
  apply Hbyte in Hr, Hg, Hb, Ha; try lia.
  rewrite Nat.add_0_r in Hr.
  destruct (premultiplied cv && alphaCleared held written p);
    by apply pixelAt_Some.
Qed.

(** *** The filtered image *)

Lemma filterBackgroundColor_fulfilled cv img threshold :
  canvasWorks cv img →
  filterBackgroundColor cv img threshold =
    Some {| width := width img; height := height img;
            data := putImageData cv (data img)
                      (filterLoop (length (data img))
                         (default COLOR_THRESHOLD threshold) 0 (data img)) |}.
Proof.
  intros (Hctx & Hclean & Henc & Hw & Hh).
  unfold filterBackgroundColor, getImageData.
  rewrite Hctx, Hclean, Henc. simpl.
  destruct (Z.eqb_spec (width img) 0); [lia |].
  destruct (Z.eqb_spec (height img) 0); [lia |].
  done.
Qed.

(** What the promise resolves with, when it does. *)
Lemma filterBackgroundColor_Some cv img threshold out :
  filterBackgroundColor cv img threshold = Some out →
  out = {| width := width img; height := height img;
           data := putImageData cv (data img)
                     (filterLoop (length (data img))
                        (default COLOR_THRESHOLD threshold) 0 (data img)) |}.
Proof.
  unfold filterBackgroundColor, getImageData.
  destruct (context2d cv); [| done]. destruct (originClean cv); [| done].
  simpl. destruct ((width img =? 0) || (height img =? 0)); [done |].
  destruct (encodes cv); [| done]. by intros [= <-].
Qed.

(** The promise rejects exactly when there is no 2D context, the canvas
    cannot be read, the bitmap is empty or the data URL does not decode. *)
Lemma filterBackgroundColor_rejects cv img threshold :
  filterBackgroundColor cv img threshold = None ↔
  context2d cv = false ∨ originClean cv = false ∨ encodes cv = false ∨
  width img = 0 ∨ height img = 0.
Proof.
  unfold filterBackgroundColor, getImageData.
  destruct (context2d cv); simpl; [| split; [intros _; by left | done]].
  destruct (originClean cv); simpl;
    [| split; [intros _; right; by left | done]].
  destruct (Z.eqb_spec (width img) 0) as [Hw | Hw]; simpl;
    [split; [intros _; do 3 right; by left | done] |].
  destruct (Z.eqb_spec (height img) 0) as [Hh | Hh]; simpl;
    [split; [intros _; do 4 right; done | done] |].
  destruct (encodes cv); split; try done.
  - intros [| [| [| [|]]]]; done.
  - intros _. right. right. by left.
Qed.

(** Every pixel of the input is, in the filtered buffer, the same pixel with
    its alpha cleared when its colour is within the threshold. *)
Lemma filterLoop_pixelAt t d p r g b a :
  pixelAt d p = Some (r, g, b, a) →
  pixelAt (filterLoop (length d) t 0 d) p =
    Some (r, g, b, if isBackground r g b t then 0 else a).
Proof.
  rewrite !pixelAt_Some. intros (Hr & Hg & Hb & Ha).
  assert (Hp : (p < length d)%nat).
  { apply lookup_lt_Some in Ha. lia. }
  apply (filterLoop_pixel t (length d) 0%nat d p r g b a Hp); done.
Qed.

(** And in the image that the promise resolves with. *)
Lemma filtered_pixelAt cv t d p px :
  pixelAt d p = Some px →
  pixelAt (putImageData cv d (filterLoop (length d) t 0 d)) p =
    Some (filteredPixel cv t px).
Proof.
  destruct px as [[[r g] b] a]. intros Hin.
  pose proof (filterLoop_pixelAt t d p r g b a Hin) as Hout.
  rewrite (putImageData_pixelAt _ _ _ _ _ _ _ _ Hout). f_equal.
  unfold alphaCleared, filteredPixel.
  apply pixelAt_Some in Hin as (_ & _ & _ & Ha).
  apply pixelAt_Some in Hout as (_ & _ & _ & Ha').
  rewrite Ha, Ha'.
  destruct (isBackground r g b t), (premultiplied cv), (Z.eqb_spec a 0);
    simpl; try done; subst; done.
Qed.

(** Every pixel of the resolved image comes from the input pixel at the
    same place. *)
Lemma filtered_pixelAt_inv cv t d p px' :
  pixelAt (putImageData cv d (filterLoop (length d) t 0 d)) p = Some px' →
  ∃ px, pixelAt d p = Some px ∧ px' = filteredPixel cv t px.
Proof.
  intros Hout.
  assert (Hlen : (4 * p + 3 < length d)%nat).
  { destruct px' as [[[r g] b] a].
    apply pixelAt_Some in Hout as (_ & _ & _ & Ha).
    apply lookup_lt_Some in Ha.
    by rewrite putImageData_length, filterLoop_length in Ha. }
  destruct (lookup_lt_is_Some_2 d (4 * p)%nat) as [r0 Hr]; [lia |].
  destruct (lookup_lt_is_Some_2 d (4 * p + 1)%nat) as [g0 Hg]; [lia |].
  destruct (lookup_lt_is_Some_2 d (4 * p + 2)%nat) as [b0 Hb]; [lia |].
  destruct (lookup_lt_is_Some_2 d (4 * p + 3)%nat) as [a0 Ha]; [lia |].
  assert (Hin : pixelAt d p = Some (r0, g0, b0, a0)) by by apply pixelAt_Some.
  rewrite (filtered_pixelAt cv t _ _ _ Hin) in Hout.
  injection Hout as <-. by exists (r0, g0, b0, a0).
Qed.

(** The filtered image is a well-formed bitmap when the input is. *)
Lemma filterBackgroundColor_wellFormed cv img threshold out :
  wellFormed img →
  filterBackgroundColor cv img threshold = Some out →
  wellFormed out.
Proof.
  intros (Hw & Hh & Hlen). unfold filterBackgroundColor, getImageData.
  destruct (context2d cv); [| done]. destruct (originClean cv); [| done].
  simpl. destruct ((width img =? 0) || (height img =? 0)); [done |].
  destruct (encodes cv); [| done]. intros [= <-].
  unfold wellFormed. simpl.
  by rewrite putImageData_length, filterLoop_length.
Qed.

(** The filter never changes its input: it is a function of it. *)
Lemma filterBackgroundColor_rejects_without_context cv img threshold :
  context2d cv = false → filterBackgroundColor cv img threshold = None.
Proof. intros Hctx. unfold filterBackgroundColor. by rewrite Hctx. Qed.

(** ** Properties of the content-bounds scan *)

Section Scan.
Variables (w : Z) (d : list Z).

(** The nested loops visit [points w h] in order. *)
Lemma foldl_rows (ys : list Z) : ∀ bx,
  foldl (scanRow w d) bx ys =
  foldl (visitPoint w d) bx (y ← ys; (λ x, (x, y)) <$> seqZ 0 w).
Proof.
  induction ys as [| y ys IH]; intros bx; [done |].
  cbn [foldl mbind list_bind]. rewrite foldl_app, <- IH. f_equal.
  unfold scanRow. generalize (seqZ 0 w) as xs. clear IH.
  intros xs. revert bx. induction xs as [| x xs IHx]; intros bx; [done |].
  cbn. apply IHx.
Qed.

Lemma scan_points h :
  scan w h d =
  foldl (visitPoint w d)
    {| boxMinX := w; boxMinY := h; boxMaxX := 0; boxMaxY := 0 |}
    (points w h).
Proof. apply foldl_rows. Qed.

Lemma elem_of_points h x y :
  (x, y) ∈ points w h ↔ 0 <= x < w ∧ 0 <= y < h.
Proof.
  unfold points. rewrite list_elem_of_bind. split.
  - intros (y' & Hx & Hy). apply list_elem_of_fmap in Hx as (x' & [= -> ->] & Hx).
    apply elem_of_seqZ in Hx, Hy. lia.
  - intros [Hx Hy]. exists y. split.
    + apply list_elem_of_fmap. exists x. split; [done |]. apply elem_of_seqZ. lia.
    + apply elem_of_seqZ. lia.
Qed.

(** One visit never shrinks the box. *)
Lemma visitPoint_mono bx p :
  let bx' := visitPoint w d bx p in
  boxMinX bx' <= boxMinX bx ∧ boxMaxX bx <= boxMaxX bx' ∧
  boxMinY bx' <= boxMinY bx ∧ boxMaxY bx <= boxMaxY bx'.
Proof.
  unfold visitPoint, visit, grow. destruct (isContent w d p.1 p.2); simpl; [| lia].
  destruct (Z.ltb_spec p.1 (boxMinX bx)), (Z.gtb_spec p.1 (boxMaxX bx)),
    (Z.ltb_spec p.2 (boxMinY bx)), (Z.gtb_spec p.2 (boxMaxY bx)); lia.
Qed.

(** A visit of a content pixel puts it inside the box. *)
Lemma visitPoint_inside bx p :
  isContent w d p.1 p.2 = true →
  let bx' := visitPoint w d bx p in
  boxMinX bx' <= p.1 <= boxMaxX bx' ∧ boxMinY bx' <= p.2 <= boxMaxY bx'.
Proof.
  intros Hc. unfold visitPoint, visit, grow. rewrite Hc. simpl.
  destruct (Z.ltb_spec p.1 (boxMinX bx)), (Z.gtb_spec p.1 (boxMaxX bx)),
    (Z.ltb_spec p.2 (boxMinY bx)), (Z.gtb_spec p.2 (boxMaxY bx)); lia.
Qed.

(** Each bound after a visit is the bound before it or a coordinate of
    the pixel visited, which is then a content pixel. *)
Lemma visitPoint_attained bx p :
  let bx' := visitPoint w d bx p in
  (boxMinX bx' = boxMinX bx ∨ isContent w d p.1 p.2 = true ∧ boxMinX bx' = p.1) ∧
  (boxMaxX bx' = boxMaxX bx ∨ isContent w d p.1 p.2 = true ∧ boxMaxX bx' = p.1) ∧
  (boxMinY bx' = boxMinY bx ∨ isContent w d p.1 p.2 = true ∧ boxMinY bx' = p.2) ∧
  (boxMaxY bx' = boxMaxY bx ∨ isContent w d p.1 p.2 = true ∧ boxMaxY bx' = p.2).
Proof.
  unfold visitPoint, visit, grow.
  destruct (isContent w d p.1 p.2); simpl; [| tauto].
  destruct (Z.ltb_spec p.1 (boxMinX bx)), (Z.gtb_spec p.1 (boxMaxX bx)),
    (Z.ltb_spec p.2 (boxMinY bx)), (Z.gtb_spec p.2 (boxMaxY bx)); tauto.
Qed.

Lemma fold_mono (pts : list (Z * Z)) : ∀ bx,
  let bx' := foldl (visitPoint w d) bx pts in
  boxMinX bx' <= boxMinX bx ∧ boxMaxX bx <= boxMaxX bx' ∧
  boxMinY bx' <= boxMinY bx ∧ boxMaxY bx <= boxMaxY bx'.
Proof.
  induction pts as [| p pts IH]; intros bx; simpl; [lia |].
  specialize (IH (visitPoint w d bx p)). simpl in IH.
  pose proof (visitPoint_mono bx p) as Hm. simpl in Hm. lia.
Qed.

(** Every content pixel visited ends inside the box. *)
Lemma fold_inside (pts : list (Z * Z)) : ∀ bx p,
  p ∈ pts → isContent w d p.1 p.2 = true →
  let bx' := foldl (visitPoint w d) bx pts in
  boxMinX bx' <= p.1 <= boxMaxX bx' ∧ boxMinY bx' <= p.2 <= boxMaxY bx'.
Proof.
  induction pts as [| q pts IH]; intros bx p Hin Hc; [by apply elem_of_nil in Hin |].
  apply elem_of_cons in Hin as [-> | Hin]; simpl.
  - pose proof (visitPoint_inside bx q Hc) as Hi. simpl in Hi.
    pose proof (fold_mono pts (visitPoint w d bx q)) as Hm. simpl in Hm. lia.
  - by apply IH.
Qed.

(** Every bound of the final box is its initial value or a coordinate of
    a content pixel that was visited. *)
Lemma fold_attained (pts : list (Z * Z)) : ∀ bx,
  let bx' := foldl (visitPoint w d) bx pts in
  (boxMinX bx' = boxMinX bx ∨
     ∃ p, p ∈ pts ∧ isContent w d p.1 p.2 = true ∧ boxMinX bx' = p.1) ∧
  (boxMaxX bx' = boxMaxX bx ∨
     ∃ p, p ∈ pts ∧ isContent w d p.1 p.2 = true ∧ boxMaxX bx' = p.1) ∧
  (boxMinY bx' = boxMinY bx ∨
     ∃ p, p ∈ pts ∧ isContent w d p.1 p.2 = true ∧ boxMinY bx' = p.2) ∧
  (boxMaxY bx' = boxMaxY bx ∨
     ∃ p, p ∈ pts ∧ isContent w d p.1 p.2 = true ∧ boxMaxY bx' = p.2).
Proof.
  induction pts as [| q pts IH]; intros bx; simpl; [tauto |].
  specialize (IH (visitPoint w d bx q)). simpl in IH.
  pose proof (visitPoint_attained bx q) as Ha. simpl in Ha.
  destruct IH as (I1 & I2 & I3 & I4). destruct Ha as (A1 & A2 & A3 & A4).
  repeat split.
  - destruct I1 as [-> | (p & Hp & Hc & ->)];
      [destruct A1 as [-> | [Hc ->]]; [by left | right; exists q]
      | right; exists p]; rewrite elem_of_cons; tauto.
  - destruct I2 as [-> | (p & Hp & Hc & ->)];
      [destruct A2 as [-> | [Hc ->]]; [by left | right; exists q]
      | right; exists p]; rewrite elem_of_cons; tauto.
  - destruct I3 as [-> | (p & Hp & Hc & ->)];
      [destruct A3 as [-> | [Hc ->]]; [by left | right; exists q]
      | right; exists p]; rewrite elem_of_cons; tauto.
  - destruct I4 as [-> | (p & Hp & Hc & ->)];
      [destruct A4 as [-> | [Hc ->]]; [by left | right; exists q]
      | right; exists p]; rewrite elem_of_cons; tauto.
Qed.

(** With no content pixel among them, the visits leave the box alone. *)
Lemma fold_no_content (pts : list (Z * Z)) : ∀ bx,
  (∀ p, p ∈ pts → isContent w d p.1 p.2 = false) →
  foldl (visitPoint w d) bx pts = bx.
Proof.
  induction pts as [| q pts IH]; intros bx Hno; simpl; [done |].
  assert (Hq : visitPoint w d bx q = bx).
  { unfold visitPoint, visit. rewrite (Hno q); [done | apply elem_of_cons; tauto]. }
  rewrite Hq. apply IH. intros p Hp. apply Hno, elem_of_cons. tauto.
Qed.
End Scan.

(** ** Properties of [analyzeContentBounds] *)

Lemma contentPixel_isContent img x y :
  contentPixel img x y ↔
  0 <= x < width img ∧ 0 <= y < height img ∧
  isContent (width img) (data img) x y = true.
Proof.
  unfold contentPixel, alphaAt, isContent, alphaThreshold.
  destruct (readByte _ _) as [alpha |].
  - rewrite Z.gtb_ltb, Z.ltb_lt. split.
    + intros (? & ? & a & [= <-] & ?). done.
    + intros (? & ? & ?). eauto.
  - split; [intros (_ & _ & a & ? & _) | intros (_ & _ & ?)]; done.
Qed.

(** What the scan of an image establishes: the box contains every content
    pixel, and each of its bounds is either still the initial value or the
    coordinate of some content pixel. *)
Lemma scan_facts img :
  let bx := scan (width img) (height img) (data img) in
  (∀ x y, contentPixel img x y →
     boxMinX bx <= x <= boxMaxX bx ∧ boxMinY bx <= y <= boxMaxY bx) ∧
  (boxMinX bx = width img ∨ ∃ y, contentPixel img (boxMinX bx) y) ∧
  (boxMaxX bx = 0 ∨ ∃ y, contentPixel img (boxMaxX bx) y) ∧
  (boxMinY bx = height img ∨ ∃ x, contentPixel img x (boxMinY bx)) ∧
  (boxMaxY bx = 0 ∨ ∃ x, contentPixel img x (boxMaxY bx)).
Proof.
  intros bx. subst bx. rewrite scan_points.
  set (init := {| boxMinX := width img; boxMinY := height img;
                  boxMaxX := 0; boxMaxY := 0 |}).
  pose proof (fold_attained (width img) (data img)
                (points (width img) (height img)) init) as (A1 & A2 & A3 & A4).
  assert (Hpix : ∀ p, p ∈ points (width img) (height img) →
                 isContent (width img) (data img) p.1 p.2 = true →
                 contentPixel img p.1 p.2).
  { intros [x y] Hp Hc. apply contentPixel_isContent.
    apply elem_of_points in Hp. simpl in *. tauto. }
  split; [| repeat split].
  - intros x y Hc. apply contentPixel_isContent in Hc as (Hx & Hy & Hc).
    apply (fold_inside (width img) (data img) _ init (x, y)); [| done].
    by apply elem_of_points.
  - destruct A1 as [-> | (p & Hp & Hc & ->)]; [by left | right].
    exists p.2. by apply Hpix.
  - destruct A2 as [-> | (p & Hp & Hc & ->)]; [by left | right].
    exists p.2. by apply Hpix.
  - destruct A3 as [-> | (p & Hp & Hc & ->)]; [by left | right].
    exists p.1. by apply Hpix.
  - destruct A4 as [-> | (p & Hp & Hc & ->)]; [by left | right].
    exists p.1. by apply Hpix.
Qed.

(** Without a content pixel the scan ends with the initial box. *)
Lemma scan_no_content img :
  (∀ x y, ¬ contentPixel img x y) →
  scan (width img) (height img) (data img) =
    {| boxMinX := width img; boxMinY := height img;
       boxMaxX := 0; boxMaxY := 0 |}.
Proof.
  intros Hno. rewrite scan_points. apply fold_no_content.
  intros [x y] Hp. simpl. apply not_true_is_false. intros Hc.
  apply (Hno x y), contentPixel_isContent.
  apply elem_of_points in Hp. tauto.
Qed.

(** When the guard of the fallback does not fire, the scanned box is a box
    of content pixels. *)
Lemma scan_box_attained img :
  0 < width img → 0 < height img →
  let bx := scan (width img) (height img) (data img) in
  (boxMinX bx >? boxMaxX bx) || (boxMinY bx >? boxMaxY bx) = false →
  (∃ y, contentPixel img (boxMinX bx) y) ∧
  (∃ y, contentPixel img (boxMaxX bx) y) ∧
  (∃ x, contentPixel img x (boxMinY bx)) ∧
  (∃ x, contentPixel img x (boxMaxY bx)).
Proof.
  intros Hw Hh bx Hguard.
  apply orb_false_iff in Hguard as [Hx Hy].
  rewrite Z.gtb_ltb, Z.ltb_ge in Hx, Hy.
  destruct (scan_facts img) as (_ & A1 & A2 & A3 & A4). fold bx in A1, A2, A3, A4.
  assert (Hx0 : ∃ y, contentPixel img (boxMinX bx) y).
  { destruct A1 as [E | ?]; [| done].
    destruct A2 as [E2 | [y Hc]]; [lia |].
    destruct Hc as (? & _). lia. }
  assert (Hy0 : ∃ x, contentPixel img x (boxMinY bx)).
  { destruct A3 as [E | ?]; [| done].
    destruct A4 as [E2 | [x Hc]]; [lia |].
    destruct Hc as (_ & ? & _). lia. }
  repeat split; try done.
  - destruct A2 as [E | ?]; [| done].
    destruct Hx0 as [y Hc]. exists y.
    assert (boxMinX bx = boxMaxX bx) as <-; [| done].
    destruct Hc as (? & _). lia.
  - destruct A4 as [E | ?]; [| done].
    destruct Hy0 as [x Hc]. exists x.
    assert (boxMinY bx = boxMaxY bx) as <-; [| done].
    destruct Hc as (_ & ? & _). lia.
Qed.

(** The three ways in which [analyzeContentBounds] returns. *)
Lemma analyzeContentBounds_cases cv img :
  let bx := scan (width img) (height img) (data img) in
  analyzeContentBounds cv img = wholeImage (width img) (height img) ∨
  (context2d cv = true ∧ originClean cv = true ∧
   width img ≠ 0 ∧ height img ≠ 0 ∧
   (boxMinX bx >? boxMaxX bx) || (boxMinY bx >? boxMaxY bx) = false ∧
   analyzeContentBounds cv img = boundsOfBox (width img) (height img) bx).
Proof.
  intros bx. unfold analyzeContentBounds, getImageData.
  destruct (context2d cv); [| by left].
  destruct (originClean cv); [| by left]. simpl.
  destruct (Z.eqb_spec (width img) 0); [by left |].
  destruct (Z.eqb_spec (height img) 0); [by left |]. simpl.
  fold bx.
  destruct ((boxMinX bx >? boxMaxX bx) || (boxMinY bx >? boxMaxY bx)) eqn:Hg;
    [by left | by right].
Qed.

(** With a canvas that can be read and a content pixel, the record is built
    from the scanned box. *)
Lemma analyzeContentBounds_scanned cv img :
  context2d cv = true → originClean cv = true →
  (∃ x y, contentPixel img x y) →
  analyzeContentBounds cv img =
    boundsOfBox (width img) (height img)
      (scan (width img) (height img) (data img)).
Proof.
  intros Hctx Hclean (x0 & y0 & Hc).
  destruct (scan_facts img) as (Hin & _).
  specialize (Hin x0 y0 Hc).
  destruct Hc as (Hx & Hy & _).
  unfold analyzeContentBounds, getImageData. rewrite Hctx, Hclean. simpl.
  destruct (Z.eqb_spec (width img) 0); [lia |].
  destruct (Z.eqb_spec (height img) 0); [lia |]. simpl.
  set (bx := scan _ _ _) in *.
  assert ((boxMinX bx >? boxMaxX bx) = false) as -> by (rewrite Z.gtb_ltb, Z.ltb_ge; lia).
  assert ((boxMinY bx >? boxMaxY bx) = false) as -> by (rewrite Z.gtb_ltb, Z.ltb_ge; lia).
  done.
Qed.

(** The centre of the box, as the midpoint of its inclusive bounds. *)
Lemma centerOffset_midpoint (a b n : Z) :
  n ≠ 0 →
  ((inject_Z a + inject_Z (b - a + 1) / 2 - inject_Z n / 2) / inject_Z n ==
   (inject_Z (a + b + 1) / 2 - inject_Z n / 2) / inject_Z n)%Q.
Proof.
  intros Hn. unfold Z.sub. rewrite !inject_Z_plus, inject_Z_opp.
  field. intros H0. apply Hn.
  unfold Qeq, inject_Z in H0. simpl in H0. lia.
Qed.

(** A box inside an image of width [n] is centred within half the width
    of the centre of the image. *)
Lemma centerOffset_bounds (a b n : Z) :
  0 <= a → a <= b → b < n →
  (-(1 # 2) <=
     (inject_Z a + inject_Z (b - a + 1) / 2 - inject_Z n / 2) / inject_Z n
   <= 1 # 2)%Q.
Proof.
  intros Ha Hab Hb.
  assert (Hn : n ≠ 0) by lia.
  rewrite (centerOffset_midpoint a b n Hn).
  assert (Hpos : (0 < inject_Z n)%Q).
  { change 0%Q with (inject_Z 0). rewrite <- Zlt_Qlt. lia. }
  assert (Hmid : ((inject_Z (a + b + 1) / 2 - inject_Z n / 2) ==
                  inject_Z (a + b + 1 - n) / 2)%Q).
  { unfold Z.sub. rewrite !inject_Z_plus, inject_Z_opp. field. }
  rewrite Hmid.
  split.
  - apply Qle_shift_div_l; [done |].
    apply Qle_shift_div_l; [done |].
    unfold Qle, Qmult, inject_Z. simpl. lia.
  - apply Qle_shift_div_r; [done |].
    apply Qle_shift_div_r; [done |].
    unfold Qle, Qmult, inject_Z. simpl. lia.
Qed.

(** ** Properties of the format negotiation *)

Lemma app_String c s t : String c s +:+ t = String c (s +:+ t).
Proof. done. Qed.

Lemma length_app_string s t :
  String.length (s +:+ t) = (String.length s + String.length t)%nat.
Proof. induction s as [| c s IH]; [done |]. rewrite app_String. simpl. by rewrite IH. Qed.

(** [endsWith s suffix] holds exactly when [s] is some string followed by
    [suffix]. *)
Lemma endsWith_spec s suffix :
  endsWith s suffix = true ↔ ∃ base, s = base +:+ suffix.
Proof.
  induction s as [| c s IH]; cbn [endsWith].
  - rewrite orb_false_r, String.eqb_eq. split.
    + intros <-. by exists "".
    + intros [[| c base] Hb]; [done |]. by rewrite app_String in Hb.
  - rewrite orb_true_iff, String.eqb_eq, IH. split.
    + intros [<- | [base ->]]; [by exists "" |]. by exists (String c base).
    + intros [[| c' base] Hb]; [by left |].
      rewrite app_String in Hb. injection Hb as -> ->. right. by exists base.
Qed.

(** The replacement swaps a final [".png"] for [".webp"]. *)
Lemma replacePngAtEnd_png base :
  replacePngAtEnd (base +:+ ".png") = base +:+ ".webp".
Proof.
  induction base as [| c base IH]; [done |].
  rewrite !app_String. cbn [replacePngAtEnd].
  assert (Hne : (String c (base +:+ ".png") =? ".png")%string = false).
  { apply String.eqb_neq. intros Heq.
    apply (f_equal String.length) in Heq. simpl in Heq.
    rewrite length_app_string in Heq. simpl in Heq. lia. }
  by rewrite Hne, IH.
Qed.

Lemma getWebPPath_png base :
  getWebPPath (base +:+ ".png") = Some (base +:+ ".webp").
Proof.
  unfold getWebPPath.
  assert (endsWith (base +:+ ".png") ".png" = true) as ->
    by (apply endsWith_spec; eauto).
  by rewrite replacePngAtEnd_png.
Qed.

Lemma getWebPPath_other src :
  (∀ base, src ≠ base +:+ ".png") → getWebPPath src = None.
Proof.
  intros Hno. unfold getWebPPath.
  destruct (endsWith src ".png") eqn:He; [| done].
  apply endsWith_spec in He as [base ->]. by destruct (Hno base).
Qed.

Lemma getWebPPath_Some src path :
  getWebPPath src = Some path ↔
  ∃ base, src = base +:+ ".png" ∧ path = base +:+ ".webp".
Proof.
  split.
  - unfold getWebPPath. destruct (endsWith src ".png") eqn:He; [| done].
    apply endsWith_spec in He as [base ->].
    rewrite replacePngAtEnd_png. intros [= <-]. eauto.
  - intros (base & -> & ->). apply getWebPPath_png.
Qed.

(** A path produced by [getWebPPath] passes the test [if (webpPath)]. *)
Lemma getWebPPath_truthy src path :
  getWebPPath src = Some path → truthy (Some path) = true.
Proof.
  intros (base & _ & ->)%getWebPPath_Some. simpl.
  apply negb_true_iff, String.eqb_neq. intros Heq.
  apply (f_equal String.length) in Heq.
  rewrite length_app_string in Heq. simpl in Heq. lia.
Qed.

(** ** Properties of the loader *)

(** The probe always resolves, records its answer, and touches neither
    cache, the listeners nor the logs. *)
Lemma checkWebPSupport_resolves net w :
  ∃ b, checkWebPSupport net w = (Some b, (checkWebPSupport net w).2) ∧
       webpSupported (checkWebPSupport net w).2 = Some b.
Proof.
  unfold checkWebPSupport, checkWebPSupportCall, probeSettled. destruct (webpSupported w) as [b |] eqn:Hs; simpl; eauto.
Qed.

Lemma checkWebPSupport_frame net w :
  let w' := (checkWebPSupport net w).2 in
  imageCache w' = imageCache w ∧
  contentBoundsCache w' = contentBoundsCache w ∧
  imageLoadCallbacks w' = imageLoadCallbacks w ∧
  requested w' = requested w ∧ notified w' = notified w ∧
  scans w' = scans w.
Proof. unfold checkWebPSupport, checkWebPSupportCall, probeSettled. by destruct (webpSupported w). Qed.

(** [loadImageDirect], case by case. *)
Lemma loadImageDirect_ok net src img w :
  fetch net src = Some img →
  loadImageDirect net src w =
    (Some img,
     notifyImageLoaded
       (setImageCache (<[src := img]> (imageCache w)) (request src w))).
Proof. intros Hf. unfold loadImageDirect. by rewrite Hf. Qed.

Lemma loadImageDirect_fail net src w :
  fetch net src = None →
  loadImageDirect net src w = (None, request src w).
Proof. intros Hf. unfold loadImageDirect. by rewrite Hf. Qed.

(** The shape of [loadImage] on a cache miss, once the alternate path and
    the probe are known. *)
Lemma loadImage_hit net src img w :
  imageCache w !! src = Some img → loadImage net src w = (Some img, w).
Proof. intros Hc. unfold loadImage. by rewrite Hc. Qed.

Lemma loadImage_no_alternate net src w :
  imageCache w !! src = None → getWebPPath src = None →
  loadImage net src w = loadImageDirect net src w.
Proof. intros Hc Hp. unfold loadImage. by rewrite Hc, Hp. Qed.

Lemma loadImage_alternate net src path w :
  imageCache w !! src = None → getWebPPath src = Some path →
  let w1 := (checkWebPSupport net w).2 in
  loadImage net src w =
    match webpSupported w1 with
    | Some true =>
        match fetch net path with
        | Some img =>
            (Some img,
             setImageCache (<[src := img]> (imageCache (loadImageDirect net path w1).2))
               (loadImageDirect net path w1).2)
        | None => loadImageDirect net src (request path w1)
        end
    | _ => loadImageDirect net src w1
    end.
Proof.
  intros Hc Hp w1. unfold loadImage. rewrite Hc, Hp.
  rewrite (getWebPPath_truthy _ _ Hp).
  destruct (checkWebPSupport_resolves net w) as (b & Hb & Hs). fold w1 in Hb, Hs.
  unfold await at 1. rewrite Hb, Hs.
  destruct b; [| done].
  unfold tryAwait.
  destruct (fetch net path) as [img |] eqn:Hf.
  - by rewrite (loadImageDirect_ok _ _ _ _ Hf).
  - by rewrite (loadImageDirect_fail _ _ _ Hf).
Qed.

Lemma request_fields src w :
  imageCache (request src w) = imageCache w ∧
  contentBoundsCache (request src w) = contentBoundsCache w ∧
  webpSupported (request src w) = webpSupported w ∧
  imageLoadCallbacks (request src w) = imageLoadCallbacks w ∧
  notified (request src w) = notified w.
Proof. done. Qed.

(** The outcome of [loadImage], read off the cache, the probe and the
    network. *)
Lemma loadImage_result net src w :
  (loadImage net src w).1 =
    match imageCache w !! src with
    | Some img => Some img
    | None =>
        match alternateTried net src w with
        | Some path =>
            match fetch net path with
            | Some img => Some img
            | None => fetch net src
            end
        | None => fetch net src
        end
    end.
Proof.
  unfold alternateTried.
  destruct (imageCache w !! src) as [img |] eqn:Hc;
    [by rewrite (loadImage_hit _ _ _ _ Hc) |].
  destruct (getWebPPath src) as [path |] eqn:Hp.
  - rewrite (loadImage_alternate _ _ _ _ Hc Hp). cbv zeta.
    destruct (webpSupported _) as [[|] |]; try destruct (fetch net path);
      try done; unfold loadImageDirect; by destruct (fetch net src).
  - rewrite (loadImage_no_alternate _ _ _ Hc Hp).
    unfold loadImageDirect; by destruct (fetch net src).
Qed.

(** The requests of one call: none on a hit, otherwise the alternate when
    it is tried, then the original unless the alternate loaded. *)
Lemma loadImage_attempted net src w :
  attempted net src w =
    match imageCache w !! src with
    | Some _ => []
    | None =>
        match alternateTried net src w with
        | Some path =>
            match fetch net path with
            | Some _ => [path]
            | None => [path; src]
            end
        | None => [src]
        end
    end.
Proof.
  unfold attempted, alternateTried.
  destruct (imageCache w !! src) as [img |] eqn:Hc.
  { rewrite (loadImage_hit _ _ _ _ Hc). simpl. apply drop_all. }
  pose proof (checkWebPSupport_frame net w) as (_ & _ & _ & Hreq & _).
  destruct (getWebPPath src) as [path |] eqn:Hp.
  - rewrite (loadImage_alternate _ _ _ _ Hc Hp). cbv zeta.
    destruct (webpSupported _) as [[|] |]; try destruct (fetch net path) eqn:Hf;
      unfold loadImageDirect; rewrite ?Hf; destruct (fetch net src); simpl;
      rewrite ?Hreq, <- ?app_assoc; apply drop_app_length.
  - rewrite (loadImage_no_alternate _ _ _ Hc Hp).
    unfold loadImageDirect; destruct (fetch net src); simpl;
      apply drop_app_length.
Qed.

(** The callbacks run once, all of them, when an image loads, and not
    otherwise. *)
Lemma loadImage_notified net src w :
  notified (loadImage net src w).2 =
    match imageCache w !! src, (loadImage net src w).1 with
    | None, Some _ => notified w ++ imageLoadCallbacks w
    | _, _ => notified w
    end.
Proof.
  destruct (imageCache w !! src) as [img |] eqn:Hc;
    [by rewrite (loadImage_hit _ _ _ _ Hc) |].
  pose proof (checkWebPSupport_frame net w) as (_ & _ & Hcb & _ & Hn & _).
  destruct (getWebPPath src) as [path |] eqn:Hp.
  - rewrite (loadImage_alternate _ _ _ _ Hc Hp). cbv zeta.
    destruct (webpSupported _) as [[|] |]; try destruct (fetch net path) eqn:Hf;
      unfold loadImageDirect; rewrite ?Hf; destruct (fetch net src); simpl;
      by rewrite ?Hn, ?Hcb.
  - rewrite (loadImage_no_alternate _ _ _ Hc Hp).
    unfold loadImageDirect; by destruct (fetch net src).
Qed.

(** The image cache after [loadImage]: untouched on a hit and on a
    rejection; on a load, the image under the original source, and under
    the alternate too when it came from there. *)
Lemma loadImage_imageCache net src w :
  imageCache (loadImage net src w).2 =
    match imageCache w !! src with
    | Some _ => imageCache w
    | None =>
        match alternateTried net src w with
        | Some path =>
            match fetch net path with
            | Some img => <[src := img]> (<[path := img]> (imageCache w))
            | None =>
                match fetch net src with
                | Some img => <[src := img]> (imageCache w)
                | None => imageCache w
                end
            end
        | None =>
            match fetch net src with
            | Some img => <[src := img]> (imageCache w)
            | None => imageCache w
            end
        end
    end.
Proof.
  unfold alternateTried.
  destruct (imageCache w !! src) as [img |] eqn:Hc;
    [by rewrite (loadImage_hit _ _ _ _ Hc) |].
  pose proof (checkWebPSupport_frame net w) as (Hic & _).
  destruct (getWebPPath src) as [path |] eqn:Hp.
  - rewrite (loadImage_alternate _ _ _ _ Hc Hp). cbv zeta.
    destruct (webpSupported _) as [[|] |]; try destruct (fetch net path) eqn:Hf;
      unfold loadImageDirect; rewrite ?Hf; destruct (fetch net src); simpl;
      by rewrite ?Hic.
  - rewrite (loadImage_no_alternate _ _ _ Hc Hp).
    unfold loadImageDirect; by destruct (fetch net src).
Qed.

(** [loadImage] never touches the content-bounds cache or the listeners. *)
Lemma loadImage_frame net src w :
  contentBoundsCache (loadImage net src w).2 = contentBoundsCache w ∧
  imageLoadCallbacks (loadImage net src w).2 = imageLoadCallbacks w ∧
  scans (loadImage net src w).2 = scans w.
Proof.
  destruct (imageCache w !! src) as [img |] eqn:Hc;
    [by rewrite (loadImage_hit _ _ _ _ Hc) |].
  pose proof (checkWebPSupport_frame net w) as (_ & Hcb & Hl & _ & _ & Hs).
  destruct (getWebPPath src) as [path |] eqn:Hp.
  - rewrite (loadImage_alternate _ _ _ _ Hc Hp). cbv zeta.
    destruct (webpSupported _) as [[|] |]; try destruct (fetch net path) eqn:Hf;
      unfold loadImageDirect; rewrite ?Hf; destruct (fetch net src); simpl;
      by rewrite ?Hcb, ?Hl, ?Hs.
  - rewrite (loadImage_no_alternate _ _ _ Hc Hp).
    unfold loadImageDirect; by destruct (fetch net src).
Qed.

(** The log of requests only grows, by the requests of the call. *)
Lemma loadImage_requested net src w :
  requested (loadImage net src w).2 = requested w ++ attempted net src w.
Proof.
  rewrite loadImage_attempted. unfold alternateTried.
  destruct (imageCache w !! src) as [img |] eqn:Hc.
  { rewrite (loadImage_hit _ _ _ _ Hc). simpl. by rewrite app_nil_r. }
  pose proof (checkWebPSupport_frame net w) as (_ & _ & _ & Hreq & _).
  destruct (getWebPPath src) as [path |] eqn:Hp.
  - rewrite (loadImage_alternate _ _ _ _ Hc Hp). cbv zeta.
    destruct (webpSupported _) as [[|] |]; try destruct (fetch net path) eqn:Hf;
      unfold loadImageDirect; rewrite ?Hf; destruct (fetch net src); simpl;
      by rewrite ?Hreq, <- ?app_assoc.
  - rewrite (loadImage_no_alternate _ _ _ Hc Hp).
    unfold loadImageDirect; by destruct (fetch net src).
Qed.

(** The probe is made by [loadImage] only on a miss for a [.png] source. *)
Lemma loadImage_webpSupported net src w :
  webpSupported (loadImage net src w).2 =
    match imageCache w !! src, getWebPPath src with
    | None, Some _ => webpSupported (checkWebPSupport net w).2
    | _, _ => webpSupported w
    end ∧
  probes (loadImage net src w).2 =
    match imageCache w !! src, getWebPPath src with
    | None, Some _ => probes (checkWebPSupport net w).2
    | _, _ => probes w
    end.
Proof.
  destruct (imageCache w !! src) as [img |] eqn:Hc;
    [by rewrite (loadImage_hit _ _ _ _ Hc) |].
  destruct (getWebPPath src) as [path |] eqn:Hp.
  - rewrite (loadImage_alternate _ _ _ _ Hc Hp). cbv zeta.
    destruct (webpSupported (checkWebPSupport net w).2) as [[|] |] eqn:Hs;
      try destruct (fetch net path) eqn:Hf;
      unfold loadImageDirect; rewrite ?Hf; destruct (fetch net src); simpl;
      by rewrite ?Hs.
  - rewrite (loadImage_no_alternate _ _ _ Hc Hp).
    unfold loadImageDirect; by destruct (fetch net src).
Qed.

(** Once the answer of the probe is known, it is returned as it is and no
    probe is made. *)
Lemma checkWebPSupport_known net w b :
  webpSupported w = Some b → checkWebPSupport net w = (Some b, w).
Proof. intros Hs. unfold checkWebPSupport, checkWebPSupportCall, probeSettled. by rewrite Hs. Qed.

Lemma loadImage_keeps_probe net src w b :
  webpSupported w = Some b →
  webpSupported (loadImage net src w).2 = Some b ∧
  probes (loadImage net src w).2 = probes w.
Proof.
  intros Hs. destruct (loadImage_webpSupported net src w) as [-> ->].
  rewrite (checkWebPSupport_known net w b Hs). simpl.
  by destruct (imageCache w !! src), (getWebPPath src).
Qed.

(** [loadSpriteImage] adds to [loadImage] at most one entry of the image
    cache. *)
Lemma loadSpriteImage_frame net cv src applyFilter w :
  let w' := (loadSpriteImage net cv src applyFilter w).2 in
  contentBoundsCache w' = contentBoundsCache w ∧
  (∀ b, webpSupported w = Some b →
        webpSupported w' = Some b ∧ probes w' = probes w).
Proof.
  unfold loadSpriteImage.
  destruct (imageCache w !! cacheKeyOf src applyFilter); [done |].
  unfold await, effect, resolve, reject.
  pose proof (loadImage_frame net src w) as (Hcb & _).
  pose proof (loadImage_keeps_probe net src w) as Hk.
  destruct (loadImage net src w) as [[img |] w1]; simpl in *; [| done].
  destruct applyFilter; [| done].
  by destruct (filterBackgroundColor cv img None).
Qed.

(** No operation but [clearImageCache] removes or changes an entry of the
    content-bounds cache. *)
Lemma run_keeps_bounds c w src bounds :
  isClear c = false →
  contentBoundsCache w !! src = Some bounds →
  contentBoundsCache (run c w) !! src = Some bounds.
Proof.
  intros Hc Hb. destruct c; simpl; try done.
  - unfold onImageLoaded. by case_decide.
  - by destruct (loadImage_frame net src0 w) as [-> _].
  - by destruct (loadSpriteImage_frame net cv src0 applyFilter w) as [-> _].
  - unfold getContentBounds.
    destruct (contentBoundsCache w !! src0) eqn:Hs; simpl; [done |].
    rewrite lookup_insert_ne; [done |]. intros ->. congruence.
Qed.

(** No operation resets the answer of the probe or probes again. *)
Lemma run_keeps_probe c w b :
  webpSupported w = Some b →
  webpSupported (run c w) = Some b ∧ probes (run c w) = probes w.
Proof.
  intros Hs. destruct c; simpl; try done.
  - unfold onImageLoaded. by case_decide.
  - by apply loadImage_keeps_probe.
  - by apply loadSpriteImage_frame.
  - unfold getContentBounds. by destruct (contentBoundsCache w !! src).
Qed.

(** After a load that resolves, the image is in the cache under the
    original source. *)
Lemma loadImage_resolved_lookup net src w img w1 :
  loadImage net src w = (Some img, w1) → imageCache w1 !! src = Some img.
Proof.
  intros Hload.
  pose proof (loadImage_result net src w) as Hres.
  pose proof (loadImage_imageCache net src w) as Hcache.
  rewrite Hload in Hres, Hcache. simpl in Hres, Hcache.
  rewrite Hcache. destruct (imageCache w !! src) as [img0 |] eqn:Hc;
    [by rewrite Hc, Hres |].
  destruct (alternateTried net src w) as [path |].
  - destruct (fetch net path) as [img1 |].
    + injection Hres as ->. apply lookup_insert_eq.
    + rewrite <- Hres. apply lookup_insert_eq.
  - rewrite <- Hres. apply lookup_insert_eq.
Qed.

(** [isImageCached] and [getCachedImage] then see it. *)
Lemma loadImage_then_cached net src w img w1 :
  loadImage net src w = (Some img, w1) →
  getCachedImage src false w1 = Some img ∧ isImageCached src false w1 = true.
Proof.
  intros Hin%loadImage_resolved_lookup.
  unfold isImageCached, getCachedImage, cacheKeyOf.
  split; [done |]. apply bool_decide_eq_true. by rewrite Hin.
Qed.

(** A first call of [getContentBounds] scans once and stores the record. *)
Lemma getContentBounds_miss cv src img w :
  contentBoundsCache w !! src = None →
  let r := getContentBounds cv src img w in
  r.1 = analyzeContentBounds cv img ∧
  contentBoundsCache r.2 !! src = Some (analyzeContentBounds cv img) ∧
  scans r.2 = S (scans w).
Proof.
  intros Hb. unfold getContentBounds. rewrite Hb. simpl.
  split; [done |]. split; [apply lookup_insert_eq | done].
Qed.

(** ** The model on the sample inputs *)

Example filter_redAndBlue :
  filterBackgroundColor workingCanvas redAndBlue None =
    Some {| width := 2; height := 1; data := [0; 0; 0; 0; 0; 0; 255; 200] |}.
Proof. reflexivity. Qed.

Example filter_without_context :
  filterBackgroundColor
    {| context2d := false; originClean := true; encodes := true;
       premultiplied := true |}
    redAndBlue None = None.
Proof. reflexivity. Qed.

Example analyze_offCentre :
  analyzeContentBounds workingCanvas offCentre =
    {| minX := 1; minY := 1; maxX := 2; maxY := 1;
       contentWidth := 2; contentHeight := 1;
       centerOffsetX := 2 # 12; centerOffsetY := 2 # 8;
       contentRatioX := 2 # 3; contentRatioY := 1 # 2 |}.
Proof. reflexivity. Qed.

Example analyze_empty_image :
  analyzeContentBounds workingCanvas {| width := 0; height := 0; data := [] |} =
    wholeImage 0 0.
Proof. reflexivity. Qed.

Example getWebPPath_examples :
  getWebPPath "sprites/a.png" = Some "sprites/a.webp" ∧
  getWebPPath "a.png.png" = Some "a.png.webp" ∧
  getWebPPath "a.png?v=2" = None ∧
  getWebPPath "a.PNG" = None.
Proof. repeat split; reflexivity. Qed.

Example load_prefers_webp :
  (loadImage bothVariants "a.png" initialWorld).1 = Some offCentre ∧
  attempted bothVariants "a.png" initialWorld = ["a.webp"].
Proof. split; reflexivity. Qed.

Example load_offline_rejects :
  (loadImage offline "a.png" initialWorld).1 = None ∧
  attempted offline "a.png" initialWorld = ["a.png"] ∧
  webpSupported (loadImage offline "a.png" initialWorld).2 = Some false.
Proof. repeat split; reflexivity. Qed.

(** ** Loads that overlap *)

(** A call run to its end is the call resumed until it has settled, with
    no other call in between: five events at most. *)
Lemma loadImage_settle net src w :
  settle net 5 (startLoadImage src w).1 (startLoadImage src w).2 =
    (Settled (loadImage net src w).1, (loadImage net src w).2).
Proof.
  unfold startLoadImage, loadImage.
  destruct (imageCache w !! src) as [img |]; [done |].
  destruct (getWebPPath src) as [path |]; simpl;
    [| unfold loadImageDirect; by destruct (fetch net src)].
  destruct (negb (String.eqb path ""));
    [| simpl; unfold loadImageDirect; by destruct (fetch net src)].
  unfold await, tryAwait, checkWebPSupport, checkWebPSupportCall, probeSettled.
  destruct (webpSupported w) as [[|] |]; simpl.
  - unfold loadImageDirect. destruct (fetch net path); [done |].
    simpl. by destruct (fetch net src).
  - unfold loadImageDirect. by destruct (fetch net src).
  - destruct (match probeImage net with
              | Some (pw, ph) => (pw >? 0) && (ph >? 0)
              | None => false
              end); simpl.
    + unfold loadImageDirect. destruct (fetch net path); [done |].
      simpl. by destruct (fetch net src).
    + unfold loadImageDirect. by destruct (fetch net src).
Qed.

(** A call for a [.png] source that is not cached, made while no answer of
    the probe is stored, creates a probe image. *)
Lemma startLoadImage_probes base w :
  imageCache w !! (base +:+ ".png") = None →
  webpSupported w = None →
  startLoadImage (base +:+ ".png") w =
    (AwaitProbe (base +:+ ".png") (base +:+ ".webp"), countProbe w).
Proof.
  intros Hc Hs. unfold startLoadImage. rewrite Hc, getWebPPath_png. cbv zeta.
  rewrite (getWebPPath_truthy _ _ (getWebPPath_png base)).
  unfold checkWebPSupportCall. by rewrite Hs.
Qed.

(** Making a call stores no answer and caches nothing: the next call made
    before any event finds the module as the first did. *)
Lemma startLoadImage_webpSupported src w :
  webpSupported (startLoadImage src w).2 = webpSupported w ∧
  imageCache (startLoadImage src w).2 = imageCache w.
Proof.
  unfold startLoadImage.
  destruct (imageCache w !! src); [done |].
  destruct (getWebPPath src) as [path |]; [| done]. cbv zeta.
  destruct (truthy (Some path)); [| split; reflexivity].
  unfold checkWebPSupportCall.
  destruct (webpSupported w) eqn:Hs; simpl; by rewrite ?Hs.
Qed.

(** * The claims *)

(** ** Chroma filter *)

(** C1, the claim as stated, fails in two places.  For a bitmap without
    pixels no bitmap is returned: the promise rejects.  And the comparison
    is made on the rounded root: at the threshold [Math.sqrt(3)] the pixel
    (254, 1, 1), whose Euclidean distance to the background colour is the
    real root of 3 and exceeds that threshold, is cleared. *)
Lemma filterBackgroundColor_empty_or_rounded :
  filterBackgroundColor workingCanvas emptyImage None = None ∧
  ∃ out,
    filterBackgroundColor workingCanvas nearRed (Some (Math_sqrt 3)) = Some out ∧
    pixelAt (data nearRed) 0 = Some (254, 1, 1, 255) ∧
    (sqrt (IZR ((254 - 255) ^ 2 + (1 - 0) ^ 2 + (1 - 0) ^ 2))
       > Q2R (Math_sqrt 3))%R ∧
    pixelAt (data out) 0 = Some (0, 0, 0, 0).
Proof.
  split; [reflexivity |]. eexists. split; [reflexivity |].
  split; [reflexivity |]. split; [| reflexivity].
  change (IZR ((254 - 255) ^ 2 + (1 - 0) ^ 2 + (1 - 0) ^ 2)) with (IZR 3).
  set (q := Math_sqrt 3).
  assert (H0 : (0 <= Q2R q)%R).
  { rewrite <- RMicromega.Q2R_0. apply Qle_Rle, Math_sqrt_nonneg. }
  assert (Hsq : (Q2R q * Q2R q < IZR 3)%R).
  { rewrite <- Q2R_mult, <- Q2R_inject_Z. apply Qlt_Rlt. reflexivity. }
  apply Rlt_gt. rewrite <- (sqrt_square (Q2R q)) by done.
  apply sqrt_lt_1_alt. split; [| done]. by apply Rmult_le_pos.
Qed.

(** C1, amended. [filterBackgroundColor] rejects exactly when there is no 2D
    context, the canvas cannot be read or encoded, or the bitmap has no
    pixels.  Otherwise, for every image and every threshold (the default
    when none is given), it resolves with an image of the same width and
    height and with as many bytes, in which every pixel whose computed
    distance, the double [Math.sqrt] of the sum of the three squared
    differences to (255, 0, 0), is at most the threshold has alpha 0, and
    every pixel whose computed distance exceeds the threshold is the same
    four bytes as in the input.  For an integer threshold the computed
    distance can be read as the Euclidean distance, a real number. *)
Theorem filterBackgroundColor_thresholds cv img (threshold : option Q) :
  (filterBackgroundColor cv img threshold = None ↔
     context2d cv = false ∨ originClean cv = false ∨ encodes cv = false ∨
     width img = 0 ∨ height img = 0) ∧
  ∀ out,
    filterBackgroundColor cv img threshold = Some out →
    width out = width img ∧ height out = height img ∧
    length (data out) = length (data img) ∧
    ∀ p r g b a,
      pixelAt (data img) p = Some (r, g, b, a) →
      ((Math_sqrt ((r - 255) ^ 2 + (g - 0) ^ 2 + (b - 0) ^ 2)
          <= default COLOR_THRESHOLD threshold)%Q →
         ∃ r' g' b', pixelAt (data out) p = Some (r', g', b', 0)) ∧
      ((default COLOR_THRESHOLD threshold
          < Math_sqrt ((r - 255) ^ 2 + (g - 0) ^ 2 + (b - 0) ^ 2))%Q →
         pixelAt (data out) p = Some (r, g, b, a)) ∧
      ∀ z, 0 <= z <= 2 ^ 25 →
        (default COLOR_THRESHOLD threshold == inject_Z z)%Q →
        ((sqrt (IZR ((r - 255) ^ 2 + (g - 0) ^ 2 + (b - 0) ^ 2)) <= IZR z)%R →
           ∃ r' g' b', pixelAt (data out) p = Some (r', g', b', 0)) ∧
        ((sqrt (IZR ((r - 255) ^ 2 + (g - 0) ^ 2 + (b - 0) ^ 2)) > IZR z)%R →
           pixelAt (data out) p = Some (r, g, b, a)).
Proof.
  split; [apply filterBackgroundColor_rejects |].
  intros out Hout. apply filterBackgroundColor_Some in Hout as ->. simpl.
  split; [done |]. split; [done |].
  split; [by rewrite putImageData_length, filterLoop_length |].
  intros p r g b a Hin.
  rewrite (filtered_pixelAt cv _ _ _ _ Hin).
  set (t := default COLOR_THRESHOLD threshold).
  assert (Hclear : isBackground r g b t = true →
            ∃ r' g' b', Some (filteredPixel cv t (r, g, b, a))
                        = Some (r', g', b', 0)).
  { intros Hbg. unfold filteredPixel. rewrite Hbg.
    destruct (premultiplied cv && negb (a =? 0)); eauto. }
  assert (Hkeep : isBackground r g b t = false →
            Some (filteredPixel cv t (r, g, b, a)) = Some (r, g, b, a)).
  { intros Hbg. unfold filteredPixel. by rewrite Hbg. }
  split; [| split].
  - intros Hd. by apply Hclear, isBackground_true.
  - intros Hd. by apply Hkeep, isBackground_false.
  - intros z Hz Hzt.
    change ((r - 255) ^ 2 + (g - 0) ^ 2 + (b - 0) ^ 2)
      with (squaredDistance r g b).
    fold (colorDistance r g b).
    rewrite (isBackground_Qeq r g b _ _ Hzt) in Hclear, Hkeep.
    split; intros Hd.
    + apply Hclear, isBackground_integer; [done |].
      apply colorDistance_integer; [lia | done].
    + apply Hkeep, not_true_iff_false.
      rewrite isBackground_integer by done.
      rewrite <- colorDistance_integer by lia. lra.
Qed.

(** C10, the claim as stated, fails on the canvases of browsers, which
    are premultiplied: the opaque pixel of the background colour comes back
    as four zero bytes, its red byte is not the input's. *)
Lemma filterBackgroundColor_colour_lost :
  ∃ out,
    filterBackgroundColor workingCanvas redAndBlue None = Some out ∧
    pixelAt (data redAndBlue) 0 = Some (255, 0, 0, 255) ∧
    pixelAt (data out) 0 = Some (0, 0, 0, 0).
Proof. eexists. repeat split; reflexivity. Qed.

(** C10, amended. The loop of [filterBackgroundColor] writes alpha bytes
    only.  Every pixel of the output has as alpha the input's or 0, being 0
    exactly when the colour is within the threshold of RGB (255, 0, 0), and
    has the colour bytes of the input pixel at the same place, except that a
    pixel cleared from an alpha that was not 0 has the colour bytes 0 on a
    premultiplied canvas; so every pixel that is not transparent in the
    output is the input pixel.  The reference colour is the module
    constant, and a call without a threshold is a call with 155. *)
Theorem filterBackgroundColor_alpha_only cv img (threshold : option Q) :
  canvasWorks cv img →
  ∃ out,
    filterBackgroundColor cv img threshold = Some out ∧
    (∀ p r' g' b' a',
       pixelAt (data out) p = Some (r', g', b', a') →
       ∃ r g b a,
         pixelAt (data img) p = Some (r, g, b, a) ∧
         (a' = a ∨ a' = 0) ∧
         a' = (if Qle_bool
                    (Math_sqrt ((r - 255) ^ 2 + (g - 0) ^ 2 + (b - 0) ^ 2))
                    (default COLOR_THRESHOLD threshold)
               then 0 else a) ∧
         ((r', g', b') = (r, g, b) ∨
          (r', g', b') = (0, 0, 0) ∧ premultiplied cv = true ∧
          a ≠ 0 ∧ a' = 0) ∧
         (a' ≠ 0 → (r', g', b') = (r, g, b)) ∧
         (premultiplied cv = false → (r', g', b') = (r, g, b))) ∧
    BACKGROUND_COLOR = {| red := 255; green := 0; blue := 0 |} ∧
    COLOR_THRESHOLD = 155%Q ∧
    filterBackgroundColor cv img None =
      filterBackgroundColor cv img (Some COLOR_THRESHOLD).
Proof.
  intros Hcv. eexists. split; [by apply filterBackgroundColor_fulfilled |].
  simpl. repeat split; try done.
  intros p r' g' b' a' Hout.
  apply filtered_pixelAt_inv in Hout as ([[[r g] b] a] & Hin & Hpx).
  exists r, g, b, a. split; [done |].
  change (Qle_bool _ (default COLOR_THRESHOLD threshold))
    with (isBackground r g b (default COLOR_THRESHOLD threshold)).
  unfold filteredPixel in Hpx.
  destruct (isBackground r g b _);
    [| injection Hpx as -> -> -> ->; repeat split; tauto].
  destruct (premultiplied cv); simpl in Hpx;
    [| injection Hpx as -> -> -> ->; repeat split; tauto].
  destruct (Z.eqb_spec a 0) as [-> | Ha]; simpl in Hpx;
    injection Hpx as -> -> -> ->.
  - repeat split; tauto.
  - split; [tauto |]. split; [done |]. split; [by right |].
    split; [done | done].
Qed.

Lemma filterBackgroundColor_alpha_only_witness :
  ∃ out,
    filterBackgroundColor workingCanvas redAndBlue None = Some out ∧
    (∀ p r' g' b' a',
       pixelAt (data out) p = Some (r', g', b', a') →
       ∃ r g b a,
         pixelAt (data redAndBlue) p = Some (r, g, b, a) ∧
         (a' = a ∨ a' = 0) ∧
         a' = (if Qle_bool
                    (Math_sqrt ((r - 255) ^ 2 + (g - 0) ^ 2 + (b - 0) ^ 2))
                    155
               then 0 else a) ∧
         ((r', g', b') = (r, g, b) ∨
          (r', g', b') = (0, 0, 0) ∧ premultiplied workingCanvas = true ∧
          a ≠ 0 ∧ a' = 0) ∧
         (a' ≠ 0 → (r', g', b') = (r, g, b)) ∧
         (premultiplied workingCanvas = false → (r', g', b') = (r, g, b))) ∧
    BACKGROUND_COLOR = {| red := 255; green := 0; blue := 0 |} ∧
    COLOR_THRESHOLD = 155%Q ∧
    filterBackgroundColor workingCanvas redAndBlue None =
      filterBackgroundColor workingCanvas redAndBlue (Some COLOR_THRESHOLD).
Proof.
  apply (filterBackgroundColor_alpha_only workingCanvas redAndBlue None).
  unfold canvasWorks. simpl. repeat split; lia.
Defined.

(** ** Content bounds *)

(** C2. For every image with at least one pixel of alpha greater than 10,
    read from a working canvas, the record of [analyzeContentBounds] has as
    [minX], [maxX], [minY], [maxY] the least and greatest column and row of
    the pixels with alpha greater than 10; [contentWidth] and
    [contentHeight] are [max - min + 1]; [centerOffsetX] is
    [((minX + maxX + 1) / 2 - width / 2) / width], and likewise for Y;
    [contentRatioX] is [contentWidth / width], and likewise for Y. *)
Theorem analyzeContentBounds_content cv img :
  context2d cv = true → originClean cv = true →
  (∃ x y, contentPixel img x y) →
  let b := analyzeContentBounds cv img in
  (∀ x y, contentPixel img x y →
     minX b <= x <= maxX b ∧ minY b <= y <= maxY b) ∧
  (∃ y, contentPixel img (minX b) y) ∧
  (∃ y, contentPixel img (maxX b) y) ∧
  (∃ x, contentPixel img x (minY b)) ∧
  (∃ x, contentPixel img x (maxY b)) ∧
  contentWidth b = maxX b - minX b + 1 ∧
  contentHeight b = maxY b - minY b + 1 ∧
  (centerOffsetX b ==
     (inject_Z (minX b + maxX b + 1) / 2 - inject_Z (width img) / 2)
     / inject_Z (width img))%Q ∧
  (centerOffsetY b ==
     (inject_Z (minY b + maxY b + 1) / 2 - inject_Z (height img) / 2)
     / inject_Z (height img))%Q ∧
  (contentRatioX b == inject_Z (contentWidth b) / inject_Z (width img))%Q ∧
  (contentRatioY b == inject_Z (contentHeight b) / inject_Z (height img))%Q.
Proof.
  intros Hctx Hclean Hex b. subst b.
  rewrite (analyzeContentBounds_scanned cv img Hctx Hclean Hex).
  destruct Hex as (x0 & y0 & Hc0).
  destruct (scan_facts img) as (Hin & _).
  pose proof (Hin x0 y0 Hc0) as Hbox.
  destruct Hc0 as (Hx0 & Hy0 & _).
  set (bx := scan (width img) (height img) (data img)) in *.
  assert (Hguard : (boxMinX bx >? boxMaxX bx) || (boxMinY bx >? boxMaxY bx) = false).
  { apply orb_false_iff. rewrite !Z.gtb_ltb, !Z.ltb_ge. lia. }
  destruct (scan_box_attained img ltac:(lia) ltac:(lia) Hguard) as (B1 & B2 & B3 & B4).
  fold bx in B1, B2, B3, B4.
  unfold boundsOfBox. simpl.
  split; [exact Hin |].
  do 4 (split; [assumption |]).
  do 2 (split; [reflexivity |]).
  do 2 (split; [apply centerOffset_midpoint; lia |]).
  split; reflexivity.
Qed.

Lemma analyzeContentBounds_content_witness :
  let b := analyzeContentBounds workingCanvas offCentre in
  (∀ x y, contentPixel offCentre x y →
     minX b <= x <= maxX b ∧ minY b <= y <= maxY b) ∧
  (∃ y, contentPixel offCentre (minX b) y) ∧
  (∃ y, contentPixel offCentre (maxX b) y) ∧
  (∃ x, contentPixel offCentre x (minY b)) ∧
  (∃ x, contentPixel offCentre x (maxY b)) ∧
  contentWidth b = maxX b - minX b + 1 ∧
  contentHeight b = maxY b - minY b + 1 ∧
  (centerOffsetX b ==
     (inject_Z (minX b + maxX b + 1) / 2 - inject_Z (width offCentre) / 2)
     / inject_Z (width offCentre))%Q ∧
  (centerOffsetY b ==
     (inject_Z (minY b + maxY b + 1) / 2 - inject_Z (height offCentre) / 2)
     / inject_Z (height offCentre))%Q ∧
  (contentRatioX b == inject_Z (contentWidth b) / inject_Z (width offCentre))%Q ∧
  (contentRatioY b == inject_Z (contentHeight b) / inject_Z (height offCentre))%Q.
Proof.
  apply (analyzeContentBounds_content workingCanvas offCentre);
    [reflexivity | reflexivity |].
  exists 1, 1. unfold contentPixel. simpl.
  split; [lia |]. split; [lia |].
  exists 11. split; [reflexivity | lia].
Defined.

(** C3, the claim as stated, fails on the fallback record: for one
    transparent pixel [contentWidth] and [contentHeight] are 1 while
    [maxX - minX + 1] and [maxY - minY + 1] are 2. *)
Lemma analyzeContentBounds_fallback_not_derived :
  contentWidth (analyzeContentBounds workingCanvas transparentPixel) = 1 ∧
  maxX (analyzeContentBounds workingCanvas transparentPixel)
    - minX (analyzeContentBounds workingCanvas transparentPixel) + 1 = 2 ∧
  contentHeight (analyzeContentBounds workingCanvas transparentPixel) = 1 ∧
  maxY (analyzeContentBounds workingCanvas transparentPixel)
    - minY (analyzeContentBounds workingCanvas transparentPixel) + 1 = 2.
Proof. repeat split; reflexivity. Qed.

(** C3, amended. For every image, the record of [analyzeContentBounds] is
    either the whole-image fallback record, in which [contentWidth] is
    [maxX - minX] and [contentHeight] is [maxY - minY], or a record in which
    [contentWidth] is [maxX - minX + 1] and [contentHeight] is
    [maxY - minY + 1] and whose four bounds are columns and rows of content
    pixels of the image. *)
Theorem analyzeContentBounds_derivation cv img :
  0 <= width img → 0 <= height img →
  let b := analyzeContentBounds cv img in
  (b = wholeImage (width img) (height img) ∧
   contentWidth b = maxX b - minX b ∧
   contentHeight b = maxY b - minY b) ∨
  (contentWidth b = maxX b - minX b + 1 ∧
   contentHeight b = maxY b - minY b + 1 ∧
   (∃ y, contentPixel img (minX b) y) ∧
   (∃ y, contentPixel img (maxX b) y) ∧
   (∃ x, contentPixel img x (minY b)) ∧
   (∃ x, contentPixel img x (maxY b))).
Proof.
  intros Hw Hh b. subst b.
  destruct (analyzeContentBounds_cases cv img)
    as [-> | (_ & _ & Hw0 & Hh0 & Hguard & ->)].
  - left. simpl. repeat split; lia.
  - right.
    destruct (scan_box_attained img ltac:(lia) ltac:(lia) Hguard) as (B1 & B2 & B3 & B4).
    unfold boundsOfBox. simpl. repeat split; done.
Qed.

Lemma analyzeContentBounds_derivation_witness :
  (analyzeContentBounds workingCanvas offCentre
     = wholeImage 3 2 ∧
   contentWidth (analyzeContentBounds workingCanvas offCentre)
     = maxX (analyzeContentBounds workingCanvas offCentre)
       - minX (analyzeContentBounds workingCanvas offCentre) ∧
   contentHeight (analyzeContentBounds workingCanvas offCentre)
     = maxY (analyzeContentBounds workingCanvas offCentre)
       - minY (analyzeContentBounds workingCanvas offCentre)) ∨
  (contentWidth (analyzeContentBounds workingCanvas offCentre)
     = maxX (analyzeContentBounds workingCanvas offCentre)
       - minX (analyzeContentBounds workingCanvas offCentre) + 1 ∧
   contentHeight (analyzeContentBounds workingCanvas offCentre)
     = maxY (analyzeContentBounds workingCanvas offCentre)
       - minY (analyzeContentBounds workingCanvas offCentre) + 1 ∧
   (∃ y, contentPixel offCentre (minX (analyzeContentBounds workingCanvas offCentre)) y) ∧
   (∃ y, contentPixel offCentre (maxX (analyzeContentBounds workingCanvas offCentre)) y) ∧
   (∃ x, contentPixel offCentre x (minY (analyzeContentBounds workingCanvas offCentre))) ∧
   (∃ x, contentPixel offCentre x (maxY (analyzeContentBounds workingCanvas offCentre)))).
Proof.
  apply (analyzeContentBounds_derivation workingCanvas offCentre); simpl; lia.
Defined.

(** C4. For every image in which every pixel has alpha at most 10,
    [analyzeContentBounds] returns the record with [minX = 0], [minY = 0],
    [maxX = width], [maxY = height], [contentWidth = width],
    [contentHeight = height], both offsets 0 and both ratios 1; the
    function has no failure. *)
Theorem analyzeContentBounds_no_content cv img :
  0 <= width img → 0 <= height img →
  (∀ x y alpha,
     0 <= x < width img → 0 <= y < height img →
     alphaAt img x y = Some alpha → alpha <= 10) →
  analyzeContentBounds cv img =
    {| minX := 0; minY := 0; maxX := width img; maxY := height img;
       contentWidth := width img; contentHeight := height img;
       centerOffsetX := 0; centerOffsetY := 0;
       contentRatioX := 1; contentRatioY := 1 |}.
Proof.
  intros Hw Hh Hall.
  destruct (analyzeContentBounds_cases cv img)
    as [-> | (_ & _ & Hw0 & Hh0 & Hguard & _)]; [done |].
  rewrite scan_no_content in Hguard.
  - simpl in Hguard. apply orb_false_iff in Hguard as [Hx _].
    rewrite Z.gtb_ltb, Z.ltb_ge in Hx. lia.
  - intros x y (Hx & Hy & alpha & Ha & Hgt).
    specialize (Hall x y alpha Hx Hy Ha). lia.
Qed.

Lemma analyzeContentBounds_no_content_witness :
  analyzeContentBounds workingCanvas transparentPixel =
    {| minX := 0; minY := 0; maxX := 1; maxY := 1;
       contentWidth := 1; contentHeight := 1;
       centerOffsetX := 0; centerOffsetY := 0;
       contentRatioX := 1; contentRatioY := 1 |}.
Proof.
  apply (analyzeContentBounds_no_content workingCanvas transparentPixel);
    simpl; try lia.
  intros x y alpha Hx Hy.
  assert (x = 0) as -> by lia. assert (y = 0) as -> by lia.
  unfold alphaAt. simpl. intros [= <-]. lia.
Defined.

(** C7. For every image of positive width and height, both centre offsets
    of the record of [analyzeContentBounds] lie between -1/2 and 1/2. *)
Theorem analyzeContentBounds_centerOffset_range cv img :
  0 < width img → 0 < height img →
  let b := analyzeContentBounds cv img in
  (-(1 # 2) <= centerOffsetX b <= 1 # 2)%Q ∧
  (-(1 # 2) <= centerOffsetY b <= 1 # 2)%Q.
Proof.
  intros Hw Hh b. subst b.
  destruct (analyzeContentBounds_cases cv img)
    as [-> | (_ & _ & _ & _ & Hguard & ->)].
  - simpl. repeat split; done.
  - destruct (scan_box_attained img Hw Hh Hguard)
      as ([y1 (X1 & _)] & [y2 (X2 & _)] & [x1 (_ & Y1 & _)] & [x2 (_ & Y2 & _)]).
    apply orb_false_iff in Hguard as [Hx Hy].
    rewrite Z.gtb_ltb, Z.ltb_ge in Hx, Hy.
    unfold boundsOfBox. simpl.
    split; apply centerOffset_bounds; lia.
Qed.

Lemma analyzeContentBounds_centerOffset_range_witness :
  (-(1 # 2) <= centerOffsetX (analyzeContentBounds workingCanvas offCentre) <= 1 # 2)%Q ∧
  (-(1 # 2) <= centerOffsetY (analyzeContentBounds workingCanvas offCentre) <= 1 # 2)%Q.
Proof.
  apply (analyzeContentBounds_centerOffset_range workingCanvas offCentre);
    simpl; lia.
Defined.

(** ** Loader *)

(** C5. [loadImage] rejects only when every source it tried failed to load:
    the original, and before it the alternate whenever one is tried.  A
    failure of the alternate alone is never surfaced: if the original
    loads, the promise resolves.  A rejection leaves the image cache as it
    was and invokes no callback; a load that was not answered from the
    cache and resolves invokes every registered callback exactly once. *)
Theorem loadImage_rejection_and_notification net src w res w' :
  loadImage net src w = (res, w') →
  (res = None →
     fetch net src = None ∧
     src ∈ attempted net src w ∧
     (∀ path, alternateTried net src w = Some path →
              path ∈ attempted net src w) ∧
     (∀ s, s ∈ attempted net src w → fetch net s = None) ∧
     imageCache w' = imageCache w ∧
     notified w' = notified w) ∧
  (∀ img, fetch net src = Some img → is_Some res) ∧
  (imageCache w !! src = None → is_Some res →
     notified w' = notified w ++ imageLoadCallbacks w).
Proof.
  intros Hload.
  pose proof (loadImage_result net src w) as Hres.
  pose proof (loadImage_attempted net src w) as Hatt.
  pose proof (loadImage_imageCache net src w) as Hcache.
  pose proof (loadImage_notified net src w) as Hnot.
  rewrite Hload in Hres, Hcache, Hnot. simpl in Hres, Hcache, Hnot.
  split; [| split].
  - intros ->. rewrite Hatt.
    destruct (imageCache w !! src) as [img |]; [done |].
    destruct (alternateTried net src w) as [path |].
    + destruct (fetch net path) as [img |] eqn:Hf; [done |].
      rewrite <- Hres in Hcache.
      split; [done |]. split; [apply elem_of_cons; right; apply elem_of_cons; by left |].
      split; [intros ? [= <-]; apply elem_of_cons; by left |].
      split; [| done].
      intros s Hs. apply elem_of_cons in Hs as [-> | Hs]; [done |].
      apply elem_of_cons in Hs as [-> | Hs]; [done |].
      by apply elem_of_nil in Hs.
    + rewrite <- Hres in Hcache.
      split; [done |]. split; [apply elem_of_cons; by left |].
      split; [done |]. split; [| done].
      intros s Hs. apply elem_of_cons in Hs as [-> | Hs]; [done |].
      by apply elem_of_nil in Hs.
  - intros img Hf. rewrite Hres, Hf.
    destruct (imageCache w !! src); [done |].
    destruct (alternateTried net src w) as [path |]; [| done].
    by destruct (fetch net path).
  - intros Hmiss [img ->]. by rewrite Hmiss in Hnot.
Qed.

(** A load that falls back to the original and resolves, and a load that
    rejects, both seen through C5. *)
Lemma loadImage_rejection_and_notification_witness :
  (fetch offline "a.png" = None ∧
   "a.png" ∈ attempted offline "a.png" (onImageLoaded 7 initialWorld) ∧
   imageCache (loadImage offline "a.png" (onImageLoaded 7 initialWorld)).2 = ∅ ∧
   notified (loadImage offline "a.png" (onImageLoaded 7 initialWorld)).2 = []) ∧
  notified (loadImage pngOnly "a.png" (onImageLoaded 7 initialWorld)).2 = [7%nat].
Proof.
  split.
  - destruct (loadImage_rejection_and_notification offline "a.png"
                (onImageLoaded 7 initialWorld) None
                (loadImage offline "a.png" (onImageLoaded 7 initialWorld)).2
                eq_refl) as (Hrej & _).
    destruct (Hrej eq_refl) as (H1 & H2 & _ & _ & H5 & H6).
    exact (conj H1 (conj H2 (conj H5 H6))).
  - destruct (loadImage_rejection_and_notification pngOnly "a.png"
                (onImageLoaded 7 initialWorld) (Some redAndBlue)
                (loadImage pngOnly "a.png" (onImageLoaded 7 initialWorld)).2
                eq_refl) as (_ & _ & Hok).
    exact (Hok eq_refl (ex_intro _ redAndBlue eq_refl)).
Defined.

(** C6. After every load that resolves, the image is in the cache under
    the original source, on whichever path it was loaded; a second load of
    the same source resolves with the same image and leaves the world,
    and so the log of requests, as it is; and after [clearImageCache] a
    load of the source makes a request again. *)
Theorem loadImage_caches_under_source net src w img w1 :
  loadImage net src w = (Some img, w1) →
  imageCache w1 !! src = Some img ∧
  (∀ net', loadImage net' src w1 = (Some img, w1)) ∧
  (∀ net', attempted net' src w1 = []) ∧
  (∀ net', ∃ s rest,
     attempted net' src (clearImageCache w1) = s :: rest ∧
     requested (loadImage net' src (clearImageCache w1)).2 =
       requested w1 ++ s :: rest).
Proof.
  intros Hin%loadImage_resolved_lookup.
  split; [done |]. split; [| split].
  - intros net'. by apply loadImage_hit.
  - intros net'. rewrite loadImage_attempted. by rewrite Hin.
  - intros net'. rewrite loadImage_requested, loadImage_attempted. simpl.
    rewrite lookup_empty.
    destruct (alternateTried net' src (clearImageCache w1)) as [path |];
      [destruct (fetch net' path) |]; eauto.
Qed.

(** The fallback path: [a.webp] fails, [a.png] loads and is cached under
    ["a.png"]. *)
Lemma loadImage_caches_under_source_witness :
  attempted pngOnly "a.png" initialWorld = ["a.webp"; "a.png"] ∧
  imageCache (loadImage pngOnly "a.png" initialWorld).2 !! "a.png"
    = Some redAndBlue ∧
  (∀ net', loadImage net' "a.png" (loadImage pngOnly "a.png" initialWorld).2
           = (Some redAndBlue, (loadImage pngOnly "a.png" initialWorld).2)).
Proof.
  split; [reflexivity |].
  destruct (loadImage_caches_under_source pngOnly "a.png" initialWorld
              redAndBlue (loadImage pngOnly "a.png" initialWorld).2 eq_refl)
    as (H1 & H2 & _).
  exact (conj H1 H2).
Defined.

(** ** Format negotiation *)

(** C8, at the failing input: two loads of [.png] sources made one after
    the other on a fresh module, before the first probe image has loaded,
    as [preloadCustomBuildingImages] makes them.  Each call finds no stored
    answer and creates a probe image of its own, so the probe runs twice,
    where the claim has it run one time and the comment on [webpSupported]
    says "detected once on first use".  Both loads resolve and the answer
    is stored; the same loads made one after the other's end probe once. *)
Theorem overlapping_loads_probe_twice :
  let started :=
    runEvents twoSprites [Start "a.png"; Start "b.png"] ([], initialWorld) in
  let ended := runEvents twoSprites twoLoadsAtOnce ([], initialWorld) in
  started.1 = [AwaitProbe "a.png" "a.webp"; AwaitProbe "b.png" "b.webp"] ∧
  probes started.2 = 2%nat ∧
  webpSupported started.2 = None ∧
  ended.1 = [Settled (Some redAndBlue); Settled (Some offCentre)] ∧
  probes ended.2 = 2%nat ∧
  webpSupported ended.2 = Some true ∧
  probes (loadImage twoSprites "b.png"
            (loadImage twoSprites "a.png" initialWorld).2).2 = 1%nat.
Proof. repeat split; reflexivity. Qed.

(** The negotiation, one call at a time, has no failure.  The probe always
    resolves, its
    answer is stored, a probe that cannot decode the test image answers
    [false], and once the answer is stored no operation of the module
    probes again or changes it.  For a source that does not end in
    [".png"] there is no alternate and a load that misses the cache is
    [loadImageDirect] on the source itself.  For a source [base.png] the
    alternate is [base.webp]; a load requests nothing but these two, and
    requests the alternate only when the stored answer of the probe is
    [true]. *)
Theorem webp_negotiation net src w :
  (∃ b, checkWebPSupport net w = (Some b, (checkWebPSupport net w).2) ∧
        webpSupported (checkWebPSupport net w).2 = Some b ∧
        (webpSupported w = None → probeImage net = None → b = false)) ∧
  (∀ b, webpSupported w = Some b →
        (∀ net', checkWebPSupport net' w = (Some b, w)) ∧
        (∀ c, webpSupported (run c w) = Some b ∧ probes (run c w) = probes w)) ∧
  ((∀ base, src ≠ base +:+ ".png") →
     getWebPPath src = None ∧
     (imageCache w !! src = None →
        loadImage net src w = loadImageDirect net src w ∧
        attempted net src w = [src])) ∧
  (∀ base, src = base +:+ ".png" →
     getWebPPath src = Some (base +:+ ".webp") ∧
     (∀ s, s ∈ attempted net src w → s = src ∨ s = base +:+ ".webp") ∧
     (base +:+ ".webp" ∈ attempted net src w →
        webpSupported (loadImage net src w).2 = Some true)).
Proof.
  split; [| split; [| split]].
  - destruct (checkWebPSupport_resolves net w) as (b & Hb & Hs).
    exists b. split; [done |]. split; [done |].
    intros Hnone Hprobe. unfold checkWebPSupport, checkWebPSupportCall, probeSettled in Hs.
    rewrite Hnone, Hprobe in Hs. simpl in Hs. congruence.
  - intros b Hs. split.
    + intros net'. by apply checkWebPSupport_known.
    + intros c. by apply run_keeps_probe.
  - intros Hno. pose proof (getWebPPath_other src Hno) as Hp.
    split; [done |]. intros Hc.
    split; [by apply loadImage_no_alternate |].
    rewrite loadImage_attempted, Hc. unfold alternateTried. by rewrite Hp.
  - intros base ->. pose proof (getWebPPath_png base) as Hp.
    split; [done |].
    destruct (loadImage_webpSupported net (base +:+ ".png") w) as [Hsup _].
    rewrite loadImage_attempted. unfold alternateTried. rewrite Hp.
    rewrite Hp in Hsup.
    destruct (imageCache w !! (base +:+ ".png")) as [img |].
    { split; intros; by apply elem_of_nil in H. }
    assert (Hne : base +:+ ".webp" ≠ base +:+ ".png").
    { intros Heq. by apply (inj (String.app base)) in Heq. }
    rewrite Hsup.
    destruct (webpSupported (checkWebPSupport net w).2) as [[|] |].
    + split; [| done].
      destruct (fetch net (base +:+ ".webp")); intros s Hs;
        repeat (apply elem_of_cons in Hs as [-> | Hs]; [tauto |]);
        by apply elem_of_nil in Hs.
    + split; [intros s Hs | intros Hs];
        apply list_elem_of_singleton in Hs; [tauto | done].
    + split; [intros s Hs | intros Hs];
        apply list_elem_of_singleton in Hs; [tauto | done].
Qed.

(** For ["a.png"], in a browser that decodes WebP, on a server without
    [a.webp]: the alternate is ["a.webp"], it is requested first, and the
    answer of the probe is stored. *)
Lemma webp_negotiation_witness :
  getWebPPath "a.png" = Some "a.webp" ∧
  (∀ s, s ∈ attempted pngOnly "a.png" initialWorld →
        s = "a.png" ∨ s = "a.webp") ∧
  webpSupported (loadImage pngOnly "a.png" initialWorld).2 = Some true.
Proof.
  destruct (webp_negotiation pngOnly "a.png" initialWorld) as (_ & _ & _ & Hpng).
  destruct (Hpng "a" eq_refl) as (H1 & H2 & H3).
  split; [exact H1 |]. split; [exact H2 |].
  apply H3. change (attempted pngOnly "a.png" initialWorld) with ["a.webp"; "a.png"].
  apply elem_of_cons. by left.
Defined.

(** ** Cache of content bounds *)

(** C9. When the content-bounds cache holds a record for a source,
    [getContentBounds] returns that record for every image and every
    canvas, and leaves the world as it is: nothing is scanned and nothing
    is stored.  The two caches are independent: [loadImage] never changes
    the content-bounds cache and [getContentBounds] never changes the
    image cache.  No operation but [clearImageCache] removes or replaces
    the record, and [clearImageCache] empties the cache. *)
Theorem getContentBounds_cached cv src img w bounds :
  contentBoundsCache w !! src = Some bounds →
  getContentBounds cv src img w = (bounds, w) ∧
  (∀ cv' img', getContentBounds cv' src img' w = (bounds, w)) ∧
  (∀ net s, contentBoundsCache (loadImage net s w).2 = contentBoundsCache w) ∧
  (∀ cv' s img', imageCache (getContentBounds cv' s img' w).2 = imageCache w) ∧
  (∀ c, isClear c = false →
        contentBoundsCache (run c w) !! src = Some bounds) ∧
  contentBoundsCache (clearImageCache w) = ∅.
Proof.
  intros Hb.
  assert (Hhit : ∀ cv' img', getContentBounds cv' src img' w = (bounds, w)).
  { intros cv' img'. unfold getContentBounds. by rewrite Hb. }
  split; [apply Hhit |]. split; [apply Hhit |].
  split; [| split; [| split]].
  - intros net s. apply loadImage_frame.
  - intros cv' s img'. unfold getContentBounds.
    by destruct (contentBoundsCache w !! s).
  - intros c Hc. by apply run_keeps_bounds.
  - done.
Qed.

(** The bounds computed for [offCentre] are returned for ["a.png"] when
    asked with another image. *)
Lemma getContentBounds_cached_witness :
  getContentBounds workingCanvas "a.png" transparentPixel
    (getContentBounds workingCanvas "a.png" offCentre initialWorld).2
  = (analyzeContentBounds workingCanvas offCentre,
     (getContentBounds workingCanvas "a.png" offCentre initialWorld).2).
Proof.
  apply (getContentBounds_cached workingCanvas "a.png" transparentPixel
           (getContentBounds workingCanvas "a.png" offCentre initialWorld).2
           (analyzeContentBounds workingCanvas offCentre)).
  simpl. apply lookup_insert_eq.
Defined.

(** * Further properties of the image utilities *)

(** ** The chroma filter, byte by byte *)

Section FilterBytes.
Variable threshold : Q.

(** Only the alpha positions reached by the loop can change. *)
Lemma filterLoop_lookup_other fuel : ∀ i d j,
  (∀ m, j ≠ (i + 4 * m + 3)%nat) →
  filterLoop fuel threshold i d !! j = d !! j.
Proof.
  induction fuel as [| fuel IH]; intros i d j Hj; cbn [filterLoop]; [done |].
  destruct (i <? length d)%nat; [| done].
  rewrite IH.
  - apply filterStep_lookup_ne. specialize (Hj 0%nat). lia.
  - intros m. specialize (Hj (S m)). lia.
Qed.

(** The whole output, position by position. *)
Lemma filterLoop_lookup d j :
  filterLoop (length d) threshold 0 d !! j =
    match d !! j with
    | None => None
    | Some a =>
        if (j mod 4 =? 3)%nat then
          match d !! (j - 3)%nat, d !! (j - 2)%nat, d !! (j - 1)%nat with
          | Some r, Some g, Some b =>
              Some (if isBackground r g b threshold then 0 else a)
          | _, _, _ => Some a
          end
        else Some a
    end.
Proof.
  destruct (d !! j) as [a |] eqn:Ha.
  - pose proof (lookup_lt_Some _ _ _ Ha) as Hlt.
    destruct (Nat.eqb_spec (j mod 4) 3) as [Hmod | Hmod].
    + pose proof (Nat.div_mod_eq j 4) as Hdiv.
      set (m := (j / 4)%nat) in *.
      assert (Hj : j = (0 + 4 * m + 3)%nat) by lia.
      destruct (lookup_lt_is_Some_2 d (j - 3)%nat) as [r Hr]; [lia |].
      destruct (lookup_lt_is_Some_2 d (j - 2)%nat) as [g Hg]; [lia |].
      destruct (lookup_lt_is_Some_2 d (j - 1)%nat) as [b Hb]; [lia |].
      rewrite Hr, Hg, Hb.
      assert (Hm : (m < length d)%nat) by lia.
      destruct (filterLoop_pixel threshold (length d) 0%nat d m r g b a Hm)
        as (_ & _ & _ & Hout).
      * by replace (0 + 4 * m)%nat with (j - 3)%nat by lia.
      * by replace (0 + 4 * m + 1)%nat with (j - 2)%nat by lia.
      * by replace (0 + 4 * m + 2)%nat with (j - 1)%nat by lia.
      * by rewrite <- Hj.
      * by rewrite <- Hj in Hout.
    + rewrite filterLoop_lookup_other; [done |].
      intros m ->. apply Hmod.
      replace (0 + 4 * m + 3)%nat with (3 + m * 4)%nat by lia.
      by rewrite Nat.Div0.mod_add.
  - apply lookup_ge_None. rewrite filterLoop_length.
    by apply lookup_ge_None in Ha.
Qed.
End FilterBytes.

(** Filtering with [s] what was filtered with [t] is filtering once with
    the greater of the two. *)
Lemma filterLoop_compose (s t : Q) d :
  filterLoop (length (filterLoop (length d) t 0 d)) s 0
    (filterLoop (length d) t 0 d) =
  filterLoop (length d) (if Qle_bool s t then t else s) 0 d.
Proof.
  apply list_eq. intros j.
  rewrite !filterLoop_lookup.
  destruct (d !! j) as [a |] eqn:Ha; [| done].
  destruct (j mod 4 =? 3)%nat eqn:Hmod; [| done].
  assert (H3 : ((j - 3) mod 4 =? 3)%nat = false).
  { apply Nat.eqb_eq in Hmod. apply Nat.eqb_neq.
    destruct (le_lt_dec 3 j) as [Hge | Hlt].
    - pose proof (Nat.div_mod_eq j 4) as Hdiv.
      replace (j - 3)%nat with (0 + (j / 4) * 4)%nat by lia.
      rewrite Nat.Div0.mod_add. done.
    - replace (j - 3)%nat with 0%nat by lia. done. }
  assert (H2 : ((j - 2) mod 4 =? 3)%nat = false).
  { apply Nat.eqb_eq in Hmod. apply Nat.eqb_neq.
    pose proof (Nat.div_mod_eq j 4) as Hdiv.
    replace (j - 2)%nat with (1 + (j / 4) * 4)%nat by lia.
    rewrite Nat.Div0.mod_add. done. }
  assert (H1 : ((j - 1) mod 4 =? 3)%nat = false).
  { apply Nat.eqb_eq in Hmod. apply Nat.eqb_neq.
    pose proof (Nat.div_mod_eq j 4) as Hdiv.
    replace (j - 1)%nat with (2 + (j / 4) * 4)%nat by lia.
    rewrite Nat.Div0.mod_add. done. }
  rewrite H3, H2, H1.
  destruct (d !! (j - 3)%nat) as [r |]; [| done].
  destruct (d !! (j - 2)%nat) as [g |]; [| done].
  destruct (d !! (j - 1)%nat) as [b |]; [| done].
  f_equal.
  destruct (Qle_bool s t) eqn:Hle.
  - apply Qle_bool_iff in Hle.
    destruct (isBackground r g b t) eqn:Ht; [by destruct (isBackground r g b s) |].
    destruct (isBackground r g b s) eqn:Hs; [| done].
    by rewrite (isBackground_mono r g b s t Hle Hs) in Ht.
  - assert (Hts : (t <= s)%Q).
    { destruct (Qlt_le_dec t s) as [Hlt | Hge]; [by apply Qlt_le_weak |].
      apply Qle_bool_iff in Hge. congruence. }
    destruct (isBackground r g b t) eqn:Ht.
    + by rewrite (isBackground_mono r g b t s Hts Ht).
    + done.
Qed.

(** A byte of the output is the byte of the input at the same place, or 0. *)
Lemma filterLoop_byte t d j a' :
  filterLoop (length d) t 0 d !! j = Some a' →
  ∃ a, d !! j = Some a ∧ (a' = a ∨ a' = 0).
Proof.
  rewrite filterLoop_lookup.
  destruct (d !! j) as [a |]; [| done]. intros Hout. exists a. split; [done |].
  destruct (j mod 4 =? 3)%nat; [| left; congruence].
  destruct (d !! (j - 3)%nat), (d !! (j - 2)%nat), (d !! (j - 1)%nat);
    try (left; congruence).
  destruct (isBackground _ _ _ _); [right | left]; congruence.
Qed.

Lemma isBackground_negative r g b (t : Q) :
  (t < 0)%Q → isBackground r g b t = false.
Proof.
  intros Ht. apply isBackground_false.
  apply Qlt_le_trans with 0%Q; [done | apply Math_sqrt_nonneg].
Qed.

Lemma isBackground_default_far r g b :
  r < 100 ∨ 155 < g ∨ 155 < b →
  isBackground r g b COLOR_THRESHOLD = false.
Proof.
  intros Hfar. change COLOR_THRESHOLD with (inject_Z 155).
  apply not_true_iff_false. rewrite isBackground_integer by lia.
  unfold squaredDistance. simpl. rewrite !Z.pow_2_r.
  pose proof (Z.square_nonneg (r - 255)).
  pose proof (Z.square_nonneg (g - 0)).
  pose proof (Z.square_nonneg (b - 0)).
  nia.
Qed.

(** ** The resolved image, byte by byte *)

(** Writing back what was read changes nothing. *)
Lemma putImageData_same cv d : putImageData cv d d = d.
Proof.
  apply list_eq. intros j. rewrite putImageData_lookup.
  destruct (d !! j) as [x |]; [| done].
  cbn [fmap option_fmap option_map]. f_equal.
  unfold alphaCleared.
  destruct (d !! (4 * (j / 4) + 3)%nat) as [a |]; cbn [negb andb];
    [destruct (a =? 0); cbn [negb andb] |]; by rewrite andb_false_r.
Qed.

(** The bytes after the last whole pixel are left as they are. *)
Lemma filtered_trailing cv t d j :
  (length d <= 4 * (j / 4) + 3)%nat →
  putImageData cv d (filterLoop (length d) t 0 d) !! j = d !! j.
Proof.
  intros Hlen. rewrite putImageData_lookup.
  assert (Hclear : alphaCleared d (filterLoop (length d) t 0 d) (j / 4) = false).
  { unfold alphaCleared. by rewrite (lookup_ge_None_2 d) by done. }
  rewrite Hclear, andb_false_r, filterLoop_lookup.
  destruct (d !! j) as [a |] eqn:Ha; [| done].
  destruct (Nat.eqb_spec (j mod 4) 3) as [Hmod | Hmod]; [| done].
  apply lookup_lt_Some in Ha.
  pose proof (Nat.div_mod_eq j 4). lia.
Qed.

(** A byte of the output is the byte of the input at the same place, or 0. *)
Lemma filtered_byte cv t d j a' :
  putImageData cv d (filterLoop (length d) t 0 d) !! j = Some a' →
  ∃ a, d !! j = Some a ∧ (a' = a ∨ a' = 0).
Proof.
  rewrite putImageData_lookup.
  destruct (filterLoop (length d) t 0 d !! j) as [x |] eqn:Hx; [| done].
  simpl. intros [= <-].
  apply filterLoop_byte in Hx as (a & Ha & Hor). exists a. split; [done |].
  destruct (premultiplied cv && _); [by right | done].
Qed.

(** Two buffers with the same whole pixels and the same bytes after them
    are equal. *)
Lemma pixels_ext (d1 d2 : list Z) :
  length d1 = length d2 →
  (∀ p, (4 * p + 3 < length d1)%nat → pixelAt d1 p = pixelAt d2 p) →
  (∀ j, (length d1 <= 4 * (j / 4) + 3)%nat → d1 !! j = d2 !! j) →
  d1 = d2.
Proof.
  intros Hlen Hpx Htail. apply list_eq. intros j.
  destruct (le_lt_dec (length d1) (4 * (j / 4) + 3)) as [Hge | Hlt];
    [by apply Htail |].
  specialize (Hpx _ Hlt).
  destruct (lookup_lt_is_Some_2 d1 (4 * (j / 4))%nat) as [r Hr]; [lia |].
  destruct (lookup_lt_is_Some_2 d1 (4 * (j / 4) + 1)%nat) as [g Hg]; [lia |].
  destruct (lookup_lt_is_Some_2 d1 (4 * (j / 4) + 2)%nat) as [b Hb]; [lia |].
  destruct (lookup_lt_is_Some_2 d1 (4 * (j / 4) + 3)%nat) as [a Ha]; [lia |].
  assert (H1 : pixelAt d1 (j / 4) = Some (r, g, b, a)) by by apply pixelAt_Some.
  rewrite H1 in Hpx. symmetry in Hpx.
  apply pixelAt_Some in Hpx as (Hr' & Hg' & Hb' & Ha').
  pose proof (Nat.div_mod_eq j 4) as Hdiv.
  pose proof (Nat.mod_upper_bound j 4 ltac:(lia)) as Hmod.
  set (p := (j / 4)%nat) in *. clearbody p.
  destruct (j mod 4)%nat as [| [| [| [| k]]]]; [| | | | lia].
  - assert (j = (4 * p)%nat) as -> by lia. congruence.
  - assert (j = (4 * p + 1)%nat) as -> by lia. congruence.
  - assert (j = (4 * p + 2)%nat) as -> by lia. congruence.
  - assert (j = (4 * p + 3)%nat) as -> by lia. congruence.
Qed.

(** What two passes make of a pixel is what one pass with the greater
    threshold makes of it. *)
Lemma filteredPixel_compose cv (s t : Q) px :
  filteredPixel cv s (filteredPixel cv t px) =
    filteredPixel cv (if Qle_bool s t then t else s) px.
Proof.
  destruct px as [[[r g] b] a].
  assert (Hmax : isBackground r g b (if Qle_bool s t then t else s)
                 = isBackground r g b t || isBackground r g b s).
  { destruct (Qle_bool s t) eqn:Hle.
    - apply Qle_bool_iff in Hle.
      destruct (isBackground r g b t) eqn:Ht; [done |].
      destruct (isBackground r g b s) eqn:Hs; [| done].
      by rewrite (isBackground_mono r g b s t Hle Hs) in Ht.
    - assert (Hts : (t <= s)%Q).
      { destruct (Qlt_le_dec t s) as [Hlt | Hge]; [by apply Qlt_le_weak |].
        apply Qle_bool_iff in Hge. congruence. }
      destruct (isBackground r g b t) eqn:Ht; [| done].
      by rewrite (isBackground_mono r g b t s Hts Ht). }
  unfold filteredPixel at 2 3. rewrite Hmax. clear Hmax.
  destruct (isBackground r g b t); simpl.
  - destruct (premultiplied cv && negb (a =? 0)); unfold filteredPixel;
      change (negb (0 =? 0)) with false; rewrite andb_false_r;
      by destruct (isBackground _ _ _ s).
  - unfold filteredPixel. by destruct (isBackground r g b s).
Qed.

(** Filtering with [s] the image filtered with [t] gives the bytes of one
    pass with the greater of the two. *)
Lemma filtered_compose cv (s t : Q) d :
  let once := putImageData cv d (filterLoop (length d) t 0 d) in
  putImageData cv once (filterLoop (length once) s 0 once) =
    putImageData cv d
      (filterLoop (length d) (if Qle_bool s t then t else s) 0 d).
Proof.
  intros once.
  assert (Hlen : length once = length d).
  { unfold once. by rewrite putImageData_length, filterLoop_length. }
  apply pixels_ext.
  - by rewrite !putImageData_length, !filterLoop_length.
  - intros p Hp.
    rewrite putImageData_length, filterLoop_length, Hlen in Hp.
    destruct (lookup_lt_is_Some_2 d (4 * p)%nat) as [r Hr]; [lia |].
    destruct (lookup_lt_is_Some_2 d (4 * p + 1)%nat) as [g Hg]; [lia |].
    destruct (lookup_lt_is_Some_2 d (4 * p + 2)%nat) as [b Hb]; [lia |].
    destruct (lookup_lt_is_Some_2 d (4 * p + 3)%nat) as [a Ha]; [lia |].
    assert (Hin : pixelAt d p = Some (r, g, b, a)) by by apply pixelAt_Some.
    pose proof (filtered_pixelAt cv t d p _ Hin) as Honce. fold once in Honce.
    rewrite (filtered_pixelAt cv s once p _ Honce).
    rewrite (filtered_pixelAt cv _ d p _ Hin).
    by rewrite filteredPixel_compose.
  - intros j Hj.
    rewrite putImageData_length, filterLoop_length, Hlen in Hj.
    rewrite filtered_trailing by lia.
    unfold once. by rewrite !filtered_trailing by lia.
Qed.

(** X1. Filtering a filtered image again, with any threshold, gives what one
    pass with the greater threshold gives; in particular a second pass with
    the same threshold changes nothing. *)
Theorem filterBackgroundColor_twice cv img (s t : Q) :
  canvasWorks cv img →
  ∃ once twice,
    filterBackgroundColor cv img (Some t) = Some once ∧
    filterBackgroundColor cv once (Some s) = Some twice ∧
    filterBackgroundColor cv img (Some (if Qle_bool s t then t else s))
      = Some twice ∧
    filterBackgroundColor cv once (Some t) = Some once.
Proof.
  intros Hcv.
  pose proof (filterBackgroundColor_fulfilled cv img (Some t) Hcv) as Honce.
  set (once := {| width := width img; height := height img;
                  data := putImageData cv (data img)
                            (filterLoop (length (data img))
                               (default COLOR_THRESHOLD (Some t)) 0 (data img)) |})
    in *.
  assert (Hcv' : canvasWorks cv once) by exact Hcv.
  exists once. eexists. split; [done |].
  split; [by apply filterBackgroundColor_fulfilled |].
  split.
  - rewrite (filterBackgroundColor_fulfilled cv img _ Hcv). simpl.
    by rewrite (filtered_compose cv s t (data img)).
  - rewrite (filterBackgroundColor_fulfilled cv once _ Hcv'). simpl.
    rewrite (filtered_compose cv t t (data img)).
    assert (Qle_bool t t = true) as -> by (apply Qle_bool_iff, Qle_refl).
    done.
Qed.

Lemma filterBackgroundColor_twice_witness :
  ∃ once twice,
    filterBackgroundColor workingCanvas redAndBlue (Some 400%Q) = Some once ∧
    filterBackgroundColor workingCanvas once (Some 10%Q) = Some twice ∧
    filterBackgroundColor workingCanvas redAndBlue
      (Some (if Qle_bool 10 400 then 400%Q else 10%Q)) = Some twice ∧
    filterBackgroundColor workingCanvas once (Some 400%Q) = Some once.
Proof.
  apply (filterBackgroundColor_twice workingCanvas redAndBlue 10 400).
  unfold canvasWorks. simpl. repeat split; lia.
Defined.

(** X2. A negative threshold clears nothing: the output has the bytes of the
    input.  A threshold that is not negative clears every pixel of exactly
    the background colour: its alpha is 0 in the output. *)
Theorem filterBackgroundColor_threshold_sign cv img (t : Q) :
  canvasWorks cv img →
  ((t < 0)%Q →
     filterBackgroundColor cv img (Some t) =
       Some {| width := width img; height := height img; data := data img |}) ∧
  ((0 <= t)%Q →
     ∃ out, filterBackgroundColor cv img (Some t) = Some out ∧
       ∀ p a, pixelAt (data img) p = Some (255, 0, 0, a) →
              ∃ r g b, pixelAt (data out) p = Some (r, g, b, 0)).
Proof.
  intros Hcv. rewrite (filterBackgroundColor_fulfilled cv img _ Hcv). simpl.
  split.
  - intros Ht. do 2 f_equal.
    assert (filterLoop (length (data img)) t 0 (data img) = data img) as ->;
      [| apply putImageData_same].
    apply list_eq. intros j.
    rewrite filterLoop_lookup.
    destruct (data img !! j) as [a |]; [| done].
    destruct (j mod 4 =? 3)%nat; [| done].
    destruct (data img !! (j - 3)%nat), (data img !! (j - 2)%nat),
      (data img !! (j - 1)%nat); try done.
    by rewrite isBackground_negative.
  - intros Ht. eexists. split; [done |]. simpl. intros p a Hin.
    rewrite (filtered_pixelAt cv _ _ _ _ Hin).
    assert (Hbg : isBackground 255 0 0 t = true) by by apply isBackground_true.
    unfold filteredPixel. rewrite Hbg.
    destruct (premultiplied cv && negb (a =? 0)); eauto.
Qed.

Lemma filterBackgroundColor_threshold_sign_witness :
  filterBackgroundColor workingCanvas redAndBlue (Some (-1 # 2)%Q) =
    Some {| width := 2; height := 1; data := data redAndBlue |} ∧
  ∃ out, filterBackgroundColor workingCanvas redAndBlue (Some 0%Q) = Some out ∧
    ∀ p a, pixelAt (data redAndBlue) p = Some (255, 0, 0, a) →
           ∃ r g b, pixelAt (data out) p = Some (r, g, b, 0).
Proof.
  assert (Hcv : canvasWorks workingCanvas redAndBlue).
  { unfold canvasWorks. simpl. repeat split; lia. }
  split.
  - apply (filterBackgroundColor_threshold_sign workingCanvas redAndBlue
             (-1 # 2) Hcv). reflexivity.
  - apply (filterBackgroundColor_threshold_sign workingCanvas redAndBlue 0 Hcv).
    apply Qle_refl.
Defined.

(** X3. With the default threshold no pixel whose red byte is below 100, or
    whose green or blue byte is above 155, is changed. *)
Theorem filterBackgroundColor_default_keeps cv img :
  canvasWorks cv img →
  ∃ out,
    filterBackgroundColor cv img None = Some out ∧
    ∀ p r g b a,
      pixelAt (data img) p = Some (r, g, b, a) →
      r < 100 ∨ 155 < g ∨ 155 < b →
      pixelAt (data out) p = Some (r, g, b, a).
Proof.
  intros Hcv. eexists. split; [by apply filterBackgroundColor_fulfilled |].
  simpl. intros p r g b a Hin Hfar.
  rewrite (filtered_pixelAt cv _ _ _ _ Hin).
  unfold filteredPixel. by rewrite (isBackground_default_far r g b Hfar).
Qed.

Lemma filterBackgroundColor_default_keeps_witness :
  ∃ out,
    filterBackgroundColor workingCanvas redAndBlue None = Some out ∧
    ∀ p r g b a,
      pixelAt (data redAndBlue) p = Some (r, g, b, a) →
      r < 100 ∨ 155 < g ∨ 155 < b →
      pixelAt (data out) p = Some (r, g, b, a).
Proof.
  apply (filterBackgroundColor_default_keeps workingCanvas redAndBlue).
  unfold canvasWorks. simpl. repeat split; lia.
Defined.

(** ** Filter, then analysis *)

(** The filter makes no pixel a content pixel. *)
Lemma filtered_content cv img threshold out x y :
  filterBackgroundColor cv img threshold = Some out →
  contentPixel out x y → contentPixel img x y.
Proof.
  intros Hout. apply filterBackgroundColor_Some in Hout as ->.
  unfold contentPixel, alphaAt, readByte. simpl.
  intros (Hx & Hy & alpha & Ha & Hgt).
  split; [done |]. split; [done |].
  destruct ((y * width img + x) * 4 + 3 <? 0); [done |].
  apply filtered_byte in Ha as (a & Hin & [-> | ->]); [| lia].
  by exists a.
Qed.

(** X4. The content of a filtered image is content of the image it was
    made from; so when the filtered image has content at all, the bounds
    found in it lie within the bounds found in the original. *)
Theorem filtered_bounds_within cv img threshold :
  canvasWorks cv img →
  ∃ out,
    filterBackgroundColor cv img threshold = Some out ∧
    (∀ x y, contentPixel out x y → contentPixel img x y) ∧
    ((∃ x y, contentPixel out x y) →
       let b := analyzeContentBounds cv img in
       let b' := analyzeContentBounds cv out in
       minX b <= minX b' ∧ maxX b' <= maxX b ∧
       minY b <= minY b' ∧ maxY b' <= maxY b ∧
       contentWidth b' <= contentWidth b ∧
       contentHeight b' <= contentHeight b).
Proof.
  intros Hcv.
  pose proof (filterBackgroundColor_fulfilled cv img threshold Hcv) as Hout.
  eexists. split; [exact Hout |].
  set (out := {| width := width img; height := height img; data := _ |}) in *.
  assert (Hsub : ∀ x y, contentPixel out x y → contentPixel img x y).
  { intros x y. by apply (filtered_content cv img threshold). }
  split; [done |].
  intros (x0 & y0 & Hc0) b b'. subst b b'.
  destruct Hcv as (Hctx & Hclean & _).
  rewrite (analyzeContentBounds_scanned cv img Hctx Hclean) by eauto.
  rewrite (analyzeContentBounds_scanned cv out Hctx Hclean) by eauto.
  destruct (scan_facts img) as (Hin & _).
  destruct (scan_facts out) as (Hin' & _).
  pose proof (Hin' x0 y0 Hc0) as Hbox.
  assert (Hguard : (boxMinX (scan (width out) (height out) (data out))
                      >? boxMaxX (scan (width out) (height out) (data out)))
                   || (boxMinY (scan (width out) (height out) (data out))
                      >? boxMaxY (scan (width out) (height out) (data out)))
                   = false).
  { apply orb_false_iff. rewrite !Z.gtb_ltb, !Z.ltb_ge. lia. }
  destruct Hc0 as (Hx0 & Hy0 & _).
  destruct (scan_box_attained out ltac:(lia) ltac:(lia) Hguard)
    as ([y1 C1] & [y2 C2] & [x3 C3] & [x4 C4]).
  apply Hsub, Hin in C1, C2, C3, C4.
  set (bx' := scan (width out) (height out) (data out)) in *.
  set (bx := scan (width img) (height img) (data img)) in *.
  clearbody bx bx'. unfold boundsOfBox. simpl. lia.
Qed.

Lemma filtered_bounds_within_witness :
  ∃ out,
    filterBackgroundColor workingCanvas redAndBlue None = Some out ∧
    (∀ x y, contentPixel out x y → contentPixel redAndBlue x y) ∧
    ((∃ x y, contentPixel out x y) →
       let b := analyzeContentBounds workingCanvas redAndBlue in
       let b' := analyzeContentBounds workingCanvas out in
       minX b <= minX b' ∧ maxX b' <= maxX b ∧
       minY b <= minY b' ∧ maxY b' <= maxY b ∧
       contentWidth b' <= contentWidth b ∧
       contentHeight b' <= contentHeight b).
Proof.
  apply (filtered_bounds_within workingCanvas redAndBlue None).
  unfold canvasWorks. simpl. repeat split; lia.
Defined.

(** ** More on the bounds record *)

Lemma inject_Z_pos (n : Z) : 0 < n → (0 < inject_Z n)%Q.
Proof. intros Hn. change 0%Q with (inject_Z 0). by rewrite <- Zlt_Qlt. Qed.


(** The offset is zero exactly when the two margins are equal. *)
Lemma centerOffset_zero (a b n : Z) :
  0 < n →
  ((inject_Z a + inject_Z (b - a + 1) / 2 - inject_Z n / 2) / inject_Z n == 0)%Q
  ↔ a = n - 1 - b.
Proof.
  intros Hn.
  assert (Hpos : (0 < inject_Z n)%Q) by (apply inject_Z_pos; lia).
  assert (Hne : ¬ (inject_Z n == 0)%Q) by (intros H0; rewrite H0 in Hpos; done).
  assert (Hoff : ((inject_Z a + inject_Z (b - a + 1) / 2 - inject_Z n / 2)
                    / inject_Z n
                  == inject_Z (a + b + 1 - n) * (/ 2 * / inject_Z n))%Q).
  { unfold Z.sub. rewrite !inject_Z_plus, !inject_Z_opp. by field. }
  rewrite Hoff. split.
  - intros Hz. apply Qmult_integral in Hz as [Hz | Hz].
    + unfold Qeq, inject_Z in Hz. simpl in Hz. lia.
    + exfalso. apply Qmult_integral in Hz as [Hz | Hz]; [done |].
      assert (Hinv : (0 < / inject_Z n)%Q) by by apply Qinv_lt_0_compat.
      rewrite Hz in Hinv. done.
  - intros ->. replace (n - 1 - b + b + 1 - n) with 0 by lia.
    apply Qmult_0_l.
Qed.



(** X6. When content is found, the horizontal offset is 0 exactly when the
    columns left free on the left are as many as those left free on the
    right, and likewise vertically. *)
Theorem analyzeContentBounds_centred cv img :
  context2d cv = true → originClean cv = true →
  (∃ x y, contentPixel img x y) →
  let b := analyzeContentBounds cv img in
  ((centerOffsetX b == 0)%Q ↔ minX b = width img - 1 - maxX b) ∧
  ((centerOffsetY b == 0)%Q ↔ minY b = height img - 1 - maxY b).
Proof.
  intros Hctx Hclean Hex b. subst b.
  rewrite (analyzeContentBounds_scanned cv img Hctx Hclean Hex).
  destruct Hex as (x0 & y0 & (Hx0 & Hy0 & _)).
  unfold boundsOfBox. simpl.
  split; apply centerOffset_zero; lia.
Qed.

Lemma analyzeContentBounds_centred_witness :
  let b := analyzeContentBounds workingCanvas redAndBlue in
  ((centerOffsetX b == 0)%Q ↔ minX b = width redAndBlue - 1 - maxX b) ∧
  ((centerOffsetY b == 0)%Q ↔ minY b = height redAndBlue - 1 - maxY b).
Proof.
  apply (analyzeContentBounds_centred workingCanvas redAndBlue);
    [reflexivity | reflexivity |].
  exists 0, 0. unfold contentPixel. simpl.
  split; [lia |]. split; [lia |].
  exists 255. split; [reflexivity | lia].
Defined.

(** X7. A first [getContentBounds] made while the canvas has no 2D context
    or is tainted stores the whole-image fallback; every later call for the
    source returns that fallback, whatever the canvas and the image then
    are. *)
Theorem getContentBounds_keeps_fallback cv src img w :
  contentBoundsCache w !! src = None →
  context2d cv = false ∨ originClean cv = false →
  (getContentBounds cv src img w).1 = wholeImage (width img) (height img) ∧
  ∀ cv' img',
    (getContentBounds cv' src img' (getContentBounds cv src img w).2).1
      = wholeImage (width img) (height img).
Proof.
  intros Hmiss Hcv.
  assert (Hfall : analyzeContentBounds cv img = wholeImage (width img) (height img)).
  { unfold analyzeContentBounds, getImageData.
    destruct Hcv as [-> | ->]; [done |]. by destruct (context2d cv). }
  unfold getContentBounds at 1 3. rewrite Hmiss. simpl.
  split; [done |]. intros cv' img'.
  unfold getContentBounds. simpl. by rewrite lookup_insert_eq.
Qed.

Lemma getContentBounds_keeps_fallback_witness :
  (getContentBounds (mkCanvas true false true true) "a.png" offCentre initialWorld).1
    = wholeImage 3 2 ∧
  ∀ cv' img',
    (getContentBounds cv' "a.png" img'
       (getContentBounds (mkCanvas true false true true) "a.png" offCentre
          initialWorld).2).1
      = wholeImage 3 2.
Proof.
  apply (getContentBounds_keeps_fallback (mkCanvas true false true true) "a.png"
           offCentre initialWorld).
  - reflexivity.
  - right. reflexivity.
Defined.

(** ** Listeners *)

Lemma onImageLoaded_NoDup cb w :
  NoDup (imageLoadCallbacks w) → NoDup (imageLoadCallbacks (onImageLoaded cb w)).
Proof.
  intros Hnd. unfold onImageLoaded. case_decide; [done |]. simpl.
  apply NoDup_app. split; [done |]. split.
  - intros x Hx ->%list_elem_of_singleton. done.
  - apply NoDup_singleton.
Qed.

Lemma onImageLoaded_elem cb w : cb ∈ imageLoadCallbacks (onImageLoaded cb w).
Proof.
  unfold onImageLoaded. case_decide; [done |]. simpl.
  apply elem_of_app. right. by apply list_elem_of_singleton.
Qed.

(** X8. Registering a callback a second time changes nothing, and the set
    of listeners stays free of duplicates; a load that is not answered
    from the cache and resolves then invokes the callback exactly once,
    along with the other listeners. *)
Theorem onImageLoaded_once net src cb w :
  NoDup (imageLoadCallbacks w) →
  let w0 := onImageLoaded cb w in
  onImageLoaded cb w0 = w0 ∧
  NoDup (imageLoadCallbacks w0) ∧
  (imageCache w !! src = None → is_Some (loadImage net src w0).1 →
   ∃ l, notified (loadImage net src w0).2 = notified w ++ l ∧
        NoDup l ∧ cb ∈ l ∧ ∀ cb', cb' ∈ imageLoadCallbacks w → cb' ∈ l).
Proof.
  intros Hnd w0.
  pose proof (onImageLoaded_elem cb w) as Hel. fold w0 in Hel.
  pose proof (onImageLoaded_NoDup cb w Hnd) as Hnd0. fold w0 in Hnd0.
  split; [| split; [done |]].
  - unfold onImageLoaded at 1. by case_decide.
  - intros Hmiss [img Hres].
    pose proof (loadImage_notified net src w0) as Hnot.
    assert (Hc0 : imageCache w0 !! src = None).
    { subst w0. unfold onImageLoaded. by case_decide. }
    assert (Hn0 : notified w0 = notified w).
    { subst w0. unfold onImageLoaded. by case_decide. }
    rewrite Hc0, Hres, Hn0 in Hnot.
    exists (imageLoadCallbacks w0). split; [done |]. split; [done |].
    split; [done |]. intros cb' Hcb'.
    subst w0. unfold onImageLoaded. case_decide; [done |]. simpl.
    apply elem_of_app. by left.
Qed.

Lemma onImageLoaded_once_witness :
  onImageLoaded 7 (onImageLoaded 7 initialWorld) = onImageLoaded 7 initialWorld ∧
  NoDup (imageLoadCallbacks (onImageLoaded 7 initialWorld)) ∧
  (imageCache initialWorld !! "a.png" = None →
   is_Some (loadImage pngOnly "a.png" (onImageLoaded 7 initialWorld)).1 →
   ∃ l, notified (loadImage pngOnly "a.png" (onImageLoaded 7 initialWorld)).2
          = notified initialWorld ++ l ∧
        NoDup l ∧ 7%nat ∈ l ∧
        ∀ cb', cb' ∈ imageLoadCallbacks initialWorld → cb' ∈ l).
Proof.
  apply (onImageLoaded_once pngOnly "a.png" 7%nat initialWorld).
  simpl. apply NoDup_nil_2.
Defined.

(** X9. After the cleanup function of a callback has run, the callback is
    no longer a listener and no load invokes it; the other listeners stay
    registered. *)
Theorem unsubscribe_silences net src cb w :
  (cb ∉ imageLoadCallbacks (unsubscribe cb w)) ∧
  (∀ cb', cb' ≠ cb → cb' ∈ imageLoadCallbacks w →
          cb' ∈ imageLoadCallbacks (unsubscribe cb w)) ∧
  ∃ l, notified (loadImage net src (unsubscribe cb w)).2 = notified w ++ l ∧
       (cb ∉ l).
Proof.
  assert (Hout : cb ∉ imageLoadCallbacks (unsubscribe cb w)).
  { unfold unsubscribe. simpl. rewrite list_elem_of_filter. tauto. }
  split; [done |]. split.
  - intros cb' Hne Hin. unfold unsubscribe. simpl.
    rewrite list_elem_of_filter. done.
  - rewrite loadImage_notified.
    destruct (imageCache (unsubscribe cb w) !! src);
      [| destruct ((loadImage net src (unsubscribe cb w)).1)].
    + exists []. split; [by rewrite app_nil_r |]. apply not_elem_of_nil.
    + by exists (imageLoadCallbacks (unsubscribe cb w)).
    + exists []. split; [by rewrite app_nil_r |]. apply not_elem_of_nil.
Qed.

(** ** Sprites *)

Lemma filtered_key_fresh src : src +:+ "_filtered" ≠ src.
Proof.
  intros Heq. apply (f_equal String.length) in Heq.
  rewrite length_app_string in Heq. simpl in Heq. lia.
Qed.

(** X10. After [loadSpriteImage] with filtering resolves, the filtered image
    is in the cache under the source followed by ["_filtered"], and a
    second call resolves with the same image and leaves the world as it
    is: no request, no filtering.  When the first call was not answered
    from the cache, the unfiltered image is in the cache under the source
    itself and the result is its filtering. *)
Theorem loadSpriteImage_caches_filtered net cv src w f w1 :
  loadSpriteImage net cv src true w = (Some f, w1) →
  imageCache w1 !! (src +:+ "_filtered") = Some f ∧
  (∀ net' cv', loadSpriteImage net' cv' src true w1 = (Some f, w1)) ∧
  (imageCache w !! (src +:+ "_filtered") = None →
   ∃ raw, imageCache w1 !! src = Some raw ∧
          filterBackgroundColor cv raw None = Some f).
Proof.
  intros Hload.
  assert (Hhit : ∀ w', imageCache w' !! (src +:+ "_filtered") = Some f →
            ∀ net' cv', loadSpriteImage net' cv' src true w' = (Some f, w')).
  { intros w' Hc net' cv'. unfold loadSpriteImage, cacheKeyOf. by rewrite Hc. }
  unfold loadSpriteImage, cacheKeyOf in Hload.
  destruct (imageCache w !! (src +:+ "_filtered")) as [g |] eqn:Hkey.
  - injection Hload as -> ->. split; [done |]. split; [by apply Hhit | done].
  - unfold await, effect, resolve, reject in Hload.
    destruct (loadImage net src w) as [[raw |] w2] eqn:Hraw; [| done].
    destruct (filterBackgroundColor cv raw None) as [g |] eqn:Hf; [| done].
    injection Hload as -> <-. simpl.
    assert (Hin : <[src +:+ "_filtered" := f]> (imageCache w2)
                    !! (src +:+ "_filtered") = Some f) by apply lookup_insert_eq.
    split; [done |]. split; [by apply Hhit |].
    intros _. exists raw. split; [| done].
    rewrite lookup_insert_ne by apply filtered_key_fresh.
    by apply (loadImage_resolved_lookup net src w).
Qed.

Lemma loadSpriteImage_caches_filtered_witness :
  let f := {| width := 2; height := 1; data := [0; 0; 0; 0; 0; 0; 255; 200] |} in
  let w1 := (loadSpriteImage pngOnly workingCanvas "a.png" true initialWorld).2 in
  imageCache w1 !! ("a.png" +:+ "_filtered") = Some f ∧
  (∀ net' cv', loadSpriteImage net' cv' "a.png" true w1 = (Some f, w1)) ∧
  (imageCache initialWorld !! ("a.png" +:+ "_filtered") = None →
   ∃ raw, imageCache w1 !! "a.png" = Some raw ∧
          filterBackgroundColor workingCanvas raw None = Some f).
Proof.
  apply (loadSpriteImage_caches_filtered pngOnly workingCanvas "a.png"
           initialWorld). reflexivity.
Defined.

(** Entries of the image cache survive [loadImage]. *)
Lemma loadImage_keeps_images net src w k :
  is_Some (imageCache w !! k) → is_Some (imageCache (loadImage net src w).2 !! k).
Proof.
  intros Hk. rewrite loadImage_imageCache.
  destruct (imageCache w !! src); [done |].
  destruct (alternateTried net src w) as [path |];
    [destruct (fetch net path) |]; try destruct (fetch net src);
    rewrite ?lookup_insert_is_Some; tauto.
Qed.

(** What [loadImage] adds to the image cache lies under the source or under
    its WebP sibling. *)
Lemma loadImage_new_keys net src w k :
  imageCache w !! k = None →
  is_Some (imageCache (loadImage net src w).2 !! k) →
  k = src ∨ getWebPPath src = Some k.
Proof.
  intros Hk. rewrite loadImage_imageCache. unfold alternateTried.
  destruct (imageCache w !! src); [rewrite Hk; by intros [v Hv] |].
  destruct (getWebPPath src) as [path |];
    [destruct (webpSupported _) as [[|] |]; [destruct (fetch net path) | |] |];
    try destruct (fetch net src);
    intros [v Hv];
    repeat (rewrite lookup_insert in Hv; case_decide; [subst; by auto |]);
    congruence.
Qed.

(** X11. When the image loads and the filter then rejects, [loadSpriteImage]
    rejects; the unfiltered image stays in the cache under the source and
    nothing is stored under the filtered key.  A later call on a canvas
    where the filter works resolves without any request. *)
Theorem loadSpriteImage_filter_rejects net cv src w raw w2 :
  imageCache w !! (src +:+ "_filtered") = None →
  loadImage net src w = (Some raw, w2) →
  filterBackgroundColor cv raw None = None →
  loadSpriteImage net cv src true w = (None, w2) ∧
  imageCache w2 !! src = Some raw ∧
  imageCache w2 !! (src +:+ "_filtered") = None ∧
  ∀ net' cv' f,
    filterBackgroundColor cv' raw None = Some f →
    ∃ w3, loadSpriteImage net' cv' src true w2 = (Some f, w3) ∧
          requested w3 = requested w2.
Proof.
  intros Hkey Hload Hfil.
  pose proof (loadImage_resolved_lookup net src w raw w2 Hload) as Hraw.
  assert (Hkey2 : imageCache w2 !! (src +:+ "_filtered") = None).
  { destruct (imageCache w2 !! (src +:+ "_filtered")) eqn:Hk; [| done].
    exfalso.
    assert (Hs : is_Some (imageCache (loadImage net src w).2 !! (src +:+ "_filtered")))
      by (rewrite Hload; simpl; eauto).
    destruct (loadImage_new_keys net src w _ Hkey Hs) as [Heq | Hp].
    - by apply filtered_key_fresh in Heq.
    - apply getWebPPath_Some in Hp as (base & -> & Hp).
      apply (f_equal String.length) in Hp.
      rewrite !length_app_string in Hp. simpl in Hp. lia. }
  split; [| split; [done | split; [done |]]].
  - unfold loadSpriteImage, cacheKeyOf. rewrite Hkey.
    unfold await, reject. by rewrite Hload, Hfil.
  - intros net' cv' f Hf. eexists. split.
    + unfold loadSpriteImage, cacheKeyOf. rewrite Hkey2.
      unfold await, effect, resolve.
      rewrite (loadImage_hit net' src raw w2 Hraw), Hf. done.
    + done.
Qed.

Lemma loadSpriteImage_filter_rejects_witness :
  let noContext := mkCanvas false true true true in
  let w2 := (loadImage pngOnly "a.png" initialWorld).2 in
  loadSpriteImage pngOnly noContext "a.png" true initialWorld = (None, w2) ∧
  imageCache w2 !! "a.png" = Some redAndBlue ∧
  imageCache w2 !! ("a.png" +:+ "_filtered") = None ∧
  ∀ net' cv' f,
    filterBackgroundColor cv' redAndBlue None = Some f →
    ∃ w3, loadSpriteImage net' cv' "a.png" true w2 = (Some f, w3) ∧
          requested w3 = requested w2.
Proof.
  apply (loadSpriteImage_filter_rejects pngOnly (mkCanvas false true true true)
           "a.png" initialWorld redAndBlue); reflexivity.
Defined.

Lemma loadSpriteImage_keeps_images net cv src applyFilter w k :
  is_Some (imageCache w !! k) →
  is_Some (imageCache (loadSpriteImage net cv src applyFilter w).2 !! k).
Proof.
  intros Hk. unfold loadSpriteImage.
  destruct (imageCache w !! cacheKeyOf src applyFilter); [done |].
  unfold await, effect, resolve, reject.
  pose proof (loadImage_keeps_images net src w k Hk) as Hl.
  destruct (loadImage net src w) as [[img |] w1]; simpl in *; [| done].
  destruct applyFilter; [| done].
  destruct (filterBackgroundColor cv img None); simpl; [| done].
  rewrite lookup_insert_is_Some. tauto.
Qed.

(** X12. No operation of the module but [clearImageCache] removes a key from
    the image cache: what [isImageCached] reports as cached stays cached. *)
Theorem run_keeps_images c w src filtered :
  isClear c = false →
  isImageCached src filtered w = true →
  isImageCached src filtered (run c w) = true.
Proof.
  intros Hc Hin. unfold isImageCached in *.
  apply bool_decide_eq_true in Hin. apply bool_decide_eq_true.
  destruct c; simpl; try done.
  - unfold onImageLoaded. by case_decide.
  - by apply loadImage_keeps_images.
  - by apply loadSpriteImage_keeps_images.
  - unfold getContentBounds. by destruct (contentBoundsCache w !! src0).
Qed.

Lemma run_keeps_images_witness :
  isImageCached "a.png" false
    (run (CallLoadImage offline "b.png")
       (loadImage pngOnly "a.png" initialWorld).2) = true.
Proof.
  apply (run_keeps_images (CallLoadImage offline "b.png")
           (loadImage pngOnly "a.png" initialWorld).2 "a.png" false);
    reflexivity.
Defined.

(** X13. A load that resolves through the WebP sibling stores the image
    under the sibling's path too: a later load of either path is answered
    from the cache with that image. *)
Theorem loadImage_caches_alternate net src path img w :
  imageCache w !! src = None →
  alternateTried net src w = Some path →
  fetch net path = Some img →
  let w1 := (loadImage net src w).2 in
  (loadImage net src w).1 = Some img ∧
  attempted net src w = [path] ∧
  ∀ net', loadImage net' path w1 = (Some img, w1) ∧
          loadImage net' src w1 = (Some img, w1).
Proof.
  intros Hmiss Halt Hf w1.
  split; [by rewrite loadImage_result, Hmiss, Halt, Hf |].
  split; [by rewrite loadImage_attempted, Hmiss, Halt, Hf |].
  assert (Hc : imageCache w1 = <[src := img]> (<[path := img]> (imageCache w))).
  { subst w1. by rewrite loadImage_imageCache, Hmiss, Halt, Hf. }
  intros net'. split; apply loadImage_hit; rewrite Hc.
  - destruct (decide (src = path)) as [-> | Hne];
      [apply lookup_insert_eq |].
    rewrite lookup_insert_ne by done. apply lookup_insert_eq.
  - apply lookup_insert_eq.
Qed.

Lemma loadImage_caches_alternate_witness :
  let w1 := (loadImage bothVariants "a.png" initialWorld).2 in
  (loadImage bothVariants "a.png" initialWorld).1 = Some offCentre ∧
  attempted bothVariants "a.png" initialWorld = ["a.webp"] ∧
  ∀ net', loadImage net' "a.webp" w1 = (Some offCentre, w1) ∧
          loadImage net' "a.png" w1 = (Some offCentre, w1).
Proof.
  apply (loadImage_caches_alternate bothVariants "a.png" "a.webp" offCentre
           initialWorld); reflexivity.
Defined.

(** * Properties of the generation endpoint *)

Section Endpoint.
Import GenerateBuilding.

Lemma Qle_bool_inject_Z (a b : Z) :
  Qle_bool (inject_Z a) (inject_Z b) = (a <=? b).
Proof.
  destruct (Z.leb_spec a b) as [Hle | Hgt].
  - apply Qle_bool_iff. by rewrite <- Zle_Qle.
  - apply not_true_iff_false. rewrite Qle_bool_iff, <- Zle_Qle. lia.
Qed.

Lemma Qeq_bool_inject_Z (z : Z) : Qeq_bool (inject_Z z) 0 = (z =? 0).
Proof. unfold Qeq_bool, inject_Z. simpl. by rewrite Z.mul_1_r. Qed.

Lemma Qfloor_half (z : Z) : Qfloor (inject_Z z + (1 # 2)) = z.
Proof.
  unfold Qfloor, Qplus, inject_Z. simpl.
  symmetry. apply Z.div_unique with (r := 1); lia.
Qed.

Lemma orNumber_round (x : JSNumber) (fallback : Z) :
  Rounded fallback (orNumber (Math_round x) (Finite (inject_Z fallback))).
Proof.
  destruct x as [| | q |]; cbn [Math_round orNumber]; try constructor;
    [by left |].
  rewrite Qeq_bool_inject_Z.
  destruct (Z.eqb_spec (Qfloor (q + (1 # 2))) 0); constructor; tauto.
Qed.

Lemma clamp_Rounded (lo hi fallback : Z) (x : JSNumber) :
  lo <= hi → Rounded fallback x →
  ∃ z, Math_min (Finite (inject_Z hi)) (Math_max (Finite (inject_Z lo)) x)
         = Finite (inject_Z z) ∧
       lo <= z <= hi ∧ (z = 0 → lo = 0 ∨ hi = 0 ∨ fallback = 0).
Proof.
  intros Hlh [| | z Hz]; simpl.
  - rewrite Qle_bool_inject_Z.
    destruct (Z.leb_spec hi lo); [exists hi | exists lo]; split; try done; lia.
  - exists hi. split; [done |]. lia.
  - rewrite Qle_bool_inject_Z.
    destruct (Z.leb_spec lo z); simpl; rewrite Qle_bool_inject_Z.
    + destruct (Z.leb_spec hi z); [exists hi | exists z]; split; try done; lia.
    + destruct (Z.leb_spec hi lo); [exists hi | exists lo]; split; try done; lia.
Qed.

Lemma floor_Rounded (lo fallback : Z) (x : JSNumber) :
  Rounded fallback x →
  Math_max (Finite (inject_Z lo)) x = Infinity ∨
  ∃ z, Math_max (Finite (inject_Z lo)) x = Finite (inject_Z z) ∧ lo <= z.
Proof.
  intros [| | z Hz]; simpl; [right; exists lo; split; [done | lia] | by left |].
  rewrite Qle_bool_inject_Z. right.
  destruct (Z.leb_spec lo z); [exists z | exists lo]; split; try done; lia.
Qed.

Lemma orString_nonempty s fallback :
  fallback ≠ "" → orString s fallback ≠ "".
Proof.
  intros Hf. unfold orString. destruct s as [s |]; [| done].
  destruct (String.eqb_spec s ""); done.
Qed.

Lemma orValue_truthy v fallback :
  truthyValue fallback = true → truthyValue (orValue v fallback) = true.
Proof.
  intros Hf. unfold orValue. destruct v as [v |]; [| done].
  by destruct (truthyValue v) eqn:Hv.
Qed.

Lemma validatedAttributes_inRange raw : inRange (validatedAttributes raw).
Proof.
  unfold inRange, validatedAttributes. simpl.
  split; [| split; [| split; [| split; [| split; [| split; [| split]]]]]].
  - destruct (rawCategory raw) as [c |]; [case_bool_decide; [done |] |];
      by apply (bool_decide_unpack _).
  - destruct (clamp_Rounded 1 4 1 _ ltac:(lia) (orNumber_round (rawSize raw) 1))
      as (z & Hz & Hr & _). eauto.
  - apply (floor_Rounded 0 0), orNumber_round.
  - apply (floor_Rounded 0 0), orNumber_round.
  - destruct (clamp_Rounded (-25) 55 0 _ ltac:(lia)
                (orNumber_round (rawPollution raw) 0)) as (z & Hz & Hr & _).
    eauto.
  - destruct (clamp_Rounded (-20) 80 10 _ ltac:(lia)
                (orNumber_round (rawLandValue raw) 10)) as (z & Hz & Hr & H0).
    exists z. split; [done |]. split; [done |]. intros Heq. specialize (H0 Heq). lia.
  - apply (floor_Rounded 100 500), orNumber_round.
  - by apply orValue_truthy.
Qed.
End Endpoint.

Section EndpointAttributes.
Import GenerateBuilding.

Lemma round_integer (z : Z) :
  Math_round (Finite (inject_Z z)) = Finite (inject_Z z).
Proof. cbn [Math_round]. by rewrite Qfloor_half. Qed.

Lemma orNumber_integer (z fallback : Z) :
  z = fallback ∨ z ≠ 0 →
  orNumber (Finite (inject_Z z)) (Finite (inject_Z fallback))
    = Finite (inject_Z z).
Proof.
  intros Hz. cbn [orNumber]. rewrite Qeq_bool_inject_Z.
  destruct (Z.eqb_spec z 0); [| done]. destruct Hz as [-> | Hz]; done.
Qed.

Lemma clamp_integer (lo hi z : Z) :
  lo <= z <= hi →
  Math_min (Finite (inject_Z hi)) (Math_max (Finite (inject_Z lo)) (Finite (inject_Z z)))
    = Finite (inject_Z z).
Proof.
  intros Hz. cbn [Math_max]. rewrite Qle_bool_inject_Z.
  destruct (Z.leb_spec lo z); [| lia]. cbn [Math_min].
  rewrite Qle_bool_inject_Z. destruct (Z.leb_spec hi z); [| done].
  by replace hi with z by lia.
Qed.

Lemma floor_integer (lo z : Z) :
  lo <= z →
  Math_max (Finite (inject_Z lo)) (Finite (inject_Z z)) = Finite (inject_Z z).
Proof.
  intros Hz. cbn [Math_max]. rewrite Qle_bool_inject_Z.
  destruct (Z.leb_spec lo z); [done | lia].
Qed.

(** *** Through JSON and back *)

Lemma stringified_idempotent v : stringified (stringified v) = stringified v.
Proof.
  induction v as [| b | x | s | items IH | properties IH] using JSON_induction;
    try done.
  - by destruct x.
  - cbn [stringified]. f_equal. rewrite map_map.
    induction IH as [| v items Hv _ IHitems]; [done |].
    cbn [map]. by f_equal.
  - cbn [stringified]. f_equal. rewrite map_map.
    induction IH as [| [k v] properties Hkv _ IHproperties]; [done |].
    cbn [map]. f_equal; [| done]. simpl in *. by rewrite Hkv.
Qed.

(** What is written for a value that counts as true is [null], for an
    infinite number, or counts as true. *)
Lemma stringified_truthy v :
  truthyValue v = true →
  stringified v = JNull ∨ truthyValue (stringified v) = true.
Proof.
  destruct v as [| b | [| | q |] | s | items | properties]; simpl; auto.
Qed.

(** A field with a lower bound, validated again after it went through
    JSON: unchanged when it was finite, the fallback when it was not, and
    from then on unchanged. *)
Lemma floor_through_JSON (lo fallback : Z) (x : JSNumber) :
  lo <= fallback → 0 < lo ∨ fallback = 0 →
  x = Infinity ∨ (∃ z, x = Finite (inject_Z z) ∧ lo <= z) →
  let again y :=
    Math_max (Finite (inject_Z lo))
      (orNumber (Math_round (roundable (stringifiedNumber y)))
         (Finite (inject_Z fallback))) in
  (∃ z, again x = Finite (inject_Z z) ∧ lo <= z) ∧
  (x ≠ Infinity → again x = x) ∧
  again (again x) = again x.
Proof.
  intros Hlo H0 Hx again.
  assert (Hfin : ∀ z, lo <= z → again (Finite (inject_Z z)) = Finite (inject_Z z)).
  { intros z Hz. unfold again. cbn [stringifiedNumber roundable].
    rewrite round_integer, orNumber_integer by lia. by apply floor_integer. }
  assert (Hinf : again Infinity = Finite (inject_Z fallback)).
  { unfold again. cbn [stringifiedNumber roundable].
    change (Finite 0) with (Finite (inject_Z 0)).
    rewrite round_integer. cbn [orNumber]. rewrite Qeq_bool_inject_Z.
    cbn [Z.eqb]. by apply floor_integer. }
  destruct Hx as [-> | (z & -> & Hz)].
  - rewrite Hinf. split; [eauto |]. split; [done |]. by apply Hfin.
  - rewrite Hfin by done. split; [eauto |]. split; [done |]. by apply Hfin.
Qed.

(** A field with two bounds is finite and comes back as it was. *)
Lemma clamp_through_JSON (lo hi fallback z : Z) :
  lo <= z <= hi → z = fallback ∨ z ≠ 0 →
  Math_min (Finite (inject_Z hi))
    (Math_max (Finite (inject_Z lo))
       (orNumber
          (Math_round (roundable (stringifiedNumber (Finite (inject_Z z)))))
          (Finite (inject_Z fallback))))
    = Finite (inject_Z z).
Proof.
  intros Hz H0. cbn [stringifiedNumber roundable].
  rewrite round_integer, orNumber_integer by done. by apply clamp_integer.
Qed.

(** The steps that return no attributes. *)
Lemma getAspectRatio_no_attributes trim fal body :
  attributes (getAspectRatio trim fal body) = None.
Proof.
  unfold getAspectRatio. destruct (nonEmpty _); [| done].
  by destruct (router _ _).
Qed.

Lemma generate_no_attributes fal body :
  attributes (generate fal body) = None.
Proof.
  unfold generate. destruct (nonEmpty _); [| done].
  destruct (nanoBanana _ _ _) as [[[| u us] |] |]; try done.
  by destruct (removeBackground _ _).
Qed.

(** The attributes of an answer come out of the validation. *)
Lemma POST_attributes_validated trim parseAttributes fal request a :
  attributes (POST trim parseAttributes fal request) = Some a →
  ∃ raw, a = stringifiedAttributes (validatedAttributes raw).
Proof.
  intros Ha. unfold POST in Ha. destruct request as [body | m]; [| done].
  destruct (isStep body "get-aspect-ratio");
    [by rewrite getAspectRatio_no_attributes in Ha |].
  destruct (isStep body "generate");
    [by rewrite generate_no_attributes in Ha |].
  destruct (isStep body "analyze"); [| done].
  unfold analyze in Ha.
  destruct (nonEmpty (bodyImageUrl body)); [| done].
  destruct (vision _ _) as [out |]; [| done].
  destruct (nonEmpty out); [| done].
  destruct (parseAttributes _) as [raw |]; [| done].
  injection Ha as <-. eauto.
Qed.

(** X14. Every attributes object in an answer of the endpoint is in range,
    as the client reads it: the category is one of the five, the size an
    integer from 1 to 4, the pollution an integer from -25 to 55, the land
    value an integer from -20 to 80 that is never 0; population and jobs
    are integers that are not negative, and the cost an integer of at least
    100, or each of them [null], which is what is written for an infinite
    number; the name is a value that counts as true, so never the empty
    string, or [null]. *)
Theorem POST_attributes_in_range
    trim parseAttributes fal request (a : AttributesJSON) :
  attributes (POST trim parseAttributes fal request) = Some a →
  jsonCategory a ∈ CATEGORIES ∧
  (∃ z, jsonSize a = Some (inject_Z z) ∧ 1 <= z <= 4) ∧
  (jsonMaxPop a = None ∨ ∃ z, jsonMaxPop a = Some (inject_Z z) ∧ 0 <= z) ∧
  (jsonMaxJobs a = None ∨ ∃ z, jsonMaxJobs a = Some (inject_Z z) ∧ 0 <= z) ∧
  (∃ z, jsonPollution a = Some (inject_Z z) ∧ -25 <= z <= 55) ∧
  (∃ z, jsonLandValue a = Some (inject_Z z) ∧ -20 <= z <= 80 ∧ z ≠ 0) ∧
  (jsonSuggestedCost a = None ∨
   ∃ z, jsonSuggestedCost a = Some (inject_Z z) ∧ 100 <= z) ∧
  (jsonSuggestedName a = JNull ∨ truthyValue (jsonSuggestedName a) = true).
Proof.
  intros Ha.
  pose proof (POST_attributes_validated _ _ _ _ _ Ha) as Hv.
  destruct Hv as [raw ->].
  destruct (validatedAttributes_inRange raw)
    as (Hc & (zs & Hs & Hsr) & Hmp & Hmj & (zp & Hp & Hpr) & (zl & Hl & Hlr)
        & Hco & Hnm).
  unfold stringifiedAttributes. cbn [jsonCategory jsonSize jsonMaxPop
    jsonMaxJobs jsonPollution jsonLandValue jsonSuggestedCost
    jsonSuggestedName].
  rewrite Hs, Hp, Hl. cbn [stringifiedNumber].
  split; [done |]. split; [eauto |].
  split; [destruct Hmp as [-> | (z & -> & Hz)]; cbn [stringifiedNumber]; eauto |].
  split; [destruct Hmj as [-> | (z & -> & Hz)]; cbn [stringifiedNumber]; eauto |].
  split; [eauto |]. split; [eauto |].
  split; [destruct Hco as [-> | (z & -> & Hz)]; cbn [stringifiedNumber]; eauto |].
  by apply stringified_truthy.
Qed.

Lemma POST_attributes_in_range_witness :
  let a := stringifiedAttributes (validatedAttributes looseAnswer) in
  jsonCategory a ∈ CATEGORIES ∧
  (∃ z, jsonSize a = Some (inject_Z z) ∧ 1 <= z <= 4) ∧
  (jsonMaxPop a = None ∨ ∃ z, jsonMaxPop a = Some (inject_Z z) ∧ 0 <= z) ∧
  (jsonMaxJobs a = None ∨ ∃ z, jsonMaxJobs a = Some (inject_Z z) ∧ 0 <= z) ∧
  (∃ z, jsonPollution a = Some (inject_Z z) ∧ -25 <= z <= 55) ∧
  (∃ z, jsonLandValue a = Some (inject_Z z) ∧ -20 <= z <= 80 ∧ z ≠ 0) ∧
  (jsonSuggestedCost a = None ∨
   ∃ z, jsonSuggestedCost a = Some (inject_Z z) ∧ 100 <= z) ∧
  (jsonSuggestedName a = JNull ∨ truthyValue (jsonSuggestedName a) = true).
Proof.
  apply (POST_attributes_in_range noTrim parseLoose answeringFal
           (requestFor "analyze" None)).
  reflexivity.
Defined.

(** X15. The attributes of an answer, given back to the validation as the
    answer of a model, come out as they were when none of them is [null];
    a [null] population or number of jobs comes out as 0, a [null] cost as
    500 and a [null] name as the default name, and what comes out then
    stays as it is when it is given back once more. *)
Theorem validatedAttributes_idempotent raw :
  let sent := stringifiedAttributes (validatedAttributes raw) in
  let again := stringifiedAttributes (validatedAttributes (asRaw sent)) in
  (jsonMaxPop sent ≠ None → jsonMaxJobs sent ≠ None →
   jsonSuggestedCost sent ≠ None → jsonSuggestedName sent ≠ JNull →
   again = sent) ∧
  (jsonMaxPop sent = None → jsonMaxPop again = Some 0%Q) ∧
  (jsonMaxJobs sent = None → jsonMaxJobs again = Some 0%Q) ∧
  (jsonSuggestedCost sent = None → jsonSuggestedCost again = Some 500%Q) ∧
  (jsonSuggestedName sent = JNull →
   jsonSuggestedName again = JString "Custom Building") ∧
  stringifiedAttributes (validatedAttributes (asRaw again)) = again.
Proof.
  intros sent again. subst sent again.
  destruct (validatedAttributes_inRange raw)
    as (Hc & (zs & Hs & Hsr) & Hmp & Hmj & (zp & Hp & Hpr) & (zl & Hl & Hlr & Hl0)
        & Hco & Hnm).
  set (a := validatedAttributes raw) in *. clearbody a.
  destruct a as [c s mp mj po lv co nm]. simpl in *. subst s po lv.
  destruct (floor_through_JSON 0 0 mp ltac:(lia) ltac:(lia) Hmp)
    as ((zmp & Emp & Rmp) & Kmp & Imp).
  destruct (floor_through_JSON 0 0 mj ltac:(lia) ltac:(lia) Hmj)
    as ((zmj & Emj & Rmj) & Kmj & Imj).
  destruct (floor_through_JSON 100 500 co ltac:(lia) ltac:(lia) Hco)
    as ((zco & Eco & Rco) & Kco & Ico).
  pose proof (clamp_through_JSON 1 4 1 zs Hsr ltac:(lia)) as Ks.
  pose proof (clamp_through_JSON (-25) 55 0 zp Hpr ltac:(lia)) as Kp.
  pose proof (clamp_through_JSON (-20) 80 10 zl Hlr ltac:(lia)) as Kl.
  assert (Kc : (if bool_decide (c ∈ CATEGORIES) then c else "commercial") = c)
    by by rewrite bool_decide_eq_true_2.
  set (name1 := orValue (Some (stringified nm)) (JString "Custom Building")).
  assert (Hname1 : stringified name1 = name1 ∧ truthyValue name1 = true).
  { unfold name1, orValue.
    destruct (truthyValue (stringified nm)) eqn:Ht; [| done].
    by rewrite stringified_idempotent. }
  assert (Kname : orValue (Some (stringified name1)) (JString "Custom Building")
                  = name1).
  { destruct Hname1 as [-> Ht]. unfold orValue at 1. by rewrite Ht. }
  unfold stringifiedAttributes, validatedAttributes, asRaw.
  cbn [jsonCategory jsonSize jsonMaxPop jsonMaxJobs jsonPollution jsonLandValue
       jsonSuggestedCost jsonSuggestedName rawCategory rawSize rawMaxPop
       rawMaxJobs rawPollution rawLandValue rawSuggestedCost rawSuggestedName
       category size maxPop maxJobs pollution landValue suggestedCost
       suggestedName].
  change (Finite 4) with (Finite (inject_Z 4)).
  change (Finite 1) with (Finite (inject_Z 1)).
  change (Finite 55) with (Finite (inject_Z 55)).
  change (Finite (-25)) with (Finite (inject_Z (-25))).
  change (Finite 80) with (Finite (inject_Z 80)).
  change (Finite (-20)) with (Finite (inject_Z (-20))).
  change (Finite 10) with (Finite (inject_Z 10)).
  change (Finite 100) with (Finite (inject_Z 100)).
  change (Finite 500) with (Finite (inject_Z 500)).
  change (Finite 0) with (Finite (inject_Z 0)).
  rewrite Kc, Ks, Kp, Kl. cbv zeta in Kmp, Kmj, Kco, Imp, Imj, Ico, Emp, Emj, Eco.
  fold name1.
  split; [| split; [| split; [| split; [| split]]]].
  - intros Nmp Nmj Nco Nnm.
    assert (mp ≠ Infinity) by (intros ->; done).
    assert (mj ≠ Infinity) by (intros ->; done).
    assert (co ≠ Infinity) by (intros ->; done).
    rewrite Kmp, Kmj, Kco by done.
    assert (Hn1 : name1 = stringified nm).
    { unfold name1, orValue.
      destruct (stringified_truthy nm Hnm) as [Hn | ->]; done. }
    rewrite Hn1. by rewrite stringified_idempotent.
  - by destruct mp.
  - by destruct mj.
  - by destruct co.
  - intros Hnull. unfold name1, orValue. rewrite Hnull. done.
  - by rewrite Kc, Ks, Kp, Kl, Imp, Imj, Ico, Kname.
Qed.

Example validatedAttributes_looseAnswer :
  validatedAttributes looseAnswer =
    {| category := "commercial"; size := Finite 4; maxPop := Finite 0;
       maxJobs := Finite 0; pollution := Finite (-25); landValue := Finite 10;
       suggestedCost := Infinity;
       suggestedName := JString "Custom Building" |} ∧
  jsonSuggestedCost (stringifiedAttributes (validatedAttributes looseAnswer))
    = None.
Proof. split; reflexivity. Qed.

(** ** Aspect ratios *)

Lemma validated_valid raw : validated raw ∈ VALID_ASPECT_RATIOS.
Proof.
  unfold validated. case_bool_decide; [done |].
  by apply (bool_decide_unpack _).
Qed.

(** The aspect ratio of an answer comes out of the validation. *)
Lemma POST_aspectRatio_validated trim parseAttributes fal request r :
  aspectRatio (POST trim parseAttributes fal request) = Some r →
  r ∈ VALID_ASPECT_RATIOS.
Proof.
  intros Hr. unfold POST in Hr. destruct request as [body | m]; [| done].
  assert (Hgen : aspectRatio (generate fal body) = None).
  { unfold generate. destruct (nonEmpty _); [| done].
    destruct (nanoBanana _ _ _) as [[[| u us] |] |]; try done.
    by destruct (removeBackground _ _). }
  assert (Han : aspectRatio (analyze trim parseAttributes fal body) = None).
  { unfold analyze. destruct (nonEmpty (bodyImageUrl body)); [| done].
    destruct (vision _ _) as [out |]; [| done].
    destruct (nonEmpty out); [| done]. by destruct (parseAttributes _). }
  destruct (isStep body "get-aspect-ratio");
    [| destruct (isStep body "generate"); [congruence |];
       destruct (isStep body "analyze"); [congruence | done]].
  unfold getAspectRatio in Hr.
  destruct (nonEmpty (bodyPrompt body)) as [prompt |]; [| done].
  destruct (router fal prompt) as [out |]; [| done].
  injection Hr as <-. apply validated_valid.
Qed.

(** X16. Whenever the endpoint answers with an aspect ratio, it is one of
    the ten valid ones; and an answer of the router that is valid once
    trimmed is the ratio returned. *)
Theorem POST_aspect_ratio_valid trim parseAttributes fal request r :
  aspectRatio (POST trim parseAttributes fal request) = Some r →
  r ∈ VALID_ASPECT_RATIOS ∧
  ∀ body prompt output,
    request = Returns body →
    nonEmpty (bodyPrompt body) = Some prompt →
    router fal prompt = Returns (Some output) →
    trim output ∈ VALID_ASPECT_RATIOS →
    r = trim output.
Proof.
  intros Hr. unfold POST in Hr. destruct request as [body | m]; [| done].
  assert (Hgen : aspectRatio (generate fal body) = None).
  { unfold generate. destruct (nonEmpty _); [| done].
    destruct (nanoBanana _ _ _) as [[[| u us] |] |]; try done.
    by destruct (removeBackground _ _). }
  assert (Han : aspectRatio (analyze trim parseAttributes fal body) = None).
  { unfold analyze. destruct (nonEmpty (bodyImageUrl body)); [| done].
    destruct (vision _ _) as [out |]; [| done].
    destruct (nonEmpty out); [| done]. by destruct (parseAttributes _). }
  destruct (isStep body "get-aspect-ratio");
    [| destruct (isStep body "generate"); [congruence |];
       destruct (isStep body "analyze"); [congruence | done]].
  unfold getAspectRatio in Hr.
  destruct (nonEmpty (bodyPrompt body)) as [prompt |] eqn:Hp; [| done].
  destruct (router fal prompt) as [out |] eqn:Hrouter; [| done].
  injection Hr as <-. split; [apply validated_valid |].
  intros body' prompt' output [= <-] Hp' Hout Hvalid.
  rewrite Hp in Hp'. injection Hp' as <-.
  rewrite Hrouter in Hout. injection Hout as ->.
  cbn [fmap option_fmap option_map]. unfold validated, orString.
  destruct (String.eqb_spec (trim output) "") as [He | _].
  - exfalso. rewrite He in Hvalid. revert Hvalid.
    apply (bool_decide_eq_false_1 _). reflexivity.
  - by rewrite bool_decide_eq_true_2.
Qed.

Lemma POST_aspect_ratio_valid_witness :
  "16:9" ∈ VALID_ASPECT_RATIOS ∧
  ∀ body prompt output,
    requestFor "get-aspect-ratio" None = Returns body →
    nonEmpty (bodyPrompt body) = Some prompt →
    router answeringFal prompt = Returns (Some output) →
    noTrim output ∈ VALID_ASPECT_RATIOS →
    "16:9" = noTrim output.
Proof.
  apply (POST_aspect_ratio_valid noTrim parseLoose answeringFal
           (requestFor "get-aspect-ratio" None) "16:9").
  reflexivity.
Defined.

(** X17. The image model is only ever asked for a valid aspect ratio: two
    sets of models that agree on the valid ratios give the same answer to
    every request, whatever ratio the client sent. *)
Theorem POST_asks_valid_ratio trim parseAttributes fal fal' request :
  router fal = router fal' →
  removeBackground fal = removeBackground fal' →
  vision fal = vision fal' →
  (∀ prompt ratio, ratio ∈ VALID_ASPECT_RATIOS →
     nanoBanana fal prompt ratio = nanoBanana fal' prompt ratio) →
  POST trim parseAttributes fal request = POST trim parseAttributes fal' request.
Proof.
  intros Hrouter Hbg Hvision Hgen. unfold POST.
  destruct request as [body | m]; [| done].
  unfold getAspectRatio, generate, analyze.
  rewrite Hrouter, Hbg, Hvision.
  destruct (isStep body "get-aspect-ratio"); [done |].
  destruct (isStep body "generate"); [| done].
  destruct (nonEmpty (bodyPrompt body)) as [prompt |]; [| done].
  by rewrite (Hgen prompt _ (validated_valid _)).
Qed.

Lemma POST_asks_valid_ratio_witness :
  POST noTrim parseLoose answeringFal (requestFor "generate" (Some "7:1"))
  = POST noTrim parseLoose strictFal (requestFor "generate" (Some "7:1")).
Proof.
  apply (POST_asks_valid_ratio noTrim parseLoose answeringFal strictFal);
    try reflexivity.
  intros prompt ratio Hvalid. simpl. by rewrite bool_decide_eq_true_2.
Defined.
End EndpointAttributes.

Section EndpointText.
Import GenerateBuilding.

Lemma stripPrefix_app p s : stripPrefix p (p +:+ s) = Some s.
Proof.
  induction p as [| c p IH]; [done |].
  rewrite app_String. cbn [stripPrefix]. by rewrite Ascii.eqb_refl.
Qed.

Lemma stripSuffix_app p base : stripSuffix p (base +:+ p) = Some base.
Proof.
  induction base as [| c base IH].
  - change ("" +:+ p) with p. destruct p; cbn [stripSuffix];
      by rewrite String.eqb_refl.
  - rewrite app_String. cbn [stripSuffix].
    assert (Hne : (String c (base +:+ p) =? p)%string = false).
    { apply String.eqb_neq. intros Heq.
      apply (f_equal String.length) in Heq. simpl in Heq.
      rewrite length_app_string in Heq. lia. }
    by rewrite Hne, IH.
Qed.

Lemma dropOptional_app p s : dropOptional p (p +:+ s) = s.
Proof. unfold dropOptional. by rewrite stripPrefix_app. Qed.

Lemma dropOptional_other p s : stripPrefix p s = None → dropOptional p s = s.
Proof. intros Hno. unfold dropOptional. by rewrite Hno. Qed.

(** X18. A text wrapped in a Markdown fence, with or without the [json]
    tag, is unwrapped to exactly the text; a text that does not start
    with a fence is left as it is. *)
Theorem stripCodeFence_unwraps (s : string) :
  stripCodeFence (fence +:+ "json" +:+ newline +:+ s +:+ newline +:+ fence) = s ∧
  stripCodeFence (fence +:+ newline +:+ s +:+ newline +:+ fence) = s ∧
  (stripPrefix fence s = None → stripCodeFence s = s).
Proof.
  split; [| split].
  - unfold stripCodeFence. rewrite stripPrefix_app. cbv zeta.
    rewrite !dropOptional_app. by rewrite stripSuffix_app.
  - unfold stripCodeFence. rewrite stripPrefix_app. cbv zeta.
    rewrite (dropOptional_other "json") by done.
    rewrite dropOptional_app. by rewrite stripSuffix_app.
  - intros Hno. unfold stripCodeFence. by rewrite Hno.
Qed.

Example stripCodeFence_examples :
  stripCodeFence "```json{}```" = "{}" ∧
  stripCodeFence "```" = "" ∧
  stripCodeFence "{}" = "{}" ∧
  stripCodeFence "``{}" = "``{}".
Proof. repeat split; reflexivity. Qed.

(** ** Status codes *)

Lemma failure_fields code message :
  status (failure code message) = code ∧
  success (failure code message) = false ∧
  error (failure code message) = Some message.
Proof. done. Qed.

(** A body that is [null] is answered by the outer [catch], with status
    500 and the message of the error; a body without fields, such as
    [{}] or a number, with status 400. *)
Example POST_null_body :
  let message := "Cannot destructure property 'step' of 'body' as it is null." in
  let answer := POST noTrim parseLoose answeringFal (nullBody message) in
  status answer = 500%nat ∧ success answer = false ∧
  error answer = Some message ∧
  status (POST noTrim parseLoose answeringFal
            (Returns {| bodyStep := None; bodyPrompt := None;
                        bodyAspectRatio := None; bodyImageUrl := None |}))
    = 400%nat.
Proof. repeat split; reflexivity. Qed.

(** X19. Every answer of the endpoint has status 200, 400 or 500; it has
    status 200 exactly when [success] is true, and exactly then it carries
    no error message.  A status of 400 is decided by the request alone:
    no model is consulted for it. *)
Theorem POST_status trim parseAttributes fal request :
  let r := POST trim parseAttributes fal request in
  (status r = 200 ∨ status r = 400 ∨ status r = 500)%nat ∧
  (success r = true ↔ status r = 200%nat) ∧
  (success r = true ↔ error r = None) ∧
  (status r = 400%nat →
   ∀ fal', POST trim parseAttributes fal' request = r).
Proof.
  unfold POST. destruct request as [body | m];
    [| simpl; split; [tauto |]; split; [done |]; split; done].
  assert (Hfail : ∀ code message,
            (code = 400 ∨ code = 500)%nat →
            let r := failure code message in
            (status r = 200 ∨ status r = 400 ∨ status r = 500)%nat ∧
            (success r = true ↔ status r = 200%nat) ∧
            (success r = true ↔ error r = None)).
  { intros code message Hc. simpl. split; [tauto |]. split; split; try done; lia. }
  destruct (isStep body "get-aspect-ratio").
  { unfold getAspectRatio.
    destruct (nonEmpty (bodyPrompt body)) as [prompt |].
    - destruct (router fal prompt); simpl;
        (split; [tauto |]; split; [done |]; split; done).
    - split; [simpl; tauto |]. split; [done |]. split; [done |]. done. }
  destruct (isStep body "generate").
  { unfold generate.
    destruct (nonEmpty (bodyPrompt body)) as [prompt |];
      [| split; [simpl; tauto |]; split; [done |]; split; done].
    destruct (nanoBanana fal prompt _) as [[[| u us] |] |]; simpl;
      try (split; [tauto |]; split; [done |]; split; done).
    destruct (removeBackground fal u); simpl;
      (split; [tauto |]; split; [done |]; split; done). }
  destruct (isStep body "analyze");
    [| split; [simpl; tauto |]; split; [done |]; split; done].
  unfold analyze.
  destruct (nonEmpty (bodyImageUrl body)) as [url |];
    [| split; [simpl; tauto |]; split; [done |]; split; done].
  destruct (vision fal url) as [out |]; simpl;
    [| split; [tauto |]; split; [done |]; split; done].
  destruct (nonEmpty out) as [text |]; simpl;
    [| split; [tauto |]; split; [done |]; split; done].
  destruct (parseAttributes _); simpl;
    (split; [tauto |]; split; [done |]; split; done).
Qed.
End EndpointText.

(** * Properties of the store of custom buildings *)

Section Store.
Import CustomBuildings.

Lemma hasId_true target b : hasId target b = true ↔ id b = target.
Proof. unfold hasId. apply String.eqb_eq. Qed.

Lemma hasId_false target b : hasId target b = false ↔ id b ≠ target.
Proof. unfold hasId. apply String.eqb_neq. Qed.

Lemma added_nil b : added b [] = [b].
Proof. done. Qed.

Lemma added_cons b c prev :
  added b (c :: prev) =
    if hasId (id b) c then b :: prev else c :: added b prev.
Proof.
  unfold added. cbn [findIndex].
  destruct (hasId (id b) c); [done |].
  by destruct (findIndex (hasId (id b)) prev).
Qed.

(** Looking a building up after an addition. *)
Lemma find_added target b prev :
  find (hasId target) (added b prev) =
    if String.eqb (id b) target then Some b else find (hasId target) prev.
Proof.
  induction prev as [| c prev IH].
  - rewrite added_nil. done.
  - rewrite added_cons. destruct (hasId (id b) c) eqn:Hc.
    + apply hasId_true in Hc. cbn [find]. unfold hasId at 1 3. rewrite Hc.
      by destruct (String.eqb (id b) target).
    + apply hasId_false in Hc. cbn [find]. rewrite IH.
      destruct (hasId target c) eqn:Ht; [| done].
      apply hasId_true in Ht.
      destruct (String.eqb_spec (id b) target); [congruence | done].
Qed.

(** The identifiers after an addition: the same, in the same order, when the
    identifier is known, and one more at the end when it is new. *)
Lemma ids_added b prev :
  id <$> added b prev =
    (id <$> prev) ++ (if decide (id b ∈ id <$> prev) then [] else [id b]).
Proof.
  induction prev as [| c prev IH].
  - rewrite added_nil. change (id <$> [b]) with [id b].
    change (id <$> []) with (@nil string).
    by rewrite decide_False by apply not_elem_of_nil.
  - rewrite added_cons. destruct (hasId (id b) c) eqn:Hc.
    + apply hasId_true in Hc. rewrite !fmap_cons, Hc.
      rewrite decide_True by (apply elem_of_cons; by left).
      by rewrite app_nil_r.
    + apply hasId_false in Hc. rewrite !fmap_cons, IH.
      rewrite <- app_comm_cons. f_equal. f_equal.
      destruct (decide (id b ∈ id <$> prev)) as [Hin | Hout].
      * rewrite decide_True; [done |]. apply elem_of_cons. by right.
      * rewrite decide_False; [done |]. rewrite elem_of_cons.
        intros [? | ?]; congruence.
Qed.

Lemma find_removed target gone l :
  find (hasId target) (removed gone l) =
    if String.eqb target gone then None else find (hasId target) l.
Proof.
  induction l as [| c l IH]; [by destruct (String.eqb target gone) |].
  unfold removed in *. cbn [List.filter find].
  destruct (hasId gone c) eqn:Hg; simpl.
  - apply hasId_true in Hg. rewrite IH.
    destruct (String.eqb_spec target gone) as [-> | Hne]; [done |].
    assert (hasId target c = false) as -> by (apply hasId_false; congruence).
    done.
  - apply hasId_false in Hg.
    destruct (hasId target c) eqn:Ht.
    + apply hasId_true in Ht.
      destruct (String.eqb_spec target gone); [congruence | done].
    + apply IH.
Qed.

Lemma removed_absent gone l :
  find (hasId gone) l = None → removed gone l = l.
Proof.
  induction l as [| c l IH]; [done |]. unfold removed in *.
  cbn [find List.filter]. destruct (hasId gone c); [done |].
  intros Hf. simpl. by rewrite IH.
Qed.

(** X20. After [addCustomBuilding], looking up the identifier of the
    building gives that building, and looking up any other identifier
    gives what it gave before. *)
Theorem addCustomBuilding_lookup net building p w target :
  getCustomBuilding target (addCustomBuilding net building p w).1 =
    if decide (id building = target) then Some building
    else getCustomBuilding target p.
Proof.
  unfold getCustomBuilding, addCustomBuilding. simpl.
  rewrite find_added.
  destruct (String.eqb_spec (id building) target);
    [by rewrite decide_True | by rewrite decide_False].
Qed.

(** X21. An addition under a known identifier replaces the building in
    place: the list keeps its length and the order of its identifiers.
    Under a new identifier it puts the building at the end.  Either way
    identifiers that were distinct stay distinct. *)
Theorem addCustomBuilding_identifiers net building p w :
  let ids := id <$> customBuildings p in
  let ids' := id <$> customBuildings (addCustomBuilding net building p w).1 in
  (id building ∈ ids → ids' = ids) ∧
  (id building ∉ ids →
     customBuildings (addCustomBuilding net building p w).1
       = customBuildings p ++ [building]) ∧
  (NoDup ids → NoDup ids').
Proof.
  intros ids ids'. subst ids ids'. unfold addCustomBuilding. simpl.
  rewrite ids_added. split; [| split].
  - intros Hin. rewrite decide_True by done. apply app_nil_r.
  - intros Hout. unfold added.
    destruct (findIndex (hasId (id building)) (customBuildings p)) as [i |] eqn:Hi;
      [| done].
    exfalso. apply Hout. clear Hout. revert i Hi.
    induction (customBuildings p) as [| c l IH]; intros i Hi; [done |].
    cbn [findIndex] in Hi. simpl. apply elem_of_cons.
    destruct (hasId (id building) c) eqn:Hc.
    + left. symmetry. by apply hasId_true.
    + right. destruct (findIndex (hasId (id building)) l); [| done]. eauto.
  - intros Hnd. case_decide; [by rewrite app_nil_r |].
    apply NoDup_app. split; [done |]. split.
    + intros x Hx ->%list_elem_of_singleton. done.
    + apply NoDup_singleton.
Qed.

(** X22. After [removeCustomBuilding], the identifier names no building,
    every other identifier names what it named before, and removing an
    identifier that names nothing leaves the list as it is. *)
Theorem removeCustomBuilding_lookup gone p :
  getCustomBuilding gone (removeCustomBuilding gone p) = None ∧
  (∀ target, target ≠ gone →
     getCustomBuilding target (removeCustomBuilding gone p)
       = getCustomBuilding target p) ∧
  (getCustomBuilding gone p = None →
     customBuildings (removeCustomBuilding gone p) = customBuildings p).
Proof.
  unfold getCustomBuilding, removeCustomBuilding. simpl.
  split; [| split].
  - by rewrite find_removed, String.eqb_refl.
  - intros target Hne. rewrite find_removed.
    by destruct (String.eqb_spec target gone).
  - apply removed_absent.
Qed.

(** X23. If the selection names a building of the list, or nothing, it
    still does after an addition, a removal and [clearSelection];
    removing the selected building ends the custom-building mode, and
    removing another one keeps the selection. *)
Theorem selection_stays_valid net building gone p w :
  selectionExists p →
  selectionExists (addCustomBuilding net building p w).1 ∧
  selectionExists (removeCustomBuilding gone p) ∧
  selectionExists (clearSelection p) ∧
  (selectedCustomBuildingId p = Some gone →
     isCustomBuildingMode (removeCustomBuilding gone p) = false) ∧
  (∀ selected, selectedCustomBuildingId p = Some selected → selected ≠ gone →
     selectedCustomBuildingId (removeCustomBuilding gone p) = Some selected).
Proof.
  unfold selectionExists. intros Hsel.
  split; [| split; [| split; [done | split]]].
  - simpl. destruct (selectedCustomBuildingId p) as [selected |]; [| done].
    unfold getCustomBuilding in *. simpl. rewrite find_added.
    by destruct (String.eqb (id building) selected).
  - unfold removeCustomBuilding at 1. simpl.
    destruct (selectedCustomBuildingId p) as [selected |]; [| done].
    destruct (String.eqb_spec selected gone) as [-> | Hne]; [done |].
    unfold getCustomBuilding in *. simpl. rewrite find_removed.
    by destruct (String.eqb_spec selected gone).
  - intros Hs. unfold isCustomBuildingMode, removeCustomBuilding. simpl.
    by rewrite Hs, String.eqb_refl.
  - intros selected Hs Hne. unfold removeCustomBuilding. simpl. rewrite Hs.
    by destruct (String.eqb_spec selected gone).
Qed.

Lemma selection_stays_valid_witness :
  selectionExists (addCustomBuilding pngOnly cafe twoBuildings initialWorld).1 ∧
  selectionExists (removeCustomBuilding "custom_1" twoBuildings) ∧
  selectionExists (clearSelection twoBuildings) ∧
  (selectedCustomBuildingId twoBuildings = Some "custom_1" →
     isCustomBuildingMode (removeCustomBuilding "custom_1" twoBuildings) = false) ∧
  (∀ selected, selectedCustomBuildingId twoBuildings = Some selected →
     selected ≠ "custom_1" →
     selectedCustomBuildingId (removeCustomBuilding "custom_1" twoBuildings)
       = Some selected).
Proof.
  apply (selection_stays_valid pngOnly cafe "custom_1" twoBuildings initialWorld).
  unfold selectionExists. simpl. by exists tower.
Defined.

Example store_examples :
  customBuildings (addCustomBuilding offline tower twoBuildings initialWorld).1
    = [cafe; tower] ∧
  customBuildings (removeCustomBuilding "custom_2" twoBuildings) = [cafe] ∧
  isCustomBuildingMode (removeCustomBuilding "custom_2" twoBuildings) = false ∧
  isCustomBuildingMode
    (selectCustomBuilding (Some "nobody") twoBuildings) = true ∧
  getCustomBuilding "nobody" twoBuildings = None.
Proof. repeat split; reflexivity. Qed.

(** ** Preloading *)

(** A source that the network serves is cached after [loadImage]. *)
Lemma loadImage_fetched net src img w :
  fetch net src = Some img →
  is_Some (imageCache (loadImage net src w).2 !! src).
Proof.
  intros Hf. rewrite loadImage_imageCache.
  destruct (imageCache w !! src) as [cached |] eqn:Hc; [by rewrite Hc |].
  destruct (alternateTried net src w) as [path |];
    [destruct (fetch net path) |]; rewrite ?Hf, lookup_insert_eq; eauto.
Qed.

Lemma preload_keeps_images net url w k :
  is_Some (imageCache w !! k) → is_Some (imageCache (preload net url w) !! k).
Proof.
  intros Hk. unfold preload. destruct (String.eqb url ""); [done |].
  by apply loadImage_keeps_images.
Qed.

Lemma preloadCustomBuildingImages_keeps net buildings : ∀ w k,
  is_Some (imageCache w !! k) →
  is_Some (imageCache (preloadCustomBuildingImages net buildings w) !! k).
Proof.
  unfold preloadCustomBuildingImages.
  induction buildings as [| b l IH]; intros w k Hk; [done |].
  simpl. apply IH. by apply preload_keeps_images.
Qed.

(** X24. After [preloadCustomBuildingImages], every building of the list
    whose sprite URL is not empty and is served by the network has its
    sprite in the image cache; a sprite that fails to load stops nothing.
    Images cached before stay cached. *)
Theorem preloadCustomBuildingImages_caches net buildings w :
  (∀ building img,
     building ∈ buildings →
     spriteUrl building ≠ "" →
     fetch net (spriteUrl building) = Some img →
     is_Some (imageCache (preloadCustomBuildingImages net buildings w)
                !! spriteUrl building)) ∧
  (∀ k, is_Some (imageCache w !! k) →
        is_Some (imageCache (preloadCustomBuildingImages net buildings w) !! k)).
Proof.
  split; [| intros k; apply preloadCustomBuildingImages_keeps].
  revert w. induction buildings as [| b l IH]; intros w building img Hin Hurl Hf;
    [by apply elem_of_nil in Hin |].
  apply elem_of_cons in Hin as [-> | Hin].
  - unfold preloadCustomBuildingImages. simpl.
    apply (preloadCustomBuildingImages_keeps net l).
    unfold preload. destruct (String.eqb_spec (spriteUrl b) ""); [done |].
    by apply (loadImage_fetched net _ img).
  - unfold preloadCustomBuildingImages. simpl. by apply (IH _ building img).
Qed.

Example preload_two :
  let w := preloadCustomBuildingImages pngOnly [tower; cafe] initialWorld in
  imageCache w !! "a.png" = Some redAndBlue ∧
  imageCache w !! "missing.png" = None ∧
  requested w = ["missing.webp"; "missing.png"; "a.webp"; "a.png"].
Proof. repeat split; reflexivity. Qed.

(** ** Stored buildings *)

(** X25. [loadCustomBuildings] returns the entries of the stored array that
    are buildings, in their order, and nothing else; it returns the empty
    list when there is no window, when the storage cannot be read, and for
    no stored text, an empty text, a text that does not parse, or a text
    that is no array. *)
Theorem loadCustomBuildings_valid parse st :
  let loaded := loadCustomBuildings parse st in
  (∀ b, b ∈ loaded → isValidCustomBuilding b = true) ∧
  (∀ text parsed,
     hasWindow st = true → blocked st = false →
     item st = Some text → text ≠ "" →
     parse text = Some (JArray parsed) →
     loaded = List.filter isValidCustomBuilding parsed) ∧
  (hasWindow st = false ∨ blocked st = true ∨
   item st = None ∨ item st = Some "" ∨
   (∃ text, item st = Some text ∧
      ∀ parsed, parse text ≠ Some (JArray parsed)) →
   loaded = []).
Proof.
  unfold loadCustomBuildings. split; [| split].
  - intros b. destruct (hasWindow st); simpl; [| by intros ?%elem_of_nil].
    destruct (blocked st); [by intros ?%elem_of_nil |].
    destruct (item st) as [text |]; [| by intros ?%elem_of_nil].
    destruct (String.eqb text ""); [by intros ?%elem_of_nil |].
    destruct (parse text) as [[| | | | parsed |] |];
      try by intros ?%elem_of_nil.
    rewrite list_elem_of_In, filter_In. tauto.
  - intros text parsed -> -> -> Hne ->. simpl.
    by destruct (String.eqb_spec text "").
  - intros [-> | [-> | [-> | [-> | (text & -> & Hno)]]]]; try done.
    + by destruct (hasWindow st).
    + by destruct (hasWindow st), (blocked st).
    + by destruct (hasWindow st), (blocked st).
    + destruct (hasWindow st); [| done]. simpl.
      destruct (blocked st); [done |].
      destruct (String.eqb text ""); [done |].
      destruct (parse text) as [[| | | | parsed |] |]; try done.
      by destruct (Hno parsed).
Qed.

Example loadCustomBuildings_stored :
  loadCustomBuildings parseStored (browserWith "stored")
    = [storedCafe; storedCafe] ∧
  loadCustomBuildings parseStored (browserWith "{oops") = [] ∧
  isValidCustomBuilding (JArray []) = false ∧
  isValidCustomBuilding storedOversized = false.
Proof. repeat split; reflexivity. Qed.

(** X26. What [saveCustomBuildings] stores is what [loadCustomBuildings]
    reads back: when the text written parses to the list saved, loading
    gives the buildings of that list, and the whole list when all of it
    is buildings.  Without a window, or when the storage cannot be reached
    or refuses the write, saving changes nothing. *)
Theorem save_then_load parse stringify buildings st :
  (hasWindow st = true → blocked st = false → quotaExceeded st = false →
   stringify buildings ≠ "" →
   parse (stringify buildings) = Some (JArray buildings) →
   loadCustomBuildings parse (saveCustomBuildings stringify buildings st)
     = List.filter isValidCustomBuilding buildings ∧
   (forallb isValidCustomBuilding buildings = true →
    loadCustomBuildings parse (saveCustomBuildings stringify buildings st)
      = buildings)) ∧
  (hasWindow st = false ∨ blocked st = true ∨ quotaExceeded st = true →
   saveCustomBuildings stringify buildings st = st).
Proof.
  split.
  - intros Hw Hb Hq Hne Hparse.
    assert (Hload : loadCustomBuildings parse
                      (saveCustomBuildings stringify buildings st)
                    = List.filter isValidCustomBuilding buildings).
    { unfold saveCustomBuildings, loadCustomBuildings. rewrite Hw, Hb, Hq. simpl.
      destruct (String.eqb_spec (stringify buildings) "");
        [done |]. by rewrite Hparse. }
    split; [done |]. intros Hall. rewrite Hload.
    clear -Hall. induction buildings as [| b l IH]; [done |].
    simpl in *. apply andb_true_iff in Hall as [-> Hl]. by rewrite IH.
  - unfold saveCustomBuildings. intros [-> | [-> | ->]]; [done | |].
    + by destruct (hasWindow st).
    + by destruct (hasWindow st), (blocked st).
Qed.
End Store.

(** * Properties of the generation hook *)

Section HookProperties.
Import Generator.

(** A failed request leaves the hook failed, with a message and no result. *)
Lemma post_failed api body what st :
  post api body what = inl st →
  step st = Failed ∧ is_Some (error st) ∧ result st = None.
Proof.
  unfold post. destruct (api body) as [reply | m]; [| intros [= <-]; simpl; eauto].
  destruct (ok reply); simpl.
  - destruct (json reply) as [data | m]; [done |]. intros [= <-]. simpl. eauto.
  - intros [= <-]. simpl. eauto.
Qed.

(** X27. [generate] never ends in ['idle'] or ['generating'].  It ends
    either complete, with a result, no error and three requests made, or
    failed, with an error message; a failed run leaves no result, except
    for a blank description, which makes no request and keeps the result
    of the run before. *)
Theorem generate_ends trim api imageLoads text st :
  let st' := (generate trim api imageLoads text st).1 in
  let posted := (generate trim api imageLoads text st).2 in
  (step st' = Complete ∧ is_Some (result st') ∧ error st' = None ∧
   length posted = 3%nat ∧ trim text ≠ "") ∨
  (step st' = Failed ∧ is_Some (error st') ∧
   (result st' = None ∧ trim text ≠ "" ∧ (0 < length posted)%nat ∨
    trim text = "" ∧ posted = [] ∧ result st' = result st)).
Proof.
  unfold generate.
  destruct (String.eqb_spec (trim text) "") as [Hblank | Hfull].
  { right. simpl. split; [done |]. split; [eauto |]. right. done. }
  destruct (post api _ "Aspect ratio selection") as [st1 | aspectData] eqn:H1.
  { right. simpl. destruct (post_failed _ _ _ _ H1) as (? & ? & ?).
    split; [done |]. split; [done |]. left. split; [done |]. split; [done | lia]. }
  destruct (post api _ "Image generation") as [st2 | genData] eqn:H2.
  { right. simpl. destruct (post_failed _ _ _ _ H2) as (? & ? & ?).
    split; [done |]. split; [done |]. left. split; [done |]. split; [done | lia]. }
  destruct (GenerateBuilding.success genData);
    [| right; simpl; split; [done |]; split; [eauto |]; left;
       split; [done |]; split; [done | lia]].
  destruct (GenerateBuilding.nonEmpty (GenerateBuilding.imageUrl genData)) as [url |];
    [| right; simpl; split; [done |]; split; [eauto |]; left;
       split; [done |]; split; [done | lia]].
  destruct (post api _ "Analysis") as [st3 | analyzeData] eqn:H3.
  { right. simpl. destruct (post_failed _ _ _ _ H3) as (? & ? & ?).
    split; [done |]. split; [done |]. left. split; [done |]. split; [done | lia]. }
  destruct (GenerateBuilding.success analyzeData);
    [| right; simpl; split; [done |]; split; [eauto |]; left;
       split; [done |]; split; [done | lia]].
  destruct (GenerateBuilding.attributes analyzeData) as [attrs |];
    [| right; simpl; split; [done |]; split; [eauto |]; left;
       split; [done |]; split; [done | lia]].
  destruct (imageLoads url).
  - left. simpl. split; [done |]. split; [eauto |]. done.
  - right. simpl. split; [done |]. split; [eauto |]. left.
    split; [done |]. split; [done | lia].
Qed.

(** X28. When [generate] ends complete, it has posted exactly the three
    steps in order: the aspect-ratio request and the generation request
    carry the trimmed description, the generation request a ratio that is
    not empty, and the analysis request the URL of the generated image;
    that image was preloaded, and the result holds this URL and the
    trimmed description. *)
Theorem generate_complete trim api imageLoads text st st' posted :
  generate trim api imageLoads text st = (st', posted) →
  step st' = Complete →
  ∃ ratio url attrs,
    posted = [request "get-aspect-ratio" (Some (trim text)) None None;
              request "generate" (Some (trim text)) (Some ratio) None;
              request "analyze" None None (Some url)] ∧
    ratio ≠ "" ∧ url ≠ "" ∧ imageLoads url = true ∧
    result st' = Some {| imageUrl := url; prompt := trim text;
                         attributes := attrs |}.
Proof.
  unfold generate.
  destruct (String.eqb_spec (trim text) ""); [by intros [= <- <-] |].
  destruct (post api _ "Aspect ratio selection") as [st1 | aspectData] eqn:H1.
  { intros [= <- <-] Hs. destruct (post_failed _ _ _ _ H1) as (? & _). congruence. }
  destruct (post api _ "Image generation") as [st2 | genData] eqn:H2.
  { intros [= <- <-] Hs. destruct (post_failed _ _ _ _ H2) as (? & _). congruence. }
  destruct (GenerateBuilding.success genData); [| by intros [= <- <-]].
  destruct (GenerateBuilding.nonEmpty (GenerateBuilding.imageUrl genData))
    as [url |] eqn:Hurl; [| by intros [= <- <-]].
  destruct (post api _ "Analysis") as [st3 | analyzeData] eqn:H3.
  { intros [= <- <-] Hs. destruct (post_failed _ _ _ _ H3) as (? & _). congruence. }
  destruct (GenerateBuilding.success analyzeData); [| by intros [= <- <-]].
  destruct (GenerateBuilding.attributes analyzeData) as [attrs |];
    [| by intros [= <- <-]].
  destruct (imageLoads url) eqn:Hload; [| by intros [= <- <-]].
  intros [= <- <-] _. eexists _, url, attrs. split; [done |].
  split.
  { by apply orString_nonempty. }
  split; [| done].
  unfold GenerateBuilding.nonEmpty in Hurl.
  destruct (GenerateBuilding.imageUrl genData) as [u |]; [| done].
  destruct (String.eqb_spec u ""); [done |]. by injection Hurl as <-.
Qed.

Lemma generate_complete_witness :
  ∃ ratio url attrs,
    (generate noTrim (endpoint noTrim parseLoose answeringFal) (λ _, true)
       "a lighthouse" initial).2
    = [request "get-aspect-ratio" (Some (noTrim "a lighthouse")) None None;
       request "generate" (Some (noTrim "a lighthouse")) (Some ratio) None;
       request "analyze" None None (Some url)] ∧
    ratio ≠ "" ∧ url ≠ "" ∧ (λ _ : string, true) url = true ∧
    result (generate noTrim (endpoint noTrim parseLoose answeringFal) (λ _, true)
              "a lighthouse" initial).1
    = Some {| imageUrl := url; prompt := noTrim "a lighthouse";
              attributes := attrs |}.
Proof.
  apply (generate_complete noTrim (endpoint noTrim parseLoose answeringFal)
           (λ _, true) "a lighthouse" initial); reflexivity.
Defined.

Example generate_examples :
  (generate noTrim unreachable (λ _, true) "a lighthouse" initial).1
    = failed "Failed to fetch" ∧
  length (generate noTrim unreachable (λ _, true) "a lighthouse" initial).2
    = 1%nat ∧
  (generate noTrim (endpoint noTrim (λ _, None) answeringFal) (λ _, true)
     "a lighthouse" initial).1
    = failed "Failed to parse building attributes from AI response" ∧
  (generate noTrim (λ _, GenerateBuilding.Returns
                           {| ok := false; status := 502;
                              json := GenerateBuilding.Throws None |})
     (λ _, true) "a lighthouse" initial).1
    = failed "Aspect ratio selection failed (502)".
Proof. repeat split; reflexivity. Qed.

(** ** The hook against the endpoint of this repository *)

(** What the hook reads from the endpoint is the endpoint's answer, and it
    reads it only from an answer whose status is from 200 to 299. *)
Lemma post_endpoint trim parseAttributes fal body what data :
  post (endpoint trim parseAttributes fal) body what = inr data →
  data = GenerateBuilding.POST trim parseAttributes fal
           (GenerateBuilding.Returns body).
Proof.
  unfold post, endpoint. simpl.
  destruct (_ && _); simpl; [| done]. by intros [= <-].
Qed.

Lemma valid_ratio_nonempty r :
  r ∈ GenerateBuilding.VALID_ASPECT_RATIOS → r ≠ "".
Proof.
  intros Hr ->. revert Hr. apply (bool_decide_eq_false_1 _). reflexivity.
Qed.

(** X29. Against the endpoint of this repository, the ratio that the hook
    sends with its generation request is always one of the valid ones,
    and the attributes of a complete result have passed the validation:
    the category is one of the five and the size is an integer from 1
    to 4. *)
Theorem generate_with_endpoint
    trim trim' parseAttributes fal imageLoads text st :
  let run :=
    generate trim (endpoint trim' parseAttributes fal) imageLoads text st in
  (∀ ratio,
     request "generate" (Some (trim text)) (Some ratio) None ∈ run.2 →
     ratio ∈ GenerateBuilding.VALID_ASPECT_RATIOS) ∧
  (∀ r, step run.1 = Complete → result run.1 = Some r →
     GenerateBuilding.jsonCategory (attributes r)
       ∈ GenerateBuilding.CATEGORIES ∧
     ∃ z, GenerateBuilding.jsonSize (attributes r)
            = Some (inject_Z z) ∧ 1 <= z <= 4).
Proof.
  intros run. subst run. unfold generate.
  destruct (String.eqb_spec (trim text) "").
  { simpl. split; [by intros ratio ?%elem_of_nil | done]. }
  set (first := request "get-aspect-ratio" (Some (trim text)) None None).
  destruct (post _ first "Aspect ratio selection") as [st1 | aspectData] eqn:H1.
  { simpl. split.
    - intros ratio Hin. apply list_elem_of_singleton in Hin. done.
    - intros r Hs. destruct (post_failed _ _ _ _ H1) as (? & _). congruence. }
  apply post_endpoint in H1.
  assert (Hratio : GenerateBuilding.orString
                     (GenerateBuilding.aspectRatio aspectData) "4:5"
                   ∈ GenerateBuilding.VALID_ASPECT_RATIOS).
  { destruct (GenerateBuilding.aspectRatio aspectData) as [r |] eqn:Hr; simpl.
    - rewrite H1 in Hr. apply POST_aspectRatio_validated in Hr.
      pose proof (valid_ratio_nonempty r Hr) as Hne.
      by destruct (String.eqb_spec r "").
    - by apply (bool_decide_unpack _). }
  set (ratio0 := GenerateBuilding.orString _ "4:5") in *.
  set (second := request "generate" (Some (trim text)) (Some ratio0) None).
  assert (Hposted : ∀ ratio rest,
            (∀ b, b ∈ rest → GenerateBuilding.bodyStep b = Some "analyze") →
            request "generate" (Some (trim text)) (Some ratio) None
              ∈ first :: second :: rest →
            ratio ∈ GenerateBuilding.VALID_ASPECT_RATIOS).
  { intros ratio rest Hrest Hin.
    apply elem_of_cons in Hin as [Heq | Hin]; [done |].
    apply elem_of_cons in Hin as [Heq | Hin].
    - injection Heq as ->. done.
    - apply Hrest in Hin. done. }
  assert (Hnil : ∀ b : GenerateBuilding.Body,
            b ∈ [] → GenerateBuilding.bodyStep b = Some "analyze")
    by (by intros b ?%elem_of_nil).
  assert (Hone : ∀ url (b : GenerateBuilding.Body),
            b ∈ [request "analyze" None None (Some url)] →
            GenerateBuilding.bodyStep b = Some "analyze")
    by (by intros url b ->%list_elem_of_singleton).
  destruct (post _ second "Image generation") as [st2 | genData] eqn:H2.
  { simpl. split; [intros ratio; by apply Hposted |].
    intros r Hs. destruct (post_failed _ _ _ _ H2) as (? & _). congruence. }
  destruct (GenerateBuilding.success genData);
    [| simpl; split; [intros ratio; by apply Hposted | done]].
  destruct (GenerateBuilding.nonEmpty (GenerateBuilding.imageUrl genData)) as [url |];
    [| simpl; split; [intros ratio; by apply Hposted | done]].
  destruct (post _ _ "Analysis") as [st3 | analyzeData] eqn:H3.
  { simpl. split; [intros ratio; apply Hposted, Hone |].
    intros r Hs. destruct (post_failed _ _ _ _ H3) as (? & _). congruence. }
  apply post_endpoint in H3.
  destruct (GenerateBuilding.success analyzeData);
    [| simpl; split; [intros ratio; apply Hposted, Hone | done]].
  destruct (GenerateBuilding.attributes analyzeData) as [attrs |] eqn:Hattrs;
    [| simpl; split; [intros ratio; apply Hposted, Hone | done]].
  destruct (imageLoads url);
    [| simpl; split; [intros ratio; apply Hposted, Hone | done]].
  simpl. split; [intros ratio; apply Hposted, Hone |].
  intros r _ [= <-]. simpl.
  rewrite H3 in Hattrs. apply POST_attributes_validated in Hattrs as [raw ->].
  destruct (validatedAttributes_inRange raw) as (Hc & (z & Hs & Hz) & _).
  split; [done |]. exists z.
  unfold GenerateBuilding.stringifiedAttributes.
  cbn [Generator.attributes GenerateBuilding.jsonSize].
  by rewrite Hs.
Qed.
End HookProperties.
